(** * Raft simulation engine: a shallow embedding and its properties

    The development embeds the consensus engine of the Raft visualiser:
    the protocol handlers of [src/utils/raftLogic.ts] and the tick loop,
    the broadcast helper and the crash toggle of the application component.

    Conventions of the embedding.
    - JavaScript numbers that hold terms, indices, ids and timers are
      integers ([Z]).  Packet [progress] and [speed] are rationals ([Q]):
      every speed the engine produces is [PACKET_SPEED] or
      [PACKET_SPEED * playbackSpeed], and the model keeps these exact.
    - [Record<number, number>] objects ([nextIndex], [matchIndex]) are
      finite maps [gmap Z Z]; the vote tracker
      [Record<number, Set<number>>] is a [gmap Z (gset Z)].
    - A packet's [type] tag and the shape of its [payload] always agree in
      the packets the engine builds; the embedding merges them into one
      tagged union [Payload], and [ptype] recovers the tag.
    - The packet [id] (a random UUID) and the node coordinates [x], [y] are
      used by the renderer only and are left out.
    - [Math.random] is an input: [getRandomTimeout] results are supplied
      by the caller of [tick] and [toggleNodeState].
    - A [TypeError] (reading [.term] of [undefined]) is the result [None]. *)

From Stdlib Require Import ZArith QArith Lia Lqa String.
From stdpp Require Import base gmap sets list sorting.

Open Scope Z_scope.

(** ** Data model ([src/types.ts]) *)

Inductive NodeState := FOLLOWER | CANDIDATE | LEADER | CRASHED.

Inductive PacketType :=
  REQUEST_VOTE | VOTE_RESPONSE | APPEND_ENTRIES | APPEND_RESPONSE.

#[global] Instance NodeState_eq_dec : EqDecision NodeState.
Proof. solve_decision. Defined.

#[global] Instance PacketType_eq_dec : EqDecision PacketType.
Proof. solve_decision. Defined.

Record LogEntry := mkLogEntry { term : Z; command : string }.

Record RaftNode := mkRaftNode {
  id : Z;
  state : NodeState;
  currentTerm : Z;
  votedFor : option Z;
  log : list LogEntry;
  commitIndex : Z;
  electionTimeout : Z;
  currentTimeoutDuration : Z;
  nextIndex : gmap Z Z;
  matchIndex : gmap Z Z;
  heartbeatTimer : Z
}.

Inductive Payload :=
| RequestVote (rv_term candidateId lastLogIndex lastLogTerm : Z)
| VoteResponse (vr_term : Z) (voteGranted : bool)
| AppendEntries (ae_term leaderId prevLogIndex prevLogTerm : Z)
                (entries : list LogEntry) (leaderCommit : Z)
| AppendResponse (ar_term : Z) (success : bool) (ar_matchIndex : Z).

Record Packet := mkPacket {
  from : Z;
  to : Z;
  payload : Payload;
  progress : Q;
  speed : Q
}.

Definition ptype (p : Packet) : PacketType :=
  match payload p with
  | RequestVote _ _ _ _ => REQUEST_VOTE
  | VoteResponse _ _ => VOTE_RESPONSE
  | AppendEntries _ _ _ _ _ _ => APPEND_ENTRIES
  | AppendResponse _ _ _ => APPEND_RESPONSE
  end.

(** Field updates, one per assignment form [node.f = v] of the source. *)

Definition set_state (s : NodeState) (n : RaftNode) : RaftNode :=
  mkRaftNode (id n) s (currentTerm n) (votedFor n) (log n) (commitIndex n)
    (electionTimeout n) (currentTimeoutDuration n) (nextIndex n)
    (matchIndex n) (heartbeatTimer n).

Definition set_currentTerm (t : Z) (n : RaftNode) : RaftNode :=
  mkRaftNode (id n) (state n) t (votedFor n) (log n) (commitIndex n)
    (electionTimeout n) (currentTimeoutDuration n) (nextIndex n)
    (matchIndex n) (heartbeatTimer n).

Definition set_votedFor (v : option Z) (n : RaftNode) : RaftNode :=
  mkRaftNode (id n) (state n) (currentTerm n) v (log n) (commitIndex n)
    (electionTimeout n) (currentTimeoutDuration n) (nextIndex n)
    (matchIndex n) (heartbeatTimer n).

Definition set_log (l : list LogEntry) (n : RaftNode) : RaftNode :=
  mkRaftNode (id n) (state n) (currentTerm n) (votedFor n) l (commitIndex n)
    (electionTimeout n) (currentTimeoutDuration n) (nextIndex n)
    (matchIndex n) (heartbeatTimer n).

Definition set_commitIndex (c : Z) (n : RaftNode) : RaftNode :=
  mkRaftNode (id n) (state n) (currentTerm n) (votedFor n) (log n) c
    (electionTimeout n) (currentTimeoutDuration n) (nextIndex n)
    (matchIndex n) (heartbeatTimer n).

Definition set_electionTimeout (e : Z) (n : RaftNode) : RaftNode :=
  mkRaftNode (id n) (state n) (currentTerm n) (votedFor n) (log n)
    (commitIndex n) e (currentTimeoutDuration n) (nextIndex n)
    (matchIndex n) (heartbeatTimer n).

Definition set_currentTimeoutDuration (d : Z) (n : RaftNode) : RaftNode :=
  mkRaftNode (id n) (state n) (currentTerm n) (votedFor n) (log n)
    (commitIndex n) (electionTimeout n) d (nextIndex n)
    (matchIndex n) (heartbeatTimer n).

Definition set_nextIndex (m : gmap Z Z) (n : RaftNode) : RaftNode :=
  mkRaftNode (id n) (state n) (currentTerm n) (votedFor n) (log n)
    (commitIndex n) (electionTimeout n) (currentTimeoutDuration n) m
    (matchIndex n) (heartbeatTimer n).

Definition set_matchIndex (m : gmap Z Z) (n : RaftNode) : RaftNode :=
  mkRaftNode (id n) (state n) (currentTerm n) (votedFor n) (log n)
    (commitIndex n) (electionTimeout n) (currentTimeoutDuration n)
    (nextIndex n) m (heartbeatTimer n).

Definition set_heartbeatTimer (h : Z) (n : RaftNode) : RaftNode :=
  mkRaftNode (id n) (state n) (currentTerm n) (votedFor n) (log n)
    (commitIndex n) (electionTimeout n) (currentTimeoutDuration n)
    (nextIndex n) (matchIndex n) h.

(** ** Constants and array helpers ([src/utils/raftLogic.ts]) *)

Definition MIN_ELECTION_TIMEOUT : Z := 150.
Definition MAX_ELECTION_TIMEOUT : Z := 300.
Definition HEARTBEAT_INTERVAL : Z := 50.
Definition PACKET_SPEED : Q := 3 # 2.
Definition NODE_COUNT : Z := 5.

(** [arr[i]] for an integer [i]: [undefined] ([None]) out of range. *)
Definition log_at (l : list LogEntry) (i : Z) : option LogEntry :=
  if i <? 0 then None else l !! Z.to_nat i.

(** [arr.length] *)
Definition llen (l : list LogEntry) : Z := Z.of_nat (length l).

(** [arr.slice(i)] for an integer [i >= 0]; a negative [i] counts from the
    end of the array. *)
Definition slice_from (l : list LogEntry) (i : Z) : list LogEntry :=
  if i <? 0 then drop (Z.to_nat (Z.max 0 (llen l + i))) l
  else drop (Z.to_nat i) l.

(** [arr.slice(0, i)] for an integer [i >= 0]. *)
Definition slice_to (l : list LogEntry) (i : Z) : list LogEntry :=
  if i <? 0 then take (Z.to_nat (Z.max 0 (llen l + i))) l
  else take (Z.to_nat i) l.

(** [createNode]: the two timeouts are the two draws of
    [getRandomTimeout]. *)
Definition createNode (i : Z) (timeout duration : Z) : RaftNode :=
  mkRaftNode i FOLLOWER 0 None [] (-1) timeout duration ∅ ∅ 0.

(** The last-log term of a node: [-1] for an empty log. *)
Definition lastLogTermOf (l : list LogEntry) : Z :=
  match log_at l (llen l - 1) with
  | Some e => term e
  | None => -1
  end.

(** ** Protocol handlers *)

Definition processRequestVote (node : RaftNode)
    (rterm candidateId lastLogIndex lastLogTerm : Z) : RaftNode * Packet :=
  let updatedNode :=
    if currentTerm node <? rterm
    then set_votedFor None (set_state FOLLOWER (set_currentTerm rterm node))
    else node in
  let myLastLogIndex := llen (log updatedNode) - 1 in
  let myLastLogTerm := lastLogTermOf (log updatedNode) in
  let logIsUpToDate :=
    (myLastLogTerm <? lastLogTerm)
    || ((lastLogTerm =? myLastLogTerm) && (myLastLogIndex <=? lastLogIndex)) in
  let grant :=
    (currentTerm updatedNode <=? rterm)
    && (match votedFor updatedNode with
        | None => true
        | Some v => v =? candidateId
        end)
    && logIsUpToDate in
  let updatedNode :=
    if grant
    then set_electionTimeout (currentTimeoutDuration updatedNode)
           (set_votedFor (Some candidateId) updatedNode)
    else updatedNode in
  (updatedNode,
   mkPacket (id node) candidateId
     (VoteResponse (currentTerm updatedNode) grant) 0 PACKET_SPEED).

Definition processVoteResponse (node : RaftNode) (vterm : Z)
    (granted : bool) : RaftNode :=
  if currentTerm node <? vterm
  then set_votedFor None (set_state FOLLOWER (set_currentTerm vterm node))
  else node.

(** The body of the [while] loop of [processAppendEntries]:
    [appendLoop lg logInsertIndex es] runs it over the remaining supplied
    entries [es], starting at position [logInsertIndex] of [lg].  The loop
    starts at [prevLogIndex + 1 >= 0], so [lg[logInsertIndex]] is defined
    whenever [logInsertIndex < lg.length]. *)
Fixpoint appendLoop (lg : list LogEntry) (logInsertIndex : Z)
    (es : list LogEntry) : list LogEntry :=
  match es with
  | [] => lg
  | e :: es' =>
      let lg' :=
        if llen lg <=? logInsertIndex then lg ++ [e]
        else match log_at lg logInsertIndex with
             | Some x =>
                 if term x =? term e then lg
                 else slice_to lg logInsertIndex ++ [e]
             | None => lg
             end in
      appendLoop lg' (logInsertIndex + 1) es'
  end.

(** The log-consistency check; [None] is the [TypeError] raised by
    [log[prevLogIndex].term] when [prevLogIndex < -1]. *)
Definition logOk (lg : list LogEntry) (prevLogIndex prevLogTerm : Z)
    : option bool :=
  if prevLogIndex =? -1 then Some true
  else if prevLogIndex <? llen lg then
    match log_at lg prevLogIndex with
    | Some x => Some (term x =? prevLogTerm)
    | None => None
    end
  else Some false.

(** The first block of [processAppendEntries]: a sender whose term is not
    stale is followed, and the election timer restarts. *)
Definition followLeader (aterm : Z) (node : RaftNode) : RaftNode :=
  set_electionTimeout (currentTimeoutDuration node)
    (set_votedFor None (set_state FOLLOWER (set_currentTerm aterm node))).

Definition processAppendEntries (node : RaftNode)
    (aterm leaderId prevLogIndex prevLogTerm : Z) (entries : list LogEntry)
    (leaderCommit : Z) : option (RaftNode * Packet) :=
  let updatedNode :=
    if currentTerm node <=? aterm then followLeader aterm node else node in
  let reply (n : RaftNode) (success : bool) :=
    Some (n, mkPacket (id node) leaderId
                (AppendResponse (currentTerm n) success (llen (log n) - 1))
                0 PACKET_SPEED) in
  if aterm <? currentTerm updatedNode then reply updatedNode false
  else
    match logOk (log updatedNode) prevLogIndex prevLogTerm with
    | None => None
    | Some false => reply updatedNode false
    | Some true =>
        let lg := appendLoop (log updatedNode) (prevLogIndex + 1) entries in
        let n1 := set_log lg updatedNode in
        let n2 :=
          if commitIndex n1 <? leaderCommit
          then set_commitIndex (Z.min leaderCommit (llen lg - 1)) n1
          else n1 in
        reply n2 true
    end.

(** ** The simulation engine (application component) *)

(** The authoritative state kept in [stateRef.current]. *)
Record Engine := mkEngine {
  nodes : list RaftNode;
  packets : list Packet;
  votesReceived : gmap Z (gset Z)
}.

(** [broadcast]: one packet to every other node that is not crashed. *)
Definition broadcast (sender : RaftNode) (pl : Payload)
    (nodesList : list RaftNode) (playbackSpeed : Q) : list Packet :=
  (λ target : RaftNode,
     mkPacket (id sender) (id target) pl 0 (PACKET_SPEED * playbackSpeed)%Q)
  <$> filter (λ n : RaftNode, id n ≠ id sender ∧ state n ≠ CRASHED) nodesList.

(** Step 1 of [tick]: [p.progress += p.speed], then the split into
    arrived and surviving packets. *)
Definition advance (p : Packet) : Packet :=
  mkPacket (from p) (to p) (payload p) (progress p + speed p)%Q (speed p).

Definition hasArrived (p : Packet) : bool := Qle_bool 100 (progress p).

(** [x || 1] on a possibly missing number: [undefined] and [0] give [1]. *)
Definition orOne (v : option Z) : Z :=
  match v with
  | Some x => if x =? 0 then 1 else x
  | None => 1
  end.

(** [arr.sort((a, b) => b - a)], as an insertion sort. *)
Fixpoint insertDesc (x : Z) (l : list Z) : list Z :=
  match l with
  | [] => [x]
  | y :: l' => if y <=? x then x :: l else y :: insertDesc x l'
  end.

Definition sortDesc (l : list Z) : list Z := foldr insertDesc [] l.

(** [Object.values(m)] *)
Definition objectValues (m : gmap Z Z) : list Z := snd <$> map_to_list m.

(** The candidate commit index of the leader: the element of rank
    [Math.floor(NODE_COUNT / 2)] of the sorted array, [undefined] ([None])
    when the array is shorter. *)
Definition majorityN (node : RaftNode) : option Z :=
  sortDesc ((llen (log node) - 1) :: objectValues (matchIndex node))
    !! Z.to_nat (NODE_COUNT / 2).

(** The test guarding [commitIndex = majorityN]. *)
Definition commitGuard (node : RaftNode) (m : option Z) : bool :=
  match m with
  | Some k =>
      (commitIndex node <? k)
      && match log_at (log node) k with
         | Some e => term e =? currentTerm node
         | None => false
         end
  | None => false
  end.

(** The [APPEND_RESPONSE] branch of [tick], which updates the target node
    in place. *)
Definition processAppendResponse (targetNode : RaftNode) (sender : Z)
    (aterm : Z) (success : bool) (mi : Z) : RaftNode :=
  if currentTerm targetNode <? aterm
  then set_votedFor None (set_currentTerm aterm (set_state FOLLOWER targetNode))
  else if bool_decide (state targetNode = LEADER)
          && (aterm =? currentTerm targetNode)
  then
    if success
    then
      let n1 := set_matchIndex (<[sender := mi]> (matchIndex targetNode))
                  targetNode in
      let n2 := set_nextIndex (<[sender := mi + 1]> (nextIndex n1)) n1 in
      let m := majorityN n2 in
      if commitGuard n2 m then set_commitIndex (default 0 m) n2 else n2
    else
      set_nextIndex
        (<[sender := Z.max 0 (orOne (nextIndex targetNode !! sender) - 1)]>
           (nextIndex targetNode))
        targetNode
  else targetNode.

(** Leader initialisation on an election win: for every node [n] of the
    cluster (the winner included), [nextIndex[n.id] = log.length] and
    [matchIndex[n.id] = 0]. *)
Definition becomeLeader (cur : list RaftNode) (u : RaftNode) : RaftNode :=
  let u1 := set_heartbeatTimer 0 (set_state LEADER u) in
  foldl (λ (acc : RaftNode) (n : RaftNode),
           set_matchIndex (<[id n := 0]> (matchIndex acc))
             (set_nextIndex (<[id n := llen (log acc)]> (nextIndex acc)) acc))
        u1 cur.

(** The working collections of step 2. *)
Record Work := mkWork {
  currentNodes : list RaftNode;
  currentVotes : gmap Z (gset Z);
  survivingPackets : list Packet
}.

(** [size + 1 > NODE_COUNT / 2] over the reals. *)
Definition hasMajority (s : gset Z) : bool :=
  NODE_COUNT <? 2 * (Z.of_nat (size s) + 1).

(** Step 2 of [tick] for one arrived packet. *)
Definition deliver (w : Work) (packet : Packet) : option Work :=
  match list_find (λ n : RaftNode, id n = to packet) (currentNodes w) with
  | None => Some w
  | Some (i, targetNode) =>
      if bool_decide (state targetNode = CRASHED) then Some w
      else
        match payload packet with
        | RequestVote t c li lt =>
            let '(updatedNode, replyPacket) :=
              processRequestVote targetNode t c li lt in
            Some (mkWork (<[i := updatedNode]> (currentNodes w))
                    (currentVotes w)
                    (survivingPackets w ++ [replyPacket]))
        | VoteResponse t g =>
            let updatedNode := processVoteResponse targetNode t g in
            let nodes1 := <[i := updatedNode]> (currentNodes w) in
            if bool_decide (state updatedNode = CANDIDATE)
               && (t =? currentTerm updatedNode) && g
            then
              let s := default ∅ (currentVotes w !! id updatedNode)
                       ∪ {[ from packet ]} in
              if hasMajority s
              then Some (mkWork (<[i := becomeLeader nodes1 updatedNode]> nodes1)
                           (<[id updatedNode := ∅]> (currentVotes w))
                           (survivingPackets w))
              else Some (mkWork nodes1
                           (<[id updatedNode := s]> (currentVotes w))
                           (survivingPackets w))
            else Some (mkWork nodes1 (currentVotes w) (survivingPackets w))
        | AppendEntries t l pi pt es lc =>
            match processAppendEntries targetNode t l pi pt es lc with
            | None => None
            | Some (updatedNode, replyPacket) =>
                Some (mkWork (<[i := updatedNode]> (currentNodes w))
                        (currentVotes w)
                        (survivingPackets w ++ [replyPacket]))
            end
        | AppendResponse t s mi =>
            Some (mkWork
                    (<[i := processAppendResponse targetNode (from packet) t s mi]>
                       (currentNodes w))
                    (currentVotes w) (survivingPackets w))
        end
  end.

Fixpoint deliverAll (w : Work) (arrived : list Packet) : option Work :=
  match arrived with
  | [] => Some w
  | p :: ps =>
      match deliver w p with
      | None => None
      | Some w' => deliverAll w' ps
      end
  end.

(** The [AppendEntries] packet a leader builds for one peer. *)
Definition heartbeatPacket (leader : RaftNode) (peer : Z)
    (playbackSpeed : Q) : Packet :=
  let prevLogIndex := orOne (nextIndex leader !! peer) - 1 in
  let prevLogTerm :=
    if (0 <=? prevLogIndex) && (prevLogIndex <? llen (log leader))
    then match log_at (log leader) prevLogIndex with
         | Some e => term e
         | None => -1
         end
    else -1 in
  let entries := slice_from (log leader) (prevLogIndex + 1) in
  mkPacket (id leader) peer
    (AppendEntries (currentTerm leader) (id leader) prevLogIndex prevLogTerm
       entries (commitIndex leader))
    0 (PACKET_SPEED * playbackSpeed)%Q.

Definition heartbeats (leader : RaftNode) (cur : list RaftNode)
    (playbackSpeed : Q) : list Packet :=
  (λ peer : RaftNode, heartbeatPacket leader (id peer) playbackSpeed)
  <$> filter (λ peer : RaftNode, ¬ (id peer = id leader ∨ state peer = CRASHED))
        cur.

(** Step 3 of [tick] for one node: the election timer, then the heartbeat
    timer.  [cur] is the node array before the [map]; [timeout] is the
    result of [getRandomTimeout] should this node start an election. *)
Definition maintain (cur : list RaftNode) (playbackSpeed : Q) (timeout : Z)
    (node : RaftNode) (votes : gmap Z (gset Z)) (pkts : list Packet)
    : RaftNode * gmap Z (gset Z) * list Packet :=
  if bool_decide (state node = CRASHED) then (node, votes, pkts)
  else
    let '(u, votes, pkts) :=
      if bool_decide (state node ≠ LEADER)
      then
        let u := set_electionTimeout (electionTimeout node - 1) node in
        if electionTimeout u <=? 0
        then
          let u := set_votedFor (Some (id u))
                     (set_currentTerm (currentTerm u + 1)
                        (set_state CANDIDATE u)) in
          let u := set_electionTimeout timeout
                     (set_currentTimeoutDuration timeout u) in
          let votePackets :=
            broadcast u
              (RequestVote (currentTerm u) (id u) (llen (log u) - 1)
                 (lastLogTermOf (log u)))
              cur playbackSpeed in
          (u, <[id u := ∅]> votes, pkts ++ votePackets)
        else (u, votes, pkts)
      else (node, votes, pkts) in
    if bool_decide (state u = LEADER)
    then
      let u := set_heartbeatTimer (heartbeatTimer u - 1) u in
      if heartbeatTimer u <=? 0
      then
        let u := set_heartbeatTimer HEARTBEAT_INTERVAL u in
        (u, votes, pkts ++ heartbeats u cur playbackSpeed)
      else (u, votes, pkts)
    else (u, votes, pkts).

(** The [map] of step 3; [k] is the position of the head of [todo] in the
    node array, and [draw k] the timeout drawn for that position. *)
Fixpoint maintainAll (cur : list RaftNode) (playbackSpeed : Q)
    (draw : nat → Z) (k : nat) (todo : list RaftNode)
    (votes : gmap Z (gset Z)) (pkts : list Packet)
    : list RaftNode * gmap Z (gset Z) * list Packet :=
  match todo with
  | [] => ([], votes, pkts)
  | node :: rest =>
      let '(u, votes1, pkts1) :=
        maintain cur playbackSpeed (draw k) node votes pkts in
      let '(us, votes2, pkts2) :=
        maintainAll cur playbackSpeed draw (S k) rest votes1 pkts1 in
      (u :: us, votes2, pkts2)
  end.

(** [tick]: one step of the simulation.  [None] when a handler raises. *)
Definition tick (paused : bool) (playbackSpeed : Q) (draw : nat → Z)
    (e : Engine) : option Engine :=
  if paused then Some e
  else
    let moved := advance <$> packets e in
    let surviving := filter (λ p, hasArrived p = false) moved in
    let arrived := filter (λ p, hasArrived p = true) moved in
    match deliverAll (mkWork (nodes e) (votesReceived e) surviving)
            arrived with
    | None => None
    | Some w =>
        let '(ns, votes, pkts) :=
          maintainAll (currentNodes w) playbackSpeed draw 0 (currentNodes w)
            (currentVotes w) (survivingPackets w) in
        Some (mkEngine ns pkts votes)
    end.

(** ** Control operations *)

(** [toggleNodeState]: the first node with the given id is crashed, or
    revived with a fresh election timeout ([timeout] is the draw). *)
Definition toggleNode (timeout : Z) (node : RaftNode) : RaftNode :=
  if bool_decide (state node = CRASHED)
  then set_electionTimeout timeout (set_state FOLLOWER node)
  else set_state CRASHED node.

Definition toggleNodeState (i : Z) (timeout : Z) (e : Engine) : Engine :=
  match list_find (λ n : RaftNode, id n = i) (nodes e) with
  | Some (k, node) =>
      mkEngine (<[k := toggleNode timeout node]> (nodes e)) (packets e)
        (votesReceived e)
  | None => e
  end.

(** [proposeLog]: the first leader appends an entry of its own term;
    [cmd] is the command picked at random.  Without a leader the state is
    unchanged (the source raises an alert). *)
Definition proposeLog (cmd : string) (e : Engine) : Engine :=
  match list_find (λ n : RaftNode, state n = LEADER) (nodes e) with
  | Some (k, leader) =>
      mkEngine
        (<[k := set_log (log leader ++ [mkLogEntry (currentTerm leader) cmd])
                  leader]> (nodes e))
        (packets e) (votesReceived e)
  | None => e
  end.

(** The cluster built by the initialisation effect: nodes [0 .. 4], each
    with two independent timeout draws. *)
Definition initialNodes (draws : list (Z * Z)) : list RaftNode :=
  imap (λ (i : nat) (d : Z * Z), createNode (Z.of_nat i) d.1 d.2) draws.

Definition initialEngine (draws : list (Z * Z)) : Engine :=
  mkEngine (initialNodes draws) []
    (list_to_map ((λ n : RaftNode, (id n, (∅ : gset Z))) <$> initialNodes draws)).

(** ** Reference definitions used in the statements *)

(** The entry-merging rule of the AppendEntries handler as the design
    document words it: for the supplied entries in order, at position
    [pos], [pos + 1], ...: an entry whose position the log does not have
    is appended (and so is every later one); an entry whose position holds
    another term truncates the log from that position on and is appended
    with every later one; an entry whose position holds the same term is
    already present. *)
Fixpoint specMerge (lg : list LogEntry) (pos : nat) (es : list LogEntry)
    : list LogEntry :=
  match es with
  | [] => lg
  | e :: es' =>
      match lg !! pos with
      | None => lg ++ e :: es'
      | Some x =>
          if decide (term x = term e) then specMerge lg (S pos) es'
          else take pos lg ++ e :: es'
      end
  end.

(** The fields of a node other than [state] and [electionTimeout]. *)
Definition sameDurableFields (n m : RaftNode) : Prop :=
  id m = id n
  ∧ currentTerm m = currentTerm n
  ∧ votedFor m = votedFor n
  ∧ log m = log n
  ∧ commitIndex m = commitIndex n
  ∧ nextIndex m = nextIndex n
  ∧ matchIndex m = matchIndex n
  ∧ heartbeatTimer m = heartbeatTimer n
  ∧ currentTimeoutDuration m = currentTimeoutDuration n.

(** ** Sample values *)

(** A follower in term 3 whose log holds terms 1, 1, 2. *)
Definition sampleFollower : RaftNode :=
  mkRaftNode 1 FOLLOWER 3 None
    [mkLogEntry 1 "SET X=5"; mkLogEntry 1 "ADD USER"; mkLogEntry 2 "DEL DB"]
    0 100 200 ∅ ∅ 0.

(** Entries of terms 1 and 3 for positions 1 and 2. *)
Definition sampleEntries : list LogEntry :=
  [mkLogEntry 1 "ADD USER"; mkLogEntry 3 "INC Y"].

(** A leader in term 1 with two entries that has backed [nextIndex] of
    peer 1 down to 0. *)
Definition sampleLeader : RaftNode :=
  mkRaftNode 0 LEADER 1 (Some 0)
    [mkLogEntry 1 "SET X=5"; mkLogEntry 1 "ADD USER"]
    (-1) 100 200 (<[1 := 0]> ∅) (<[1 := 0]> ∅) 0.

(** A one-node cluster whose node has the shortest timeout duration. *)
Definition sampleCluster : Engine :=
  mkEngine [mkRaftNode 0 FOLLOWER 0 None [] (-1) 150 150 ∅ ∅ 0] [] ∅.

(** ** Reachable states *)

(** The states the running application can be in: the initial cluster of
    [NODE_COUNT] nodes, followed by ticks (with any pause flag, playback
    multiplier and timeout draws) and the two control operations. *)
Inductive reachable : Engine → Prop :=
| reachable_init (draws : list (Z * Z)) :
    length draws = Z.to_nat NODE_COUNT →
    reachable (initialEngine draws)
| reachable_tick (e e' : Engine) (paused : bool) (playbackSpeed : Q)
    (draw : nat → Z) :
    reachable e → tick paused playbackSpeed draw e = Some e' → reachable e'
| reachable_toggle (e : Engine) (i timeout : Z) :
    reachable e → reachable (toggleNodeState i timeout e)
| reachable_propose (e : Engine) (cmd : string) :
    reachable e → reachable (proposeLog cmd e).

(** The working collections inside a tick started in a reachable state:
    [midTick w todo] holds when [w] is the state of step 2 with the arrived
    packets [todo] still to deliver. *)
Inductive midTick : Work → list Packet → Prop :=
| midTick_start (e : Engine) :
    reachable e →
    midTick
      (mkWork (nodes e) (votesReceived e)
         (filter (λ p, hasArrived p = false) (advance <$> packets e)))
      (filter (λ p, hasArrived p = true) (advance <$> packets e))
| midTick_deliver (w w' : Work) (p : Packet) (todo : list Packet) :
    midTick w (p :: todo) → deliver w p = Some w' → midTick w' todo.

(** The ids of the cluster. *)
Definition clusterIds : list Z := [0; 1; 2; 3; 4].

(** What holds of every node of a reachable state: a leader tracks every
    node of the cluster, itself included, its own [matchIndex] entry stays
    at the initial 0, and no tracked index is negative. *)
Definition wfNode (n : RaftNode) : Prop :=
  id n ∈ clusterIds
  ∧ (state n = LEADER → ∀ i, i ∈ clusterIds → is_Some (matchIndex n !! i))
  ∧ (∀ k v, matchIndex n !! k = Some v → k ∈ clusterIds ∧ 0 ≤ v)
  ∧ (∀ v, matchIndex n !! id n = Some v → v = 0)
  ∧ (∀ k v, nextIndex n !! k = Some v → 0 ≤ v).

(** What holds of every packet in flight. *)
Definition wfPacket (p : Packet) : Prop :=
  match payload p with
  | AppendEntries _ l pi _ _ _ =>
      0 ≤ pi ∧ l = from p ∧ from p ≠ to p ∧ from p ∈ clusterIds
  | AppendResponse _ s mi =>
      from p ≠ to p ∧ from p ∈ clusterIds ∧ (s = true → 0 ≤ mi)
  | _ => True
  end.

Definition wfCluster (ns : list RaftNode) : Prop :=
  id <$> ns = clusterIds ∧ Forall wfNode ns.

Definition wfEngine (e : Engine) : Prop :=
  wfCluster (nodes e) ∧ Forall wfPacket (packets e).

Definition wfWork (w : Work) : Prop :=
  wfCluster (currentNodes w) ∧ Forall wfPacket (survivingPackets w).

(** The [matchIndex] values a leader holds for its peers, the other nodes
    of the cluster. *)
Definition peerMatchIndexes (cluster : list RaftNode) (leader : RaftNode)
    : list Z :=
  omap (λ p : RaftNode, matchIndex leader !! id p)
    (filter (λ p : RaftNode, id p ≠ id leader) cluster).

(** The commit candidate as the design words it: the value of rank
    [floor (N / 2)] in the descending sort of the leader's own last log
    index together with the [matchIndex] of every peer. *)
Definition specCommitCandidate (cluster : list RaftNode) (leader : RaftNode)
    : option Z :=
  sortDesc ((llen (log leader) - 1) :: peerMatchIndexes cluster leader)
    !! Z.to_nat (NODE_COUNT / 2).

(** A handler step that leaves the leader bookkeeping alone and does not
    make the node a leader. *)
Definition keepsLeaderMaps (n n' : RaftNode) : Prop :=
  id n' = id n
  ∧ matchIndex n' = matchIndex n
  ∧ nextIndex n' = nextIndex n
  ∧ (state n' = LEADER → state n = LEADER).

(** ** Scripted runs *)

(** A session with the application: ticks at a given playback multiplier
    (every timeout drawn during them being [timeout]), crash toggles and
    proposals. *)
Inductive Action :=
| Ticks (count : nat) (playbackSpeed : Q) (timeout : Z)
| Toggle (i : Z) (timeout : Z)
| Propose (cmd : string).

Fixpoint runTicks (count : nat) (playbackSpeed : Q) (timeout : Z)
    (e : Engine) : option Engine :=
  match count with
  | O => Some e
  | S count' =>
      match tick false playbackSpeed (λ _, timeout) e with
      | Some e' => runTicks count' playbackSpeed timeout e'
      | None => None
      end
  end.

Definition runAction (a : Action) (e : Engine) : option Engine :=
  match a with
  | Ticks count playbackSpeed timeout => runTicks count playbackSpeed timeout e
  | Toggle i timeout => Some (toggleNodeState i timeout e)
  | Propose cmd => Some (proposeLog cmd e)
  end.

Fixpoint runScript (script : list Action) (e : Engine) : option Engine :=
  match script with
  | [] => Some e
  | a :: script' =>
      match runAction a e with
      | Some e' => runScript script' e'
      | None => None
      end
  end.

(** The initial cluster in which node 0 times out first. *)
Definition sampleInitial : Engine :=
  initialEngine [(150, 300); (300, 300); (300, 300); (300, 300); (300, 300)].

(** Node 1 is down while node 0 wins term 1 and takes one entry; node 0
    is then crashed and node 1, revived in term 0, wins term 1 as well and
    takes an entry of its own; node 0 comes back and acknowledges node 1's
    heartbeat.  The script stops one tick before that acknowledgement is
    delivered. *)
Definition sampleScript : list Action :=
  [Toggle 1 300; Ticks 351 1 300; Propose "SET X=5"; Toggle 0 300;
   Toggle 1 150; Ticks 284 1 300; Propose "ADD USER"; Toggle 0 300;
   Ticks 183 1 300].

(** The engine at the end of [sampleScript], and the working collections
    of the next tick as its first arrived packet (node 0's successful
    AppendResponse to the leader, node 1) is about to be delivered. *)
Definition sampleEngine : Engine :=
  Eval vm_compute in
    default sampleInitial (runScript sampleScript sampleInitial).

Definition sampleWork : Work :=
  Eval vm_compute in
    mkWork (nodes sampleEngine) (votesReceived sampleEngine)
      (filter (λ p, hasArrived p = false) (advance <$> packets sampleEngine)).

Definition sampleArrived : list Packet :=
  Eval vm_compute in
    filter (λ p, hasArrived p = true) (advance <$> packets sampleEngine).

Definition sampleAck : Packet :=
  Eval vm_compute in
    default (mkPacket 0 0 (VoteResponse 0 false) 0 0) (head sampleArrived).

Definition sampleWorkLeader : RaftNode :=
  Eval vm_compute in
    default sampleLeader (currentNodes sampleWork !! 1%nat).

(** ** Election safety: reachability by ticks and the invariant *)

(** The states reachable from the initial cluster by ticks alone. *)
Inductive tickReachable : Engine → Prop :=
| tickReachable_init (draws : list (Z * Z)) :
    length draws = Z.to_nat NODE_COUNT →
    tickReachable (initialEngine draws)
| tickReachable_tick (e e' : Engine) (paused : bool) (playbackSpeed : Q)
    (draw : nat → Z) :
    tickReachable e → tick paused playbackSpeed draw e = Some e' →
    tickReachable e'.

(** A history variable: [fv i T] is the candidate that node [i] voted for
    first in term [T] (itself, when it started the election of term [T]).
    It is written once per node and term. *)
Definition FirstVotes := Z → Z → option Z.

Definition recordVote (fv : FirstVotes) (i T c : Z) : FirstVotes :=
  λ i' T', if decide (i' = i ∧ T' = T)
           then match fv i T with None => Some c | Some x => Some x end
           else fv i' T'.

(** The history variable only grows. *)
Definition fvLe (fv fv' : FirstVotes) : Prop :=
  ∀ i T c, fv i T = Some c → fv' i T = Some c.

(** Candidate [c] holds first votes of term [T] from itself and two other
    nodes. *)
Definition quorum (fv : FirstVotes) (c T : Z) : Prop :=
  fv c T = Some c
  ∧ ∃ a b, a ≠ b ∧ a ≠ c ∧ b ≠ c ∧ fv a T = Some c ∧ fv b T = Some c.

(** The link between a node and the history variable. *)
Definition nodeGhost (fv : FirstVotes) (n : RaftNode) : Prop :=
  (∀ T, currentTerm n < T → fv (id n) T = None)
  ∧ (state n = CANDIDATE → fv (id n) (currentTerm n) = Some (id n))
  ∧ (state n = LEADER → quorum fv (id n) (currentTerm n)).

Definition baseInv (fv : FirstVotes) (ns : list RaftNode) : Prop :=
  id <$> ns = clusterIds
  ∧ Forall (λ n, state n ≠ CRASHED) ns
  ∧ Forall (nodeGhost fv) ns
  ∧ (∀ i T c, fv i T = Some c → i ∈ clusterIds).

(** Node [n] has learnt that term [T] has a leader, or has moved past it:
    it is at term [T] or later and is not a candidate of term [T].  Such a
    node never becomes a candidate of term [T]. *)
Definition notified (T : Z) (n : RaftNode) : Prop :=
  T ≤ currentTerm n ∧ ¬ (state n = CANDIDATE ∧ currentTerm n = T).

Definition isAE (T : Z) (q : Packet) : Prop :=
  match payload q with
  | AppendEntries t _ _ _ _ _ => t = T
  | _ => False
  end.

Definition isGrant (T : Z) (p : Packet) : Prop :=
  payload p = VoteResponse T true.

(** A RequestVote never asks its receiver to vote for itself. *)
Definition requestOk (p : Packet) : Prop :=
  match payload p with
  | RequestVote _ c _ _ => c ≠ to p
  | _ => True
  end.

(** While term [T] is open, a node of term [T] has voted as the history
    variable says. *)
Definition voteEq (fv : FirstVotes) (T : Z) (n : RaftNode) : Prop :=
  currentTerm n = T → votedFor n = fv (id n) T.

(** The tracker of a candidate of term [T] holds first votes only. *)
Definition trackerOk (fv : FirstVotes) (vs : gmap Z (gset Z)) (T : Z)
    (n : RaftNode) : Prop :=
  state n = CANDIDATE → currentTerm n = T →
  ∀ v, v ∈ default ∅ (vs !! id n) → fv v T = Some (id n) ∧ v ≠ id n.

(** A granted VoteResponse of term [T] reports a first vote. *)
Definition voteOk (fv : FirstVotes) (T : Z) (p : Packet) : Prop :=
  isGrant T p → fv (from p) T = Some (to p) ∧ from p ≠ to p.

(** Node [n] is notified of term [T] or a heartbeat of term [T] for it is
    among [arr]. *)
Definition covered (T : Z) (arr : list Packet) (n : RaftNode) : Prop :=
  notified T n ∨ ∃ q, q ∈ arr ∧ isAE T q ∧ to q = id n.

(** The same with a heartbeat that travels in step with [q]. *)
Definition coveredWith (T : Z) (sv : list Packet) (q : Packet)
    (n : RaftNode) : Prop :=
  notified T n
  ∨ ∃ q', q' ∈ sv ∧ isAE T q' ∧ to q' = id n
          ∧ progress q' = progress q ∧ speed q' = speed q.

(** The three phases of a term inside step 2 of a tick, [arr] being the
    arrived packets still to deliver and [sv] the surviving ones. *)
Definition closedPhase (ns : list RaftNode) (T : Z) : Prop :=
  Forall (notified T) ns.

Definition closingPhase (fv : FirstVotes) (ns : list RaftNode)
    (vs : gmap Z (gset Z)) (arr : list Packet) (T : Z) : Prop :=
  Forall (covered T arr) ns
  ∧ Forall (trackerOk fv vs T) ns
  ∧ Forall (voteOk fv T) arr.

Definition openPhase (fv : FirstVotes) (ns : list RaftNode)
    (vs : gmap Z (gset Z)) (arr sv : list Packet) (T : Z) : Prop :=
  Forall (voteEq fv T) ns
  ∧ Forall (trackerOk fv vs T) ns
  ∧ Forall (voteOk fv T) (arr ++ sv)
  ∧ ((∃ q, q ∈ arr ∧ isAE T q) → Forall (covered T arr) ns)
  ∧ Forall (λ q, isAE T q → Forall (coveredWith T sv q) ns) sv.

Definition electionInv (fv : FirstVotes) (ns : list RaftNode)
    (vs : gmap Z (gset Z)) (arr sv : list Packet) : Prop :=
  baseInv fv ns
  ∧ Forall requestOk (arr ++ sv)
  ∧ ∀ T, closedPhase ns T ∨ closingPhase fv ns vs arr T
         ∨ openPhase fv ns vs arr sv T.

(** The invariant of the engine between ticks. *)
Definition engineInv (e : Engine) : Prop :=
  ∃ fv, electionInv fv (nodes e) (votesReceived e) [] (packets e).

(** A packet that no handler reacts to beyond finding its target; it
    stands for "no delivery" when a timer step is described as a step of
    one node. *)
Definition timerPacket (i : Z) : Packet :=
  mkPacket i i (VoteResponse 0 false) 0 0.

(** The initial cluster after 284 ticks: node 0 has timed out first and
    has just won the election of term 1. *)
Definition sampleElected : Engine :=
  Eval vm_compute in default sampleInitial (runTicks 284 1 300 sampleInitial).

Definition sampleElectedLeader : RaftNode :=
  Eval vm_compute in default sampleLeader (nodes sampleElected !! 0%nat).

(** ** Executions within the parameter ranges of the application

    The playback slider ranges over 0.5 .. 5, [getRandomTimeout] over
    [MIN_ELECTION_TIMEOUT .. MAX_ELECTION_TIMEOUT], and [proposeLog] draws
    its command from a fixed list. *)
Definition timeoutInRange (t : Z) : bool :=
  (MIN_ELECTION_TIMEOUT <=? t) && (t <=? MAX_ELECTION_TIMEOUT).

Definition speedInRange (playbackSpeed : Q) : bool :=
  Qle_bool (1 # 2) playbackSpeed && Qle_bool playbackSpeed 5.

(** The commands [proposeLog] picks from. *)
Definition commands : list string :=
  ["SET X=5"; "ADD USER"; "DEL DB"; "INC Y"; "MOV A->B"]%string.

Definition commandInRange (cmd : string) : bool :=
  existsb (String.eqb cmd) commands.

Definition actionInRange (a : Action) : bool :=
  match a with
  | Ticks _ playbackSpeed timeout =>
      speedInRange playbackSpeed && timeoutInRange timeout
  | Toggle _ timeout => timeoutInRange timeout
  | Propose cmd => commandInRange cmd
  end.

Inductive reachableInRange : Engine → Prop :=
| inRange_init (draws : list (Z * Z)) :
    length draws = Z.to_nat NODE_COUNT →
    forallb (λ d, timeoutInRange d.1 && timeoutInRange d.2) draws = true →
    reachableInRange (initialEngine draws)
| inRange_tick (e e' : Engine) (paused : bool) (playbackSpeed : Q)
    (draw : nat → Z) :
    reachableInRange e →
    speedInRange playbackSpeed = true →
    (∀ k, timeoutInRange (draw k) = true) →
    tick paused playbackSpeed draw e = Some e' → reachableInRange e'
| inRange_toggle (e : Engine) (i timeout : Z) :
    reachableInRange e → timeoutInRange timeout = true →
    reachableInRange (toggleNodeState i timeout e)
| inRange_propose (e : Engine) (cmd : string) :
    reachableInRange e → commandInRange cmd = true →
    reachableInRange (proposeLog cmd e).

(** An execution in which a follower's [commitIndex] goes down.

    Nodes 3 and 4 never hold an entry and only vote.  Nodes 0, 1 and 2
    each lead term 1 in turn (the previous leader is crashed, and its
    heartbeat has cleared the voters' [votedFor]); node 0 takes one entry
    and nodes 1 and 2 two entries each.  Nodes 1 and 2 then lead term 2 in
    turn and take two more entries each, and finally node 0 wins term 2. *)
Definition commitSetup : list Action :=
  [Toggle 1 300; Toggle 2 300;
   Ticks 352 1 300; Propose "SET X=5"; Toggle 0 300;
   Toggle 1 150; Ticks 352 1 300;
   Propose "ADD USER"; Propose "DEL DB"; Toggle 1 300;
   Toggle 2 150; Ticks 352 1 300;
   Propose "INC Y"; Propose "MOV A->B"; Toggle 2 300;
   Toggle 1 150; Ticks 352 1 300;
   Propose "SET X=5"; Propose "ADD USER"; Toggle 1 300;
   Toggle 2 150; Ticks 352 1 300;
   Propose "DEL DB"; Propose "INC Y"; Toggle 2 300;
   Toggle 0 150; Ticks 283 1 300; Toggle 1 300; Toggle 2 300; Ticks 1 1 300].

(** Node 0 leads term 2 with log terms [1] against [1;1;2;2] on nodes 1
    and 2.  Its first two heartbeats carry no entry.  After one proposal
    the third heartbeat, sent at playback speed 0.5 while node 2 is down,
    carries the entry of index 1 to node 1 and stays in flight for 134
    ticks.  Meanwhile the acknowledgements of the first heartbeats report
    [matchIndex = 3], node 0 takes two more entries and commits index 2
    and then index 3; its next heartbeats hand [leaderCommit = 2] to
    nodes 1 and 2 and [leaderCommit = 3] to node 1 only.  Node 0 is then
    crashed, and the slow heartbeat cuts node 1's log down to two
    entries. *)
Definition commitStale : list Action :=
  [Ticks 50 1 300; Ticks 49 1 300; Propose "SET X=5";
   Toggle 2 300; Ticks 1 (1 # 2) 300; Toggle 2 300;
   Propose "ADD USER"; Ticks 34 1 300;
   Propose "DEL DB"; Ticks 15 1 300; Ticks 1 5 300; Ticks 34 1 300;
   Ticks 15 1 300; Toggle 2 300; Ticks 1 5 300; Toggle 0 300;
   Ticks 34 1 300].

(** Node 1, with two entries and [commitIndex = 3], wins term 3 on the
    votes of nodes 3 and 4.  Node 2 rejects its first heartbeats; the
    script stops one tick before the heartbeat with [prevLogIndex = 0]
    reaches node 2. *)
Definition commitTakeover : list Action :=
  [Toggle 1 300; Toggle 1 150; Ticks 283 1 300; Toggle 2 300;
   Ticks 1 1 300; Ticks 216 1 300].

Definition commitScript : list Action :=
  commitSetup ++ commitStale ++ commitTakeover.

Definition commitBefore : Engine :=
  Eval vm_compute in
    default sampleInitial (runScript commitScript sampleInitial).

Definition commitAfter : Engine :=
  Eval vm_compute in
    default sampleInitial (tick false 1 (λ _, 300) commitBefore).

(** ** Steps of a session and per-node relations *)

(** One operation of the application: a tick (with any inputs) or one of
    the two control operations. *)
Inductive engineStep : Engine → Engine → Prop :=
| step_tick (paused : bool) (playbackSpeed : Q) (draw : nat → Z)
    (e e' : Engine) :
    tick paused playbackSpeed draw e = Some e' → engineStep e e'
| step_toggle (i timeout : Z) (e : Engine) :
    engineStep e (toggleNodeState i timeout e)
| step_propose (cmd : string) (e : Engine) :
    engineStep e (proposeLog cmd e).

(** The [term] field every payload carries. *)
Definition payloadTerm (pl : Payload) : Z :=
  match pl with
  | RequestVote t _ _ _ => t
  | VoteResponse t _ => t
  | AppendEntries t _ _ _ _ _ => t
  | AppendResponse t _ _ => t
  end.

(** The same node, in a term that is not earlier. *)
Definition laterTerm (n n' : RaftNode) : Prop :=
  id n' = id n ∧ currentTerm n ≤ currentTerm n'.


(** Node 2 and the crashed node 0 in the state [commitBefore]. *)
Definition commitFollower : RaftNode :=
  Eval vm_compute in default sampleFollower (nodes commitBefore !! 2%nat).


(** A leader of term 1 that is delivered a rejection of term 2. *)
Definition sampleLeaderWork : Work := mkWork [sampleLeader] ∅ [].

Definition sampleRejection : Packet :=
  mkPacket 1 0 (AppendResponse 2 false (-1)) 100 PACKET_SPEED.

Definition sampleSteppedDown : Work :=
  Eval vm_compute in
    default sampleLeaderWork (deliver sampleLeaderWork sampleRejection).

(** A candidate of term 2 (node 0, no entry) with one vote recorded, from
    node 3, in a cluster whose other nodes are followers. *)
Definition sampleCandidate : RaftNode :=
  mkRaftNode 0 CANDIDATE 2 (Some 0) [] (-1) 120 200 ∅ ∅ 0.

Definition sampleElection : Work :=
  mkWork
    (sampleCandidate
     :: ((λ i : Z, mkRaftNode i FOLLOWER 2 (Some 0) [] (-1) 200 200 ∅ ∅ 0)
         <$> [1; 2; 3; 4]))
    (<[0 := {[3]}]> ∅) [].

Definition sampleGrant (voter : Z) : Packet :=
  mkPacket voter 0 (VoteResponse 2 true) 100 PACKET_SPEED.

(** The AppendEntries about to reach node 2 in [commitBefore], and node 3,
    which has never held an entry. *)
Definition commitPacket : Packet :=
  Eval vm_compute in default sampleRejection (packets commitBefore !! 0%nat).

Definition commitVoter : RaftNode :=
  Eval vm_compute in default sampleFollower (nodes commitBefore !! 3%nat).

(** ** Terms in logs and packets *)

(** No entry of the log is of a later term than the node's own. *)
Definition logBounded (n : RaftNode) : Prop :=
  Forall (λ x : LogEntry, term x ≤ currentTerm n) (log n).

(** No entry carried by an AppendEntries is of a later term than the
    packet's. *)
Definition entriesBounded (p : Packet) : Prop :=
  match payload p with
  | AppendEntries t _ _ _ es _ => Forall (λ x : LogEntry, term x ≤ t) es
  | _ => True
  end.

(** ** The log column of a node in the display

    [node.log.slice(-5).map((entry, idx) => ...)] of the component: each
    row is an entry with the flag [isCommitted], computed from
    [realIndex = node.log.length - 5 + idx]. *)
Definition logRows (node : RaftNode) : list (LogEntry * bool) :=
  imap (λ (idx : nat) (entry : LogEntry),
          (entry,
           bool_decide (llen (log node) - 5 + Z.of_nat idx
                        ≤ commitIndex node)))
    (slice_from (log node) (-5)).

(** A series of RequestVote payloads [(term, candidateId, lastLogIndex,
    lastLogTerm)] handled one after the other by the same node, with the
    replies in order. *)
Definition requestVotes (n : RaftNode) (rs : list (Z * Z * Z * Z))
    : RaftNode * list Packet :=
  foldl (λ (acc : RaftNode * list Packet) (r : Z * Z * Z * Z),
           let res := processRequestVote acc.1 r.1.1.1 r.1.1.2 r.1.2 r.2 in
           (res.1, acc.2 ++ [res.2]))
        (n, []) rs.

(** Whether a node is down is the same before and after. *)
Definition sameLiveness (n n' : RaftNode) : Prop :=
  state n' = CRASHED ↔ state n = CRASHED.

(** The [prevLogIndex] field of an AppendEntries payload. *)
Definition payloadPrev (pl : Payload) : option Z :=
  match pl with
  | AppendEntries _ _ pi _ _ _ => Some pi
  | _ => None
  end.

(** A node with two entries of which only the first is committed. *)
Definition sampleShortLog : RaftNode :=
  mkRaftNode 2 FOLLOWER 1 None
    [mkLogEntry 1 "SET X=5"; mkLogEntry 1 "ADD USER"] 0 100 200 ∅ ∅ 0.

Definition commitLeader : RaftNode :=
  Eval vm_compute in default sampleFollower (nodes commitBefore !! 1%nat).

(** Terms do not go down from one entry to the next. *)
Definition termsSorted (l : list LogEntry) : Prop :=
  ∀ i x y, l !! i = Some x → l !! S i = Some y → term x ≤ term y.

(** The entries of an AppendEntries are in term order and start at or
    after [prevLogTerm]. *)
Definition entriesSorted (p : Packet) : Prop :=
  match payload p with
  | AppendEntries _ _ _ pt es _ =>
      termsSorted es ∧ ∀ e, es !! 0%nat = Some e → pt ≤ term e
  | _ => True
  end.

Definition logSorted (n : RaftNode) : Prop := termsSorted (log n).

(** A packet goes from one node of the cluster to another, and a request
    names its sender. *)
Definition packetEndpoints (p : Packet) : Prop :=
  from p ≠ to p ∧ from p ∈ clusterIds ∧ to p ∈ clusterIds
  ∧ match payload p with
    | RequestVote _ c _ _ => c = from p
    | AppendEntries _ l _ _ _ _ => l = from p
    | _ => True
    end.

(** [l'] is [l] followed by packets that have not moved yet. *)
Definition extendsWithNew (l l' : list Packet) : Prop :=
  ∃ new, l' = l ++ new ∧ Forall (λ q : Packet, progress q = 0%Q) new.

(** ** The term shown for the whole cluster

    [Math.max(...nodes.map(n => n.currentTerm))] of the display footer
    and of the cluster summary; [None] is the [-Infinity] of an empty
    array. *)
Definition termMax (ns : list RaftNode) : option Z :=
  match ns with
  | [] => None
  | n :: rest => Some (foldl Z.max (currentTerm n) (currentTerm <$> rest))
  end.

(** The entries at positions 1 and 2 of node 2's log in [commitBefore]. *)
Definition commitEntry1 : LogEntry :=
  Eval vm_compute in
    default (mkLogEntry 0 "SET X=5") (log commitFollower !! 1%nat).

Definition commitEntry2 : LogEntry :=
  Eval vm_compute in
    default (mkLogEntry 0 "SET X=5") (log commitFollower !! 2%nat).

(** ** Runs of ticks and the packets of the application *)

(** A reply on its way to the leader in [commitBefore]. *)
Definition commitReply : Packet :=
  Eval vm_compute in
    default (mkPacket 0 0 (VoteResponse 0 false) 0 0) (packets commitBefore !! 3%nat).


(** [tickRun k e e']: [k] unpaused ticks, with any playback multipliers
    and draws, lead from [e] to [e']. *)
Inductive tickRun : nat → Engine → Engine → Prop :=
| tickRun_done (e : Engine) : tickRun 0 e e
| tickRun_step (k : nat) (playbackSpeed : Q) (draw : nat → Z)
    (e e' e'' : Engine) :
    tick false playbackSpeed draw e = Some e' → tickRun k e' e'' →
    tickRun (S k) e e''.

(** The values a packet of the application has: a speed of
    [PACKET_SPEED = 1.5] times a slider value [j / 2], [1 <= j <= 10], and
    a progress that is a multiple of [1 / 4].  Sums of such values are
    exact in the source's floating-point arithmetic. *)
Definition quarterPacket (p : Packet) : Prop :=
  ∃ a j : Z, 0 ≤ a ∧ 1 ≤ j ≤ 10
    ∧ (progress p == a # 4)%Q ∧ (speed p == (3 * j) # 4)%Q.

(** A state in which node 2, whose log holds two entries, is about to time
    out: the node is crashed and revived with an election timeout of 1. *)
Definition electionBefore : Engine :=
  Eval vm_compute in toggleNodeState 2 1 (toggleNodeState 2 1 commitAfter).

Definition electionNode : RaftNode :=
  Eval vm_compute in default sampleFollower (nodes electionBefore !! 2%nat).

Definition electionPeer : RaftNode :=
  Eval vm_compute in default sampleFollower (nodes electionBefore !! 3%nat).

Definition electionAfter : Engine :=
  Eval vm_compute in
    default electionBefore (tick false 1 (λ _, 300) electionBefore).

(** * Properties *)

(** ** The RequestVote handler *)

(** The last-log term the handler compares with is the term of the last
    entry of the log, and [-1] for an empty log. *)
Lemma lastLogTermOf_last (l : list LogEntry) :
  lastLogTermOf l = from_option term (-1) (last l).
Proof.
  unfold lastLogTermOf, log_at, llen. rewrite last_lookup.
  destruct l as [|e l]; [done|].
  destruct (Z.ltb_spec (Z.of_nat (length (e :: l)) - 1) 0) as [H|_];
    [cbn in H; lia|].
  replace (Z.to_nat (Z.of_nat (length (e :: l)) - 1))
    with (pred (length (e :: l))) by (cbn; lia).
  by destruct ((e :: l) !! pred (length (e :: l))).
Qed.

(** C3.  [processRequestVote] grants the vote exactly when the request's
    term is at least the node's term after adoption, the node's vote after
    adoption is unset or already for the candidate, and the candidate's log
    is at least as up to date as the node's.  It returns one VoteResponse
    from the node to the candidate, carrying the term after adoption and
    the grant flag; a grant records the vote and resets the election timer
    to [currentTimeoutDuration]. *)
Theorem processRequestVote_grant_iff
    (node : RaftNode) (rterm candidateId lastLogIndex lastLogTerm : Z) :
  let res := processRequestVote node rterm candidateId lastLogIndex lastLogTerm in
  let term' := Z.max (currentTerm node) rterm in
  let voted' := if decide (currentTerm node < rterm) then None else votedFor node in
  let myLastLogTerm := from_option term (-1) (last (log node)) in
  let myLastLogIndex := Z.of_nat (length (log node)) - 1 in
  let upToDate :=
    myLastLogTerm < lastLogTerm
    ∨ (lastLogTerm = myLastLogTerm ∧ myLastLogIndex ≤ lastLogIndex) in
  ∃ granted : bool,
    (granted = true ↔
       term' ≤ rterm ∧ (voted' = None ∨ voted' = Some candidateId) ∧ upToDate)
    ∧ res.2 = mkPacket (id node) candidateId (VoteResponse term' granted)
                0 PACKET_SPEED
    ∧ currentTerm res.1 = term'
    ∧ currentTimeoutDuration res.1 = currentTimeoutDuration node
    ∧ (granted = true →
         votedFor res.1 = Some candidateId
         ∧ electionTimeout res.1 = currentTimeoutDuration res.1)
    ∧ (granted = false →
         votedFor res.1 = voted'
         ∧ electionTimeout res.1 = electionTimeout node).
Proof.
  intros res term' voted' myLastLogTerm myLastLogIndex upToDate.
  subst res term' voted' myLastLogTerm myLastLogIndex upToDate.
  rewrite <- lastLogTermOf_last.
  change (Z.of_nat (length (log node))) with (llen (log node)).
  unfold processRequestVote.
  destruct (Z.ltb_spec (currentTerm node) rterm) as [Hlt | Hge];
    cbn [log currentTerm votedFor set_votedFor set_state set_currentTerm].
  - (* a newer term is adopted *)
    rewrite decide_True by lia. rewrite Z.max_r by lia.
    destruct (Z.leb_spec rterm rterm); [|lia].
    destruct (Z.ltb_spec (lastLogTermOf (log node)) lastLogTerm);
      destruct (Z.eqb_spec lastLogTerm (lastLogTermOf (log node)));
      destruct (Z.leb_spec (llen (log node) - 1) lastLogIndex);
      cbn; eexists; (split; [|split; [reflexivity|]]); cbn;
      intuition (try discriminate; try congruence; try lia).
  - (* the node keeps its term *)
    rewrite decide_False by lia. rewrite Z.max_l by lia.
    destruct (Z.leb_spec (currentTerm node) rterm);
      destruct (votedFor node) as [v|] eqn:Hv;
      try destruct (Z.eqb_spec v candidateId);
      destruct (Z.ltb_spec (lastLogTermOf (log node)) lastLogTerm);
      destruct (Z.eqb_spec lastLogTerm (lastLogTermOf (log node)));
      destruct (Z.leb_spec (llen (log node) - 1) lastLogIndex);
      cbn; rewrite ?Hv; eexists; (split; [|split; [reflexivity|]]); cbn;
      intuition (try discriminate; try congruence; try lia).
Qed.

(** ** The AppendEntries handler *)

Section AppendLoop.

Implicit Types (lg es : list LogEntry) (p q : nat).

Lemma llen_app lg es : llen (lg ++ es) = llen lg + llen es.
Proof. unfold llen. rewrite length_app. lia. Qed.

Lemma log_at_nat lg p : log_at lg (Z.of_nat p) = lg !! p.
Proof.
  unfold log_at. destruct (Z.ltb_spec (Z.of_nat p) 0); [lia|].
  by rewrite Nat2Z.id.
Qed.

Lemma slice_to_nat lg p : slice_to lg (Z.of_nat p) = take p lg.
Proof.
  unfold slice_to. destruct (Z.ltb_spec (Z.of_nat p) 0); [lia|].
  by rewrite Nat2Z.id.
Qed.

(** Once the insertion point is at the end of the log, the loop pushes
    every remaining entry. *)
Lemma appendLoop_push lg p es :
  (length lg ≤ p)%nat → appendLoop lg (Z.of_nat p) es = lg ++ es.
Proof.
  revert lg p. induction es as [|e es IH]; intros lg p Hp; cbn.
  - by rewrite app_nil_r.
  - destruct (Z.leb_spec (llen lg) (Z.of_nat p)) as [_|H];
      [|unfold llen in H; lia].
    replace (Z.of_nat p + 1) with (Z.of_nat (S p)) by lia.
    rewrite IH; [by rewrite <- app_assoc|].
    rewrite length_app. cbn. lia.
Qed.

(** The loop of the source computes the merge of the design document. *)
Lemma appendLoop_specMerge lg p es :
  (p ≤ length lg)%nat → appendLoop lg (Z.of_nat p) es = specMerge lg p es.
Proof.
  revert lg p. induction es as [|e es IH]; intros lg p Hp; [done|].
  cbn [appendLoop specMerge].
  replace (Z.of_nat p + 1) with (Z.of_nat (S p)) by lia.
  rewrite log_at_nat, slice_to_nat.
  destruct (lg !! p) as [x|] eqn:Hx.
  - apply lookup_lt_Some in Hx as Hlt.
    destruct (Z.leb_spec (llen lg) (Z.of_nat p)) as [H|_];
      [unfold llen in H; lia|].
    destruct (Z.eqb_spec (term x) (term e)) as [Heq|Hne].
    + rewrite decide_True by done. apply IH. lia.
    + rewrite decide_False by done.
      rewrite appendLoop_push.
      * by rewrite <- app_assoc.
      * rewrite length_app, length_take. cbn. lia.
  - apply lookup_ge_None in Hx.
    destruct (Z.leb_spec (llen lg) (Z.of_nat p)) as [_|H];
      [|unfold llen in H; lia].
    rewrite appendLoop_push; [by rewrite <- app_assoc|].
    rewrite length_app. cbn. lia.
Qed.

(** The merge never touches the log below its starting position. *)
Lemma specMerge_lookup_below lg p es q :
  (p ≤ length lg)%nat → (q < p)%nat → specMerge lg p es !! q = lg !! q.
Proof.
  revert lg p. induction es as [|e es IH]; intros lg p Hp Hq; [done|].
  cbn. destruct (lg !! p) as [x|] eqn:Hx.
  - apply lookup_lt_Some in Hx as Hlt. case_decide.
    + apply IH; lia.
    + rewrite lookup_app_l by (rewrite length_take; lia).
      apply lookup_take_lt. lia.
  - apply lookup_app_l. lia.
Qed.

(** Merging entries that are already in place, one after the other from
    the end of [pre], changes nothing. *)
Lemma specMerge_present pre es :
  specMerge (pre ++ es) (length pre) es = pre ++ es.
Proof.
  revert pre. induction es as [|e es IH]; intros pre; [done|].
  cbn. rewrite list_lookup_middle by done.
  rewrite decide_True by done.
  specialize (IH (pre ++ [e])).
  rewrite <- app_assoc, length_app in IH. cbn in IH.
  by replace (length pre + 1)%nat with (S (length pre)) in IH by lia.
Qed.

Lemma specMerge_idempotent lg p es :
  (p ≤ length lg)%nat → specMerge (specMerge lg p es) p es = specMerge lg p es.
Proof.
  revert lg p. induction es as [|e es IH]; intros lg p Hp; [done|].
  cbn [specMerge]. destruct (lg !! p) as [x|] eqn:Hx.
  - apply lookup_lt_Some in Hx as Hlt. case_decide as Ht.
    + rewrite specMerge_lookup_below by lia. rewrite Hx.
      rewrite decide_True by done. apply IH. lia.
    + assert (Hlen : length (take p lg) = p) by (rewrite length_take; lia).
      rewrite (list_lookup_middle _ _ _ p) by done.
      rewrite decide_True by done.
      pose proof (specMerge_present (take p lg ++ [e]) es) as H.
      rewrite <- app_assoc, length_app, Hlen in H. cbn in H.
      by replace (p + 1)%nat with (S p) in H by lia.
  - apply lookup_ge_None in Hx. assert (p = length lg) as -> by lia.
    rewrite list_lookup_middle by done. rewrite decide_True by done.
    pose proof (specMerge_present (lg ++ [e]) es) as H.
    rewrite <- app_assoc, length_app in H. cbn in H.
    by replace (length lg + 1)%nat with (S (length lg)) in H by lia.
Qed.

End AppendLoop.

Lemma logOk_spec (lg : list LogEntry) (prev prevT : Z) :
  -1 ≤ prev →
  ∃ b : bool,
    logOk lg prev prevT = Some b
    ∧ (b = true ↔
         prev = -1
         ∨ (0 ≤ prev ∧ ∃ x, lg !! Z.to_nat prev = Some x ∧ term x = prevT)).
Proof.
  intros Hprev. unfold logOk, log_at.
  destruct (Z.eqb_spec prev (-1)) as [->|Hne].
  { exists true. split; [done|]. split; auto. }
  destruct (Z.ltb_spec prev 0); [lia|].
  destruct (Z.ltb_spec prev (llen lg)) as [Hlt|Hge].
  - destruct (lg !! Z.to_nat prev) as [x|] eqn:Hx.
    + exists (term x =? prevT). split; [done|].
      destruct (Z.eqb_spec (term x) prevT); split; try done.
      * intros _. right. split; [lia|]. by exists x.
      * intros [?|[_ (y & Hy & Hty)]]; [lia|]. congruence.
    + apply lookup_ge_None in Hx. unfold llen in Hlt. lia.
  - exists false. split; [done|]. split; [done|].
    intros [?|[_ (x & Hx & _)]]; [lia|].
    apply lookup_lt_Some in Hx. unfold llen in Hge. lia.
Qed.

Lemma logOk_defined (lg : list LogEntry) (prev prevT : Z) (b : bool) :
  logOk lg prev prevT = Some b → -1 ≤ prev.
Proof.
  unfold logOk, log_at.
  destruct (Z.eqb_spec prev (-1)); [lia|].
  destruct (Z.ltb_spec prev 0); [|lia].
  destruct (Z.ltb_spec prev (llen lg)); [done|].
  unfold llen in *. lia.
Qed.

(** The result of the handler on an AppendEntries that is not stale. *)
Lemma processAppendEntries_fresh (node : RaftNode)
    (aterm leaderId prev prevT : Z) (es : list LogEntry) (lc : Z) :
  currentTerm node ≤ aterm →
  -1 ≤ prev →
  ∃ ok : bool,
    (ok = true ↔
       prev = -1
       ∨ (0 ≤ prev
          ∧ ∃ x, log node !! Z.to_nat prev = Some x ∧ term x = prevT))
    ∧ let lg := if ok then specMerge (log node) (Z.to_nat (prev + 1)) es
                else log node in
      let c := if ok && (commitIndex node <? lc)
               then Z.min lc (llen lg - 1) else commitIndex node in
      processAppendEntries node aterm leaderId prev prevT es lc
      = Some (set_commitIndex c (set_log lg (followLeader aterm node)),
              mkPacket (id node) leaderId
                (AppendResponse aterm ok (llen lg - 1)) 0 PACKET_SPEED).
Proof.
  intros Hterm Hprev. unfold processAppendEntries.
  destruct (Z.leb_spec (currentTerm node) aterm); [|lia].
  change (currentTerm (followLeader aterm node)) with aterm.
  change (log (followLeader aterm node)) with (log node).
  destruct (Z.ltb_spec aterm aterm); [lia|].
  destruct (logOk_spec (log node) prev prevT Hprev) as (b & Hb & Hiff).
  rewrite Hb. exists b. split; [exact Hiff|]. destruct b; [|done].
  assert (Hle : (Z.to_nat (prev + 1) ≤ length (log node))%nat).
  { destruct (proj1 Hiff eq_refl) as [->|[Hp0 (x & Hx & _)]]; [cbn; lia|].
    apply lookup_lt_Some in Hx. lia. }
  assert (Hloop : appendLoop (log node) (prev + 1) es
                  = specMerge (log node) (Z.to_nat (prev + 1)) es).
  { rewrite <- appendLoop_specMerge by done. f_equal. lia. }
  rewrite Hloop. cbn [andb].
  change (commitIndex (set_log _ (followLeader aterm node)))
    with (commitIndex node).
  by destruct (commitIndex node <? lc).
Qed.

(** The handler raises only on a [prevLogIndex] below [-1]. *)
Lemma processAppendEntries_total (node : RaftNode)
    (aterm leaderId prev prevT : Z) (es : list LogEntry) (lc : Z) :
  -1 ≤ prev →
  is_Some (processAppendEntries node aterm leaderId prev prevT es lc).
Proof.
  intros Hprev.
  destruct (Z.lt_ge_cases aterm (currentTerm node)) as [Hstale|Hfresh].
  - unfold processAppendEntries.
    destruct (Z.leb_spec (currentTerm node) aterm); [lia|].
    by destruct (Z.ltb_spec aterm (currentTerm node)); [|lia].
  - destruct (processAppendEntries_fresh node aterm leaderId prev prevT es lc)
      as (ok & _ & ->); done.
Qed.

(** A result of the handler on a fresh term means [prevLogIndex >= -1]. *)
Lemma processAppendEntries_Some_prev (node : RaftNode)
    (aterm leaderId prev prevT : Z) (es : list LogEntry) (lc : Z) :
  currentTerm node ≤ aterm →
  is_Some (processAppendEntries node aterm leaderId prev prevT es lc) →
  -1 ≤ prev.
Proof.
  intros Hterm [r Hr]. unfold processAppendEntries in Hr.
  destruct (Z.leb_spec (currentTerm node) aterm); [|lia].
  change (currentTerm (followLeader aterm node)) with aterm in Hr.
  destruct (Z.ltb_spec aterm aterm); [lia|].
  destruct (logOk (log (followLeader aterm node)) prev prevT) as [b|] eqn:Hb;
    [|done].
  by eapply logOk_defined.
Qed.

(** The handler on an AppendEntries of an earlier term. *)
Lemma processAppendEntries_old_term (node : RaftNode)
    (aterm leaderId prev prevT : Z) (es : list LogEntry) (lc : Z) :
  aterm < currentTerm node →
  processAppendEntries node aterm leaderId prev prevT es lc
  = Some (node,
          mkPacket (id node) leaderId
            (AppendResponse (currentTerm node) false (llen (log node) - 1))
            0 PACKET_SPEED).
Proof.
  intros Hlt. unfold processAppendEntries.
  destruct (Z.leb_spec (currentTerm node) aterm); [lia|].
  by destruct (Z.ltb_spec aterm (currentTerm node)); [|lia].
Qed.

(** C7.  A node whose term is strictly larger than the term of an incoming
    AppendEntries replies [success = false]; its log (indeed the whole
    node) is unchanged. *)
Theorem processAppendEntries_stale (node : RaftNode)
    (aterm leaderId prev prevT : Z) (es : list LogEntry) (lc : Z) :
  aterm < currentTerm node →
  processAppendEntries node aterm leaderId prev prevT es lc
  = Some (node,
          mkPacket (id node) leaderId
            (AppendResponse (currentTerm node) false (llen (log node) - 1))
            0 PACKET_SPEED).
Proof.
  intros Hlt. unfold processAppendEntries.
  destruct (Z.leb_spec (currentTerm node) aterm); [lia|].
  by destruct (Z.ltb_spec aterm (currentTerm node)); [|lia].
Qed.

(** C4.  For an AppendEntries whose term is not stale, the handler reports
    success exactly when [prevLogIndex = -1] or the log holds an entry at
    [prevLogIndex] with term [prevLogTerm]; on success the log becomes the
    merge of the supplied entries from position [prevLogIndex + 1]
    (appended where the log has no entry, kept where the terms agree,
    truncated and replaced from the first differing term on), and on
    failure the log is unchanged. *)
Theorem processAppendEntries_consistency (node : RaftNode)
    (aterm leaderId prev prevT : Z) (es : list LogEntry) (lc : Z) :
  currentTerm node ≤ aterm →
  -1 ≤ prev →
  ∃ (u : RaftNode) (ok : bool),
    processAppendEntries node aterm leaderId prev prevT es lc
    = Some (u,
            mkPacket (id node) leaderId
              (AppendResponse aterm ok (llen (log u) - 1)) 0 PACKET_SPEED)
    ∧ (ok = true ↔
         prev = -1
         ∨ (0 ≤ prev
            ∧ ∃ x, log node !! Z.to_nat prev = Some x ∧ term x = prevT))
    ∧ log u = (if ok then specMerge (log node) (Z.to_nat (prev + 1)) es
               else log node).
Proof.
  intros Hterm Hprev.
  destruct (processAppendEntries_fresh node aterm leaderId prev prevT es lc
              Hterm Hprev) as (ok & Hiff & Heq).
  cbn zeta in Heq.
  match type of Heq with _ = Some (?n, _) => exists n, ok end.
  split; [|split; [exact Hiff|]].
  - rewrite Heq. reflexivity.
  - reflexivity.
Qed.

(** C8.  Redelivering an AppendEntries to the node that resulted from
    applying it leaves that node's log and commit index unchanged. *)
Theorem processAppendEntries_idempotent (node n1 : RaftNode) (r1 : Packet)
    (aterm leaderId prev prevT : Z) (es : list LogEntry) (lc : Z) :
  processAppendEntries node aterm leaderId prev prevT es lc = Some (n1, r1) →
  ∃ (n2 : RaftNode) (r2 : Packet),
    processAppendEntries n1 aterm leaderId prev prevT es lc = Some (n2, r2)
    ∧ log n2 = log n1
    ∧ commitIndex n2 = commitIndex n1.
Proof.
  intros H1.
  destruct (Z.lt_ge_cases aterm (currentTerm node)) as [Hstale|Hfresh].
  { rewrite processAppendEntries_old_term in H1 by done.
    injection H1 as <- <-.
    rewrite processAppendEntries_old_term by done. eauto. }
  assert (Hprev : -1 ≤ prev).
  { eapply processAppendEntries_Some_prev; [|by rewrite H1]. lia. }
  destruct (processAppendEntries_fresh node aterm leaderId prev prevT es lc)
    as (ok & Hiff & Heq); [lia|done|].
  cbn zeta in Heq. rewrite Heq in H1. injection H1 as <- <-.
  match goal with |- context [processAppendEntries ?n] => set (u := n) end.
  assert (Hlogu : log u = if ok then specMerge (log node) (Z.to_nat (prev + 1)) es
                          else log node) by done.
  assert (Hcu : commitIndex u
                = if ok && (commitIndex node <? lc)
                  then Z.min lc (llen (log u) - 1) else commitIndex node)
    by done.
  destruct (processAppendEntries_fresh u aterm leaderId prev prevT es lc)
    as (ok2 & Hiff2 & Heq2); [done|done|].
  cbn zeta in Heq2.
  assert (Hok : ok2 = ok).
  { destruct ok.
    - apply Hiff2. destruct (proj1 Hiff eq_refl) as [->|[Hp0 (x & Hx & Ht)]];
        [by left|right]. split; [done|]. exists x. split; [|done].
      rewrite Hlogu. rewrite specMerge_lookup_below; [done| |lia].
      apply lookup_lt_Some in Hx. lia.
    - rewrite Hlogu in Hiff2. destruct ok2; [|done].
      symmetry. apply Hiff, Hiff2. done. }
  subst ok2.
  assert (Hlog2 : (if ok then specMerge (log u) (Z.to_nat (prev + 1)) es
                   else log u) = log u).
  { destruct ok; [|done]. rewrite Hlogu.
    apply specMerge_idempotent.
    destruct (proj1 Hiff eq_refl) as [->|[Hp0 (x & Hx & _)]]; [cbn; lia|].
    apply lookup_lt_Some in Hx. lia. }
  rewrite Hlog2 in Heq2. rewrite Heq2.
  eexists _, _. split; [reflexivity|]. split; [done|].
  cbn [commitIndex set_commitIndex]. rewrite Hcu.
  destruct ok; cbn [andb]; [|done].
  destruct (Z.ltb_spec (commitIndex node) lc);
    destruct (Z.ltb_spec (lc `min` (llen (log u) - 1)) lc);
    destruct (Z.ltb_spec (commitIndex node) lc); lia.
Qed.

Lemma processAppendEntries_stale_witness :
  2 < currentTerm sampleFollower
  ∧ processAppendEntries sampleFollower 2 0 0 1 sampleEntries 5
    = Some (sampleFollower,
            mkPacket 1 0 (AppendResponse 3 false 2) 0 PACKET_SPEED).
Proof.
  split; [reflexivity|].
  apply (processAppendEntries_stale sampleFollower 2 0 0 1 sampleEntries 5).
  reflexivity.
Defined.

Lemma processAppendEntries_consistency_witness :
  ∃ (u : RaftNode) (ok : bool),
    processAppendEntries sampleFollower 3 0 0 1 sampleEntries 5
    = Some (u,
            mkPacket (id sampleFollower) 0
              (AppendResponse 3 ok (llen (log u) - 1)) 0 PACKET_SPEED)
    ∧ (ok = true ↔
         0 = -1
         ∨ (0 ≤ 0
            ∧ ∃ x, log sampleFollower !! Z.to_nat 0 = Some x ∧ term x = 1))
    ∧ log u = (if ok
               then specMerge (log sampleFollower) (Z.to_nat (0 + 1))
                      sampleEntries
               else log sampleFollower).
Proof.
  apply (processAppendEntries_consistency sampleFollower 3 0 0 1
           sampleEntries 5).
  - vm_compute. discriminate.
  - vm_compute. discriminate.
Defined.

Lemma processAppendEntries_idempotent_witness :
  ∃ (n1 : RaftNode) (r1 : Packet),
    processAppendEntries sampleFollower 3 0 0 1 sampleEntries 5
    = Some (n1, r1)
    ∧ log n1 = [mkLogEntry 1 "SET X=5"; mkLogEntry 1 "ADD USER";
                mkLogEntry 3 "INC Y"]
    ∧ ∃ (n2 : RaftNode) (r2 : Packet),
        processAppendEntries n1 3 0 0 1 sampleEntries 5 = Some (n2, r2)
        ∧ log n2 = log n1
        ∧ commitIndex n2 = commitIndex n1.
Proof.
  eexists _, _. split; [vm_compute; reflexivity|].
  split; [reflexivity|].
  eapply (processAppendEntries_idempotent sampleFollower).
  vm_compute. reflexivity.
Defined.

(** ** Packet speeds *)

(** Packets built by [broadcast] and by a heartbeat travel at the base
    rate times the playback multiplier. *)
Lemma broadcast_speed (sender : RaftNode) (pl : Payload)
    (ns : list RaftNode) (playbackSpeed : Q) (p : Packet) :
  p ∈ broadcast sender pl ns playbackSpeed →
  speed p = (PACKET_SPEED * playbackSpeed)%Q.
Proof.
  unfold broadcast. intros (n & -> & _)%list_elem_of_fmap. reflexivity.
Qed.

Lemma heartbeats_speed (leader : RaftNode) (cur : list RaftNode)
    (playbackSpeed : Q) (p : Packet) :
  p ∈ heartbeats leader cur playbackSpeed →
  speed p = (PACKET_SPEED * playbackSpeed)%Q.
Proof.
  unfold heartbeats. intros (n & -> & _)%list_elem_of_fmap. reflexivity.
Qed.

(** C9 (divergence).  The replies built by the two handlers always travel
    at the bare base rate: the handlers do not see the playback multiplier.
    With a multiplier of 2 the reply speed is 3/2, not 3. *)
Theorem reply_speed_not_scaled :
  (∀ node t c li lt, speed (processRequestVote node t c li lt).2 = PACKET_SPEED)
  ∧ (∀ node t l pi pt es lc u r,
       processAppendEntries node t l pi pt es lc = Some (u, r) →
       speed r = PACKET_SPEED)
  ∧ ¬ (speed (processRequestVote sampleFollower 4 0 2 2).2
       == PACKET_SPEED * 2)%Q.
Proof.
  split; [|split].
  - intros. reflexivity.
  - intros node t l pi pt es lc u r H. unfold processAppendEntries in H.
    destruct (_ <? currentTerm _); [by injection H as <- <-|].
    destruct (logOk _ _ _) as [[]|]; [| |done]; by injection H as <- <-.
  - vm_compute. discriminate.
Qed.

(** ** Heartbeat packets *)

(** For a peer whose [nextIndex] is at least 1 the heartbeat carries
    [prevLogIndex = nextIndex - 1], the term of the leader's entry there
    ([-1] without one) and the leader's entries from [nextIndex] on. *)
Lemma heartbeatPacket_nextIndex_pos (leader : RaftNode) (peer k : Z)
    (playbackSpeed : Q) :
  nextIndex leader !! peer = Some k →
  1 ≤ k →
  payload (heartbeatPacket leader peer playbackSpeed)
  = AppendEntries (currentTerm leader) (id leader) (k - 1)
      (match log leader !! Z.to_nat (k - 1) with
       | Some e => term e
       | None => -1
       end)
      (drop (Z.to_nat k) (log leader)) (commitIndex leader).
Proof.
  intros Hk Hpos. unfold heartbeatPacket. rewrite Hk. cbn [orOne payload].
  destruct (Z.eqb_spec k 0); [lia|].
  f_equal.
  - unfold log_at. destruct (Z.leb_spec 0 (k - 1)); [|lia].
    destruct (Z.ltb_spec (k - 1) 0); [lia|]. cbn [andb].
    destruct (Z.ltb_spec (k - 1) (llen (log leader))) as [Hlt|Hge]; [done|].
    rewrite (proj2 (lookup_ge_None _ _)); [done|]. unfold llen in Hge. lia.
  - unfold slice_from. destruct (Z.ltb_spec (k - 1 + 1) 0); [lia|].
    f_equal. lia.
Qed.

(** C2 (divergence).  With [nextIndex[peer] = 0] the expression
    [(nextIndex[peer.id] || 1) - 1] is 0, not -1: the heartbeat claims a
    match at position 0 and leaves the leader's first entry out. *)
Theorem heartbeatPacket_nextIndex_zero :
  nextIndex sampleLeader !! 1 = Some 0
  ∧ payload (heartbeatPacket sampleLeader 1 1)
    = AppendEntries 1 0 0 1 [mkLogEntry 1 "ADD USER"] (-1)
  ∧ payload (heartbeatPacket sampleLeader 1 1)
    ≠ AppendEntries 1 0 (0 - 1) (-1) (drop 0 (log sampleLeader)) (-1).
Proof.
  split; [reflexivity|]. split; [reflexivity|]. vm_compute. discriminate.
Qed.

(** ** The crash toggle *)

Lemma toggleNode_frame (timeout : Z) (n : RaftNode) :
  sameDurableFields n (toggleNode timeout n).
Proof. unfold toggleNode, sameDurableFields. case_bool_decide; done. Qed.

Lemma sameDurableFields_refl (n : RaftNode) : sameDurableFields n n.
Proof. done. Qed.

Lemma sameDurableFields_trans (a b c : RaftNode) :
  sameDurableFields a b → sameDurableFields b c → sameDurableFields a c.
Proof. unfold sameDurableFields. intuition congruence. Qed.

(** The effect of one toggle on every position of the node array. *)
Lemma toggleNodeState_lookup (i timeout : Z) (e : Engine) (k : nat)
    (n : RaftNode) :
  nodes e !! k = Some n →
  ∃ n', nodes (toggleNodeState i timeout e) !! k = Some n'
        ∧ sameDurableFields n n'
        ∧ (n' = n ∨ (id n = i ∧ n' = toggleNode timeout n)).
Proof.
  intros Hk. unfold toggleNodeState.
  destruct (list_find _ _) as [[k0 n0]|] eqn:Hfind; cbn [nodes].
  - apply list_find_Some in Hfind as (Hk0 & Hid & _).
    destruct (decide (k = k0)) as [->|Hne].
    + rewrite Hk0 in Hk. injection Hk as ->.
      exists (toggleNode timeout n). split.
      * rewrite list_lookup_insert_eq; [done|]. by eapply lookup_lt_Some.
      * split; [apply toggleNode_frame|]. by right.
    + exists n. rewrite list_lookup_insert_ne by done. auto using sameDurableFields_refl.
  - exists n. auto using sameDurableFields_refl.
Qed.

(** C10.  The crash toggle changes nothing but the role of the first node
    with the given id and, when it revives the node, that node's
    [electionTimeout], which becomes the fresh draw: every other field of
    every node, the packets and the vote tracker are preserved by a toggle
    and hence across a crash followed by a revival; [currentTimeoutDuration]
    is not redrawn, so the revived node's [electionTimeout] can exceed it;
    for an id that no node has, the engine state is unchanged. *)
Theorem toggleNodeState_frame (i t1 t2 : Z) (e : Engine) :
  let e1 := toggleNodeState i t1 e in
  let e2 := toggleNodeState i t2 e1 in
  packets e1 = packets e
  ∧ votesReceived e1 = votesReceived e
  ∧ length (nodes e1) = length (nodes e)
  ∧ (∀ k n, nodes e !! k = Some n →
       ∃ n1 n2,
         nodes e1 !! k = Some n1 ∧ nodes e2 !! k = Some n2
         ∧ sameDurableFields n n1 ∧ sameDurableFields n n2
         ∧ (n1 = n
            ∨ (id n = i ∧ state n = CRASHED ∧ state n1 = FOLLOWER
               ∧ electionTimeout n1 = t1)
            ∨ (id n = i ∧ state n ≠ CRASHED ∧ state n1 = CRASHED
               ∧ electionTimeout n1 = electionTimeout n
               ∧ state n2 = FOLLOWER ∧ electionTimeout n2 = t2)))
  ∧ ((∀ n, n ∈ nodes e → id n ≠ i) → e1 = e)
  ∧ (∃ n2, nodes (toggleNodeState 0 300 (toggleNodeState 0 300 sampleCluster))
             !! 0%nat = Some n2
           ∧ state n2 = FOLLOWER
           ∧ currentTimeoutDuration n2 < electionTimeout n2).
Proof.
  intros e1 e2. subst e1 e2.
  split; [|split; [|split; [|split; [|split]]]].
  - unfold toggleNodeState. by destruct (list_find _ _) as [[]|].
  - unfold toggleNodeState. by destruct (list_find _ _) as [[]|].
  - unfold toggleNodeState. destruct (list_find _ _) as [[]|]; [|done].
    cbn. by rewrite length_insert.
  - intros k n Hk. unfold toggleNodeState at 1 3.
    destruct (list_find _ (nodes e)) as [[k0 n0]|] eqn:Hfind.
    + pose proof Hfind as (Hk0 & Hid & Hfirst)%list_find_Some.
      assert (Hlt : (k0 < length (nodes e))%nat) by by eapply lookup_lt_Some.
      (* the second toggle finds the same position *)
      assert (Hfind2 :
        list_find (λ n : RaftNode, id n = i)
          (<[k0 := toggleNode t1 n0]> (nodes e))
        = Some (k0, toggleNode t1 n0)).
      { apply list_find_Some. split; [by rewrite list_lookup_insert_eq|].
        split; [by destruct (toggleNode_frame t1 n0) as [-> _]|].
        intros j y Hj Hjk. rewrite list_lookup_insert_ne in Hj by lia.
        eauto. }
      unfold toggleNodeState. cbn [nodes]. rewrite Hfind2. cbn [nodes].
      rewrite list_insert_insert_eq.
      destruct (decide (k = k0)) as [->|Hne].
      * rewrite Hk0 in Hk. injection Hk as ->.
        exists (toggleNode t1 n), (toggleNode t2 (toggleNode t1 n)).
        rewrite !list_lookup_insert_eq by done.
        split; [done|]. split; [done|].
        split; [apply toggleNode_frame|].
        split; [eapply sameDurableFields_trans; apply toggleNode_frame|].
        right. unfold toggleNode.
        destruct (decide (state n = CRASHED)) as [Hc|Hc].
        -- left. rewrite bool_decide_eq_true_2 by done. done.
        -- right. rewrite (bool_decide_eq_false_2 _ Hc). cbn.
           rewrite bool_decide_eq_true_2 by done. done.
      * exists n, n. rewrite !list_lookup_insert_ne by done.
        auto 10 using sameDurableFields_refl.
    + unfold toggleNodeState. rewrite Hfind.
      exists n, n. auto 10 using sameDurableFields_refl.
  - intros Habsent. unfold toggleNodeState.
    destruct (list_find _ _) as [[k0 n0]|] eqn:Hfind; [|done].
    apply list_find_Some in Hfind as (Hk0 & Hid & _).
    exfalso. eapply Habsent; [|exact Hid]. by eapply list_elem_of_lookup_2.
  - eexists. split; [vm_compute; reflexivity|]. split; reflexivity.
Qed.

Lemma toggleNodeState_frame_witness :
  (∀ n, n ∈ nodes sampleCluster → id n ≠ 7)
  ∧ toggleNodeState 7 300 sampleCluster = sampleCluster.
Proof.
  assert (H : ∀ n, n ∈ nodes sampleCluster → id n ≠ 7).
  { intros n Hn. apply list_elem_of_singleton in Hn. subst n. cbn. lia. }
  split; [exact H|].
  exact (proj1 (proj2 (proj2 (proj2 (proj2
           (toggleNodeState_frame 7 300 300 sampleCluster))))) H).
Defined.

(** ** The leader's commit rule *)

Section SortDesc.

Implicit Types (l s : list Z) (x v : Z).

Lemma insertDesc_perm x l : insertDesc x l ≡ₚ x :: l.
Proof.
  induction l as [|y l IH]; cbn; [done|].
  destruct (y <=? x); [done|]. rewrite IH. apply Permutation_swap.
Qed.

Lemma sortDesc_perm l : sortDesc l ≡ₚ l.
Proof.
  induction l as [|x l IH]; cbn; [done|].
  by rewrite insertDesc_perm, IH.
Qed.

Lemma insertDesc_sorted x l :
  StronglySorted (flip Z.le) l → StronglySorted (flip Z.le) (insertDesc x l).
Proof.
  induction 1 as [|y l Hl IH Hy]; cbn.
  - by repeat constructor.
  - destruct (Z.leb_spec y x).
    + constructor; [by constructor|]. constructor; [done|].
      eapply Forall_impl; [exact Hy|]. unfold flip. intros; lia.
    + constructor; [done|]. rewrite insertDesc_perm.
      constructor; [unfold flip; lia|done].
Qed.

Lemma sortDesc_sorted l : StronglySorted (flip Z.le) (sortDesc l).
Proof.
  induction l as [|x l IH]; cbn; [constructor|by apply insertDesc_sorted].
Qed.

#[local] Instance flip_le_antisymm : AntiSymm (=) (flip Z.le).
Proof. intros x y. unfold flip. lia. Qed.

(** The sorted array depends only on the multiset of its elements. *)
Lemma sortDesc_proper l1 l2 : l1 ≡ₚ l2 → sortDesc l1 = sortDesc l2.
Proof.
  intros H. apply (StronglySorted_unique (flip Z.le));
    [apply sortDesc_sorted..|].
  by rewrite !sortDesc_perm.
Qed.

Lemma sorted_lookup_le s (i j : nat) a b :
  StronglySorted (flip Z.le) s →
  s !! i = Some a → s !! j = Some b → (i ≤ j)%nat → b ≤ a.
Proof.
  intros Hs. revert i j. induction Hs as [|y s Hs IH Hy]; intros i j Hi Hj Hij;
    [done|].
  destruct i as [|i], j as [|j]; cbn in *; try lia.
  - injection Hi as ->. injection Hj as ->. lia.
  - injection Hi as ->. rewrite Forall_forall in Hy. apply (Hy b).
    by eapply list_elem_of_lookup_2.
  - eapply IH; [done..|lia].
Qed.

(** Adding a value that is not above the element of rank [k] leaves that
    rank unchanged. *)
Lemma insertDesc_rank x s (k : nat) v :
  StronglySorted (flip Z.le) s →
  s !! k = Some v → x ≤ v → insertDesc x s !! k = Some v.
Proof.
  intros Hs. revert k. induction Hs as [|y s Hs IH Hy]; intros k Hk Hx;
    [done|].
  assert (Hys : StronglySorted (flip Z.le) (y :: s)) by by constructor.
  cbn. destruct (Z.leb_spec y x) as [Hyx|Hyx].
  - destruct k as [|k].
    + injection Hk as ->. cbn. f_equal. lia.
    + change ((y :: s) !! k = Some v).
      destruct (lookup_lt_is_Some_2 (y :: s) k) as [w Hw].
      { apply lookup_lt_Some in Hk. cbn in *. lia. }
      pose proof (sorted_lookup_le _ k (S k) w v Hys Hw Hk ltac:(lia)).
      pose proof (sorted_lookup_le _ 0%nat k y w Hys eq_refl Hw ltac:(lia)).
      rewrite Hw. f_equal. lia.
  - destruct k as [|k]; cbn in *; [done|]. by apply IH.
Qed.

(** The third largest of one arbitrary value and four non-negative ones
    is non-negative. *)
Lemma sortDesc_rank2_nonneg x l :
  length l = 4%nat → Forall (λ v, 0 ≤ v) l →
  ∃ v, sortDesc (x :: l) !! 2%nat = Some v ∧ 0 ≤ v.
Proof.
  intros Hlen Hl.
  pose proof (sortDesc_perm (x :: l)) as Hp.
  pose proof (sortDesc_sorted (x :: l)) as Hs.
  destruct (sortDesc (x :: l)) as [|a [|b [|c [|d [|e [|f s]]]]]];
    pose proof (Permutation_length Hp) as Hlen'; cbn in Hlen'; try lia.
  exists c. split; [done|].
  destruct (Z.le_gt_cases 0 c) as [|Hneg]; [done|exfalso].
  apply StronglySorted_inv in Hs as [Hs _].
  apply StronglySorted_inv in Hs as [Hs _].
  apply StronglySorted_inv in Hs as [Hs Hc].
  apply Forall_cons in Hc as [Hd _]. unfold flip in Hd.
  rewrite Forall_forall in Hl.
  assert (Hin : ∀ z, z ∈ [a; b; c; d; e] → z < 0 → z = x).
  { intros z Hz Hz0. rewrite Hp in Hz. apply elem_of_cons in Hz as [|Hz];
      [done|]. apply Hl in Hz. lia. }
  assert (c = x) as -> by (apply Hin; [set_solver|lia]).
  assert (d = x) as -> by (apply Hin; [set_solver|lia]).
  assert (Hp' : l ≡ₚ [a; b; x; e]).
  { apply (Permutation_cons_inv (a := x)). rewrite <- Hp.
    change ([a; b; x; x; e]) with ([a; b] ++ x :: [x; e]).
    by rewrite <- Permutation_middle. }
  assert (x ∈ l) by (rewrite Hp'; set_solver).
  apply Hl in H. lia.
Qed.

End SortDesc.

Section WellFormed.

Lemma Forall_filter {A} (P Q : A → Prop) `{!∀ x, Decision (Q x)}
    (l : list A) :
  Forall P l → Forall P (filter Q l).
Proof.
  rewrite !Forall_forall. intros Hall x [_ Hx]%list_elem_of_filter. auto.
Qed.

Lemma wfNode_keeps (n n' : RaftNode) :
  keepsLeaderMaps n n' → wfNode n → wfNode n'.
Proof.
  intros (Hid & Hm & Hn & Hs) (H1 & H2 & H3 & H4 & H5).
  unfold wfNode. rewrite Hid, Hm, Hn. auto.
Qed.

Lemma processRequestVote_keeps (node : RaftNode) (t c li lt : Z) :
  keepsLeaderMaps node (processRequestVote node t c li lt).1.
Proof.
  unfold processRequestVote, keepsLeaderMaps. cbn [fst].
  repeat match goal with |- context [if ?b then _ else _] => destruct b end;
    cbn; intuition discriminate.
Qed.

Lemma processVoteResponse_keeps (node : RaftNode) (t : Z) (g : bool) :
  keepsLeaderMaps node (processVoteResponse node t g).
Proof.
  unfold processVoteResponse, keepsLeaderMaps.
  destruct (_ <? _); cbn; intuition discriminate.
Qed.

Lemma processAppendEntries_keeps (node u : RaftNode) (r : Packet)
    (t l pi pt : Z) (es : list LogEntry) (lc : Z) :
  processAppendEntries node t l pi pt es lc = Some (u, r) →
  keepsLeaderMaps node u.
Proof.
  unfold processAppendEntries, keepsLeaderMaps. intros H.
  destruct (currentTerm node <=? t); cbn in H.
  - destruct (t <? t); [injection H as <- <-; cbn; intuition discriminate|].
    destruct (logOk _ _ _) as [[]|]; [| |done].
    + destruct (_ <? lc); injection H as <- <-; cbn; intuition discriminate.
    + injection H as <- <-; cbn; intuition discriminate.
  - destruct (t <? _); [by injection H as <- <-|].
    destruct (logOk _ _ _) as [[]|]; [| |done].
    + destruct (_ <? lc); injection H as <- <-; cbn; intuition discriminate.
    + by injection H as <- <-.
Qed.

(** The reply to an AppendEntries: a success reports a last index that
    exists. *)
Lemma processAppendEntries_reply (node u : RaftNode) (r : Packet)
    (t l pi pt : Z) (es : list LogEntry) (lc : Z) :
  processAppendEntries node t l pi pt es lc = Some (u, r) →
  0 ≤ pi →
  ∃ t' ok mi, r = mkPacket (id node) l (AppendResponse t' ok mi) 0 PACKET_SPEED
              ∧ (ok = true → 0 ≤ mi).
Proof.
  intros H Hpi.
  destruct (Z.lt_ge_cases t (currentTerm node)) as [Hstale|Hfresh].
  { rewrite processAppendEntries_old_term in H by done. injection H as <- <-.
    eexists _, _, _. split; [reflexivity|done]. }
  destruct (processAppendEntries_fresh node t l pi pt es lc)
    as (ok & Hiff & Heq); [lia|lia|].
  cbn zeta in Heq. rewrite Heq in H. injection H as <- <-.
  eexists _, _, _. split; [reflexivity|].
  intros ->. destruct (proj1 Hiff eq_refl) as [?|[_ (x & Hx & _)]]; [lia|].
  assert (Hlt : (Z.to_nat pi
                 < length (specMerge (log node) (Z.to_nat (pi + 1)) es))%nat).
  { eapply lookup_lt_Some. rewrite specMerge_lookup_below; [exact Hx| |lia].
    apply lookup_lt_Some in Hx. lia. }
  unfold llen. lia.
Qed.

Lemma processAppendResponse_wf (target : RaftNode) (sender t : Z)
    (s : bool) (mi : Z) :
  wfNode target → sender ∈ clusterIds → sender ≠ id target →
  (s = true → 0 ≤ mi) →
  wfNode (processAppendResponse target sender t s mi).
Proof.
  intros Hwf Hin Hne Hmi. unfold processAppendResponse.
  destruct (_ <? t).
  { eapply wfNode_keeps; [|exact Hwf]. unfold keepsLeaderMaps. cbn.
    intuition discriminate. }
  destruct (_ && _); [|done].
  destruct Hwf as (H1 & H2 & H3 & H4 & H5).
  destruct s.
  - assert (Hbase : wfNode
      (set_nextIndex (<[sender:=mi + 1]> (nextIndex target))
         (set_matchIndex (<[sender:=mi]> (matchIndex target)) target))).
    { unfold wfNode. cbn. split; [done|]. split; [|split; [|split]].
      - intros Hs i Hi. apply lookup_insert_is_Some'. auto.
      - intros k v. rewrite lookup_insert. case_decide as Hk.
        + intros [= <-]. subst k. split; [done|]. by apply Hmi.
        + apply H3.
      - intros v. rewrite lookup_insert_ne by done. apply H4.
      - intros k v. rewrite lookup_insert. case_decide as Hk.
        + intros [= <-]. specialize (Hmi eq_refl). lia.
        + apply H5. }
    destruct (commitGuard _ _); [|done].
    eapply wfNode_keeps; [|exact Hbase]. unfold keepsLeaderMaps. done.
  - unfold wfNode. cbn. split; [done|]. split; [done|]. split; [done|].
    split; [done|]. intros k v. rewrite lookup_insert. case_decide as Hk.
    + intros [= <-]. lia.
    + apply H5.
Qed.

(** The maps of a fresh leader. *)
Lemma becomeLeader_fields (cur : list RaftNode) (u : RaftNode) :
  let r := becomeLeader cur u in
  id r = id u ∧ currentTerm r = currentTerm u ∧ log r = log u
  ∧ votedFor r = votedFor u ∧ commitIndex r = commitIndex u
  ∧ state r = LEADER
  ∧ (∀ k, matchIndex r !! k
          = if decide (k ∈ id <$> cur) then Some 0 else matchIndex u !! k)
  ∧ (∀ k, nextIndex r !! k
          = if decide (k ∈ id <$> cur) then Some (llen (log u))
            else nextIndex u !! k).
Proof.
  unfold becomeLeader.
  assert (Hgen : ∀ acc : RaftNode,
    let r := foldl (λ (acc : RaftNode) (n : RaftNode),
               set_matchIndex (<[id n := 0]> (matchIndex acc))
                 (set_nextIndex (<[id n := llen (log acc)]> (nextIndex acc))
                    acc)) acc cur in
    id r = id acc ∧ currentTerm r = currentTerm acc ∧ log r = log acc
    ∧ votedFor r = votedFor acc ∧ commitIndex r = commitIndex acc
    ∧ state r = state acc
    ∧ (∀ k, matchIndex r !! k
            = if decide (k ∈ id <$> cur) then Some 0 else matchIndex acc !! k)
    ∧ (∀ k, nextIndex r !! k
            = if decide (k ∈ id <$> cur) then Some (llen (log acc))
              else nextIndex acc !! k)).
  { induction cur as [|n cur IH]; intros acc.
    - cbn. repeat split; intros k; by rewrite decide_False by set_solver.
    - cbn [foldl]. specialize (IH
        (set_matchIndex (<[id n := 0]> (matchIndex acc))
           (set_nextIndex (<[id n := llen (log acc)]> (nextIndex acc)) acc))).
      cbn zeta in IH. destruct IH as (I1 & I2 & I3 & I4 & I5 & I6 & I7 & I8).
      cbn in I1, I2, I3, I4, I5, I6.
      repeat split; try done.
      + intros k. rewrite I7. cbn [matchIndex set_matchIndex].
        rewrite fmap_cons. destruct (decide (k ∈ id <$> cur)) as [Hin|Hnin].
        * by rewrite decide_True by (by right).
        * destruct (decide (k = id n)) as [->|Hne].
          -- rewrite decide_True by (by left). by rewrite lookup_insert_eq.
          -- rewrite decide_False by (by intros [?|?]%elem_of_cons).
             by rewrite lookup_insert_ne.
      + intros k. rewrite I8. cbn [nextIndex set_nextIndex set_matchIndex log].
        rewrite fmap_cons. destruct (decide (k ∈ id <$> cur)) as [Hin|Hnin].
        * by rewrite decide_True by (by right).
        * destruct (decide (k = id n)) as [->|Hne].
          -- rewrite decide_True by (by left). by rewrite lookup_insert_eq.
          -- rewrite decide_False by (by intros [?|?]%elem_of_cons).
             by rewrite lookup_insert_ne. }
  specialize (Hgen (set_heartbeatTimer 0 (set_state LEADER u))).
  exact Hgen.
Qed.

Lemma becomeLeader_wf (cur : list RaftNode) (u : RaftNode) :
  id <$> cur = clusterIds → wfNode u → wfNode (becomeLeader cur u).
Proof.
  intros Hids (H1 & H2 & H3 & H4 & H5).
  destruct (becomeLeader_fields cur u)
    as (I1 & _ & I3 & _ & _ & I6 & I7 & I8).
  unfold wfNode. rewrite I1. split; [done|]. split; [|split; [|split]].
  - intros _ i Hi. rewrite I7, Hids. by rewrite decide_True.
  - intros k v. rewrite I7, Hids. case_decide; [|apply H3].
    intros [= <-]. done.
  - intros v. rewrite I7, Hids. rewrite decide_True by done. by intros [= <-].
  - intros k v. rewrite I8, Hids. case_decide; [|apply H5].
    intros [= <-]. unfold llen. lia.
Qed.

Lemma wfCluster_insert (ns : list RaftNode) (i : nat) (n n' : RaftNode) :
  ns !! i = Some n → id n' = id n → wfNode n' →
  wfCluster ns → wfCluster (<[i := n']> ns).
Proof.
  intros Hi Hid Hwf [Hids Hall]. split.
  - rewrite list_fmap_insert, Hid.
    rewrite list_insert_id; [done|]. by rewrite list_lookup_fmap, Hi.
  - by apply Forall_insert.
Qed.

Lemma wfCluster_lookup (ns : list RaftNode) (i : nat) (n : RaftNode) :
  wfCluster ns → ns !! i = Some n → wfNode n.
Proof. intros [_ Hall] Hi. by eapply Forall_lookup_1. Qed.

(** Step 2 keeps nodes and packets well formed. *)
Lemma deliver_wf (w w' : Work) (p : Packet) :
  wfWork w → wfPacket p → deliver w p = Some w' → wfWork w'.
Proof.
  intros [Hc Hs] Hp. unfold deliver.
  destruct (list_find _ _) as [[i target]|] eqn:Hfind; [|by intros [= <-]].
  apply list_find_Some in Hfind as (Hi & Hto & _).
  pose proof (wfCluster_lookup _ _ _ Hc Hi) as Hwf.
  case_bool_decide; [by intros [= <-]|].
  unfold wfPacket in Hp.
  destruct (payload p) as [t c li lt|t g|t l pi pt es lc|t s mi].
  - (* RequestVote *)
    pose proof (processRequestVote_keeps target t c li lt) as Hk.
    destruct (processRequestVote target t c li lt) as [u r] eqn:Hrv.
    intros [= <-]. split; cbn.
    + eapply wfCluster_insert; [done|apply Hk|by eapply wfNode_keeps|done].
    + apply Forall_app. split; [done|]. apply Forall_singleton.
      unfold processRequestVote in Hrv. injection Hrv as _ <-. done.
  - (* VoteResponse *)
    pose proof (processVoteResponse_keeps target t g) as Hk.
    set (u := processVoteResponse target t g) in *.
    assert (Hc1 : wfCluster (<[i := u]> (currentNodes w))).
    { eapply wfCluster_insert; [done|apply Hk|by eapply wfNode_keeps|done]. }
    destruct (_ && _ && _).
    + destruct (hasMajority _); intros [= <-]; split; cbn; try done.
      eapply wfCluster_insert.
      * apply list_lookup_insert_eq. by eapply lookup_lt_Some.
      * by destruct (becomeLeader_fields (<[i:=u]> (currentNodes w)) u)
          as (-> & _).
      * apply becomeLeader_wf; [apply Hc1|by eapply wfNode_keeps].
      * done.
    + intros [= <-]. split; done.
  - (* AppendEntries *)
    destruct Hp as (Hpi & -> & Hne & Hfrom).
    destruct (processAppendEntries _ _ _ _ _ _ _) as [[u r]|] eqn:Hae;
      [|done].
    pose proof (processAppendEntries_keeps _ _ _ _ _ _ _ _ _ Hae) as Hk.
    destruct (processAppendEntries_reply _ _ _ _ _ _ _ _ _ Hae Hpi)
      as (t' & ok & mi & -> & Hmi).
    intros [= <-]. split; cbn.
    + eapply wfCluster_insert; [done|apply Hk|by eapply wfNode_keeps|done].
    + apply Forall_app. split; [done|]. apply Forall_singleton.
      unfold wfPacket. cbn. split; [congruence|]. split; [|done].
      apply Hwf.
  - (* AppendResponse *)
    destruct Hp as (Hne & Hfrom & Hmi).
    intros [= <-]. split; cbn; [|done].
    eapply wfCluster_insert; [done| | |done].
    + unfold processAppendResponse.
      repeat match goal with
             | |- context [if ?b then _ else _] => destruct b
             end; done.
    + apply processAppendResponse_wf; [done..|congruence|done].
Qed.

Lemma deliverAll_wf (w w' : Work) (todo : list Packet) :
  wfWork w → Forall wfPacket todo → deliverAll w todo = Some w' → wfWork w'.
Proof.
  revert w. induction todo as [|p todo IH]; intros w Hw Hall; cbn.
  - by intros [= <-].
  - apply Forall_cons in Hall as [Hp Hall].
    destruct (deliver w p) as [w1|] eqn:Hd; [|done].
    apply IH; [by eapply deliver_wf|done].
Qed.

(** Step 3 keeps nodes and packets well formed. *)
Lemma heartbeats_wf (leader : RaftNode) (cur : list RaftNode)
    (playbackSpeed : Q) :
  wfNode leader → Forall wfPacket (heartbeats leader cur playbackSpeed).
Proof.
  intros (H1 & _ & _ & _ & H5). unfold heartbeats.
  apply Forall_fmap, Forall_forall. intros peer Hpeer.
  apply list_elem_of_filter in Hpeer as [Hpeer _].
  unfold wfPacket, heartbeatPacket. cbn.
  split; [|split; [done|split; [|done]]].
  - unfold orOne. destruct (nextIndex leader !! id peer) as [v|] eqn:Hv;
      [|lia]. apply H5 in Hv. destruct (Z.eqb_spec v 0); lia.
  - intros Heq. apply Hpeer. by left.
Qed.

Lemma broadcast_RequestVote_wf (sender : RaftNode) (t c li lt : Z)
    (ns : list RaftNode) (playbackSpeed : Q) :
  Forall wfPacket (broadcast sender (RequestVote t c li lt) ns playbackSpeed).
Proof. unfold broadcast. apply Forall_fmap, Forall_forall. done. Qed.

Lemma maintain_wf (cur : list RaftNode) (playbackSpeed : Q) (timeout : Z)
    (node : RaftNode) (votes : gmap Z (gset Z)) (pkts : list Packet) :
  wfNode node → Forall wfPacket pkts →
  let '(u, _, pkts') := maintain cur playbackSpeed timeout node votes pkts in
  id u = id node ∧ wfNode u ∧ Forall wfPacket pkts'.
Proof.
  intros Hwf Hp. unfold maintain.
  case_bool_decide as Hcr; [done|].
  case_bool_decide as Hl.
  - (* not a leader: the election timer *)
    destruct (_ <=? 0).
    + cbn. split; [done|]. split.
      * eapply wfNode_keeps; [|exact Hwf]. unfold keepsLeaderMaps. cbn.
        intuition discriminate.
      * apply Forall_app. split; [done|]. apply broadcast_RequestVote_wf.
    + cbn [state set_electionTimeout].
      rewrite bool_decide_eq_false_2 by done.
      split; [done|]. split; [|done].
      eapply wfNode_keeps; [|exact Hwf]. unfold keepsLeaderMaps. done.
  - (* a leader: the heartbeat timer *)
    rewrite bool_decide_eq_true_2 by done.
    assert (Hk : ∀ h, wfNode (set_heartbeatTimer h node)).
    { intros h. eapply wfNode_keeps; [|exact Hwf]. unfold keepsLeaderMaps.
      done. }
    destruct (_ <=? 0); (split; [done|]); (split; [apply Hk|]); [|done].
    apply Forall_app. split; [done|]. apply heartbeats_wf.
    eapply wfNode_keeps; [|apply (Hk 0)]. unfold keepsLeaderMaps. done.
Qed.

Lemma maintainAll_wf (cur : list RaftNode) (playbackSpeed : Q)
    (draw : nat → Z) (k : nat) (todo : list RaftNode)
    (votes : gmap Z (gset Z)) (pkts : list Packet) :
  Forall wfNode todo → Forall wfPacket pkts →
  let '(us, _, pkts') :=
    maintainAll cur playbackSpeed draw k todo votes pkts in
  id <$> us = id <$> todo ∧ Forall wfNode us ∧ Forall wfPacket pkts'.
Proof.
  revert k votes pkts. induction todo as [|n todo IH];
    intros k votes pkts Hall Hp; cbn; [done|].
  apply Forall_cons in Hall as [Hn Hall].
  pose proof (maintain_wf cur playbackSpeed (draw k) n votes pkts Hn Hp) as H1.
  destruct (maintain _ _ _ _ _ _) as [[u votes1] pkts1].
  destruct H1 as (Hid & Hu & Hp1).
  specialize (IH (S k) votes1 pkts1 Hall Hp1).
  destruct (maintainAll _ _ _ _ _ _ _) as [[us votes2] pkts2].
  destruct IH as (Hids & Hus & Hp2).
  split; [cbn; congruence|]. split; [by constructor|done].
Qed.

Lemma wfPacket_advance (p : Packet) : wfPacket p → wfPacket (advance p).
Proof. done. Qed.

Lemma tick_wf (paused : bool) (playbackSpeed : Q) (draw : nat → Z)
    (e e' : Engine) :
  wfEngine e → tick paused playbackSpeed draw e = Some e' → wfEngine e'.
Proof.
  intros [Hc Hp]. unfold tick. destruct paused; [by intros [= <-]|].
  assert (Hmoved : Forall wfPacket (advance <$> packets e)).
  { apply Forall_fmap. eapply Forall_impl; [exact Hp|].
    intros p. apply wfPacket_advance. }
  destruct (deliverAll _ _) as [w|] eqn:Hd; [|done].
  apply deliverAll_wf in Hd as [[Hids Hall] Hs];
    [|split; [done|by apply Forall_filter]|by apply Forall_filter].
  pose proof (maintainAll_wf (currentNodes w) playbackSpeed draw 0
                (currentNodes w) (currentVotes w) (survivingPackets w)
                Hall Hs) as H.
  destruct (maintainAll _ _ _ _ _ _ _) as [[ns votes] pkts].
  destruct H as (Hids' & Hns & Hpk). intros [= <-].
  split; [split; [cbn; congruence|done]|done].
Qed.

Lemma toggleNodeState_wf (i timeout : Z) (e : Engine) :
  wfEngine e → wfEngine (toggleNodeState i timeout e).
Proof.
  intros [Hc Hp]. unfold toggleNodeState.
  destruct (list_find _ _) as [[k n]|] eqn:Hfind; [|done].
  apply list_find_Some in Hfind as (Hk & _ & _).
  split; [|done]. cbn.
  eapply wfCluster_insert; [done| | |done].
  - by destruct (toggleNode_frame timeout n) as [-> _].
  - eapply wfNode_keeps; [|by eapply wfCluster_lookup].
    unfold keepsLeaderMaps, toggleNode. case_bool_decide; cbn;
      intuition discriminate.
Qed.

Lemma proposeLog_wf (cmd : string) (e : Engine) :
  wfEngine e → wfEngine (proposeLog cmd e).
Proof.
  intros [Hc Hp]. unfold proposeLog.
  destruct (list_find _ _) as [[k n]|] eqn:Hfind; [|done].
  apply list_find_Some in Hfind as (Hk & _ & _).
  split; [|done]. cbn.
  eapply wfCluster_insert; [done|done| |done].
  eapply wfNode_keeps; [|by eapply wfCluster_lookup].
  unfold keepsLeaderMaps. done.
Qed.

Lemma initialEngine_wf (draws : list (Z * Z)) :
  length draws = Z.to_nat NODE_COUNT → wfEngine (initialEngine draws).
Proof.
  intros Hlen.
  destruct draws as [|d0 [|d1 [|d2 [|d3 [|d4 [|]]]]]]; try discriminate.
  split; [|by constructor]. split; [done|].
  repeat constructor; cbn; try done; by apply (bool_decide_unpack _).
Qed.

Lemma reachable_wf (e : Engine) : reachable e → wfEngine e.
Proof.
  induction 1; eauto using initialEngine_wf, tick_wf, toggleNodeState_wf,
    proposeLog_wf.
Qed.

Lemma midTick_wf (w : Work) (todo : list Packet) :
  midTick w todo → wfWork w ∧ Forall wfPacket todo.
Proof.
  induction 1 as [e He|w w' p todo _ [Hw Hall] Hd].
  - apply reachable_wf in He as [Hc Hp].
    assert (Hmoved : Forall wfPacket (advance <$> packets e)).
    { apply Forall_fmap. eapply Forall_impl; [exact Hp|].
      intros p. apply wfPacket_advance. }
    split; [split; [done|]|]; by apply Forall_filter.
  - apply Forall_cons in Hall as [Hp Hall].
    split; [by eapply deliver_wf|done].
Qed.

End WellFormed.

Section CommitRule.

Implicit Types (cluster : list RaftNode) (m : gmap Z Z).

(** The values of a map whose keys are the ids of the cluster, listed
    along the cluster. *)
Lemma objectValues_cluster cluster m :
  NoDup (id <$> cluster) →
  (∀ i, i ∈ id <$> cluster → is_Some (m !! i)) →
  (∀ k v, m !! k = Some v → k ∈ id <$> cluster) →
  objectValues m ≡ₚ (λ n : RaftNode, default 0 (m !! id n)) <$> cluster.
Proof.
  intros Hnd Hdom Hkeys.
  set (l := (λ n : RaftNode, (id n, default 0 (m !! id n))) <$> cluster).
  assert (Hl1 : l.*1 = id <$> cluster).
  { unfold l. rewrite <- list_fmap_compose. done. }
  assert (Hm : m = list_to_map l).
  { apply map_eq. intros k. apply option_eq. intros v.
    rewrite <- elem_of_list_to_map by by rewrite Hl1.
    unfold l. rewrite list_elem_of_fmap. split.
    - intros Hk. pose proof (Hkeys _ _ Hk) as Hin.
      apply list_elem_of_fmap in Hin as (n & -> & Hn).
      exists n. by rewrite Hk.
    - intros (n & [= -> ->] & Hn).
      destruct (Hdom (id n)) as [v Hv]; [by apply list_elem_of_fmap_2|].
      by rewrite Hv. }
  unfold objectValues. rewrite Hm at 1.
  rewrite map_to_list_to_map by by rewrite Hl1.
  unfold l. by rewrite <- list_fmap_compose.
Qed.

Lemma filter_none {A} (P : A → Prop) `{!∀ x, Decision (P x)} (l : list A) :
  (∀ x, x ∈ l → ¬ P x) → filter P l = [].
Proof.
  induction l as [|y l IH]; intros Hall; [done|].
  rewrite filter_cons, decide_False by (apply Hall; by left).
  apply IH. intros x Hx. apply Hall. by right.
Qed.

Lemma filter_id_singleton cluster (x : RaftNode) (i : Z) :
  NoDup (id <$> cluster) → x ∈ cluster → id x = i →
  filter (λ n : RaftNode, id n = i) cluster = [x].
Proof.
  intros Hnd Hx <-.
  induction cluster as [|y cluster IH]; [by inversion Hx|].
  rewrite fmap_cons in Hnd. apply NoDup_cons in Hnd as [Hy Hnd].
  rewrite filter_cons. apply elem_of_cons in Hx as [->|Hx].
  - rewrite decide_True by done. f_equal.
    apply filter_none. intros z Hz Hid.
    apply Hy. rewrite <- Hid. by apply list_elem_of_fmap_2.
  - rewrite decide_False; [by apply IH|].
    intros Hid. apply Hy. rewrite Hid. by apply list_elem_of_fmap_2.
Qed.

Lemma omap_lookup_default m (ns : list RaftNode) :
  (∀ n, n ∈ ns → is_Some (m !! id n)) →
  omap (λ p : RaftNode, m !! id p) ns
  = (λ p : RaftNode, default 0 (m !! id p)) <$> ns.
Proof.
  induction ns as [|n ns IH]; intros H; [done|].
  cbn. destruct (H n) as [v Hv]; [by left|]. rewrite Hv. cbn.
  f_equal. apply IH. intros z Hz. apply H. by right.
Qed.

(** The array the source sorts is the leader's last index, the leader's
    own [matchIndex] entry, and the peers' entries. *)
Lemma objectValues_peers cluster (leader : RaftNode) :
  NoDup (id <$> cluster) →
  (∃ x, x ∈ cluster ∧ id x = id leader) →
  (∀ i, i ∈ id <$> cluster → is_Some (matchIndex leader !! i)) →
  (∀ k v, matchIndex leader !! k = Some v → k ∈ id <$> cluster) →
  matchIndex leader !! id leader = Some 0 →
  objectValues (matchIndex leader) ≡ₚ 0 :: peerMatchIndexes cluster leader.
Proof.
  intros Hnd (x & Hx & Hid) Hdom Hkeys Hself.
  rewrite objectValues_cluster by done.
  etrans.
  { apply fmap_Permutation. symmetry.
    apply (filter_app_complement (λ n : RaftNode, id n = id leader)). }
  rewrite fmap_app.
  rewrite (filter_id_singleton cluster x) by done. cbn.
  rewrite Hid, Hself. cbn.
  constructor. unfold peerMatchIndexes. rewrite omap_lookup_default; [done|].
  intros n [_ Hn]%list_elem_of_filter. apply Hdom.
  by apply list_elem_of_fmap_2.
Qed.

Lemma peerMatchIndexes_nonneg cluster (leader : RaftNode) :
  (∀ k v, matchIndex leader !! k = Some v → 0 ≤ v) →
  Forall (λ v, 0 ≤ v) (peerMatchIndexes cluster leader).
Proof.
  intros H. apply Forall_forall. intros v Hv.
  apply list_elem_of_omap in Hv as (n & _ & Hn). eauto.
Qed.

Lemma peerMatchIndexes_length cluster (leader : RaftNode) :
  NoDup (id <$> cluster) →
  (∃ x, x ∈ cluster ∧ id x = id leader) →
  (∀ i, i ∈ id <$> cluster → is_Some (matchIndex leader !! i)) →
  S (length (peerMatchIndexes cluster leader)) = length cluster.
Proof.
  intros Hnd (x & Hx & Hid) Hdom.
  unfold peerMatchIndexes. rewrite omap_lookup_default.
  - rewrite length_fmap.
    pose proof (Permutation_length
                  (filter_app_complement (λ n : RaftNode, id n = id leader)
                     cluster)) as Hlen.
    rewrite length_app in Hlen.
    rewrite (filter_id_singleton cluster x) in Hlen by done.
    cbn in Hlen. done.
  - intros n [_ Hn]%list_elem_of_filter. apply Hdom.
    by apply list_elem_of_fmap_2.
Qed.

(** On a well-formed leader of the five-node cluster, the rank the source
    reads off its six-element array is the rank-2 value of the five
    values the design names. *)
Lemma majorityN_specCommitCandidate cluster (leader : RaftNode) :
  id <$> cluster = clusterIds →
  (∃ x, x ∈ cluster ∧ id x = id leader) →
  wfNode leader → state leader = LEADER →
  ∃ c, majorityN leader = Some c
       ∧ specCommitCandidate cluster leader = Some c
       ∧ 0 ≤ c.
Proof.
  intros Hids Hx (H1 & H2 & H3 & H4 & H5) Hl.
  assert (Hnd : NoDup (id <$> cluster)).
  { rewrite Hids. by apply (bool_decide_unpack _). }
  assert (Hdom : ∀ i, i ∈ id <$> cluster → is_Some (matchIndex leader !! i)).
  { rewrite Hids. auto. }
  assert (Hkeys : ∀ k v, matchIndex leader !! k = Some v → k ∈ id <$> cluster).
  { rewrite Hids. intros k v Hk. by apply H3 in Hk as [? _]. }
  assert (Hself : matchIndex leader !! id leader = Some 0).
  { destruct (H2 Hl (id leader) H1) as [v Hv]. by rewrite (H4 v Hv) in Hv. }
  pose proof (objectValues_peers cluster leader Hnd Hx Hdom Hkeys Hself) as Hp.
  pose proof (peerMatchIndexes_length cluster leader Hnd Hx Hdom) as Hlen.
  assert (length cluster = 5%nat) as Hc.
  { rewrite <- (length_fmap id), Hids. done. }
  destruct (sortDesc_rank2_nonneg (llen (log leader) - 1)
              (peerMatchIndexes cluster leader)) as (c & Hc2 & Hc0).
  { lia. }
  { apply peerMatchIndexes_nonneg. intros k v Hk. by apply H3 in Hk as [_ ?]. }
  exists c. split; [|split; [exact Hc2|done]].
  unfold majorityN.
  rewrite (sortDesc_proper _
             (0 :: (llen (log leader) - 1) :: peerMatchIndexes cluster leader)).
  - change (sortDesc (0 :: ?l)) with (insertDesc 0 (sortDesc l)).
    apply insertDesc_rank; [|exact Hc2|done].
    apply sortDesc_sorted.
  - rewrite Hp. apply Permutation_swap.
Qed.

(** C5.  Inside a tick started in a reachable state, when the next packet
    is a successful AppendResponse for a leader and carries the leader's
    term: the handler records [matchIndex[from]] and [nextIndex[from]];
    the commit candidate it computes is the value of rank
    [floor (NODE_COUNT / 2)] in the descending sort of the leader's last
    log index together with the [matchIndex] of every peer; and
    [commitIndex] becomes that value exactly when the value exceeds the
    current [commitIndex] and the leader's log entry at it has the
    leader's current term (otherwise [commitIndex] is unchanged). *)
Theorem leader_commit_rule (w : Work) (todo : list Packet) (p : Packet)
    (i : nat) (leader : RaftNode) (t mi : Z) :
  midTick w (p :: todo) →
  payload p = AppendResponse t true mi →
  list_find (λ n : RaftNode, id n = to p) (currentNodes w) = Some (i, leader) →
  state leader = LEADER →
  t = currentTerm leader →
  let updated :=
    set_nextIndex (<[from p := mi + 1]> (nextIndex leader))
      (set_matchIndex (<[from p := mi]> (matchIndex leader)) leader) in
  let leader' := processAppendResponse leader (from p) t true mi in
  ∃ c : Z,
    deliver w p
    = Some (mkWork (<[i := leader']> (currentNodes w)) (currentVotes w)
              (survivingPackets w))
    ∧ matchIndex leader' = <[from p := mi]> (matchIndex leader)
    ∧ nextIndex leader' = <[from p := mi + 1]> (nextIndex leader)
    ∧ majorityN updated = Some c
    ∧ specCommitCandidate (currentNodes w) updated = Some c
    ∧ (commitIndex leader' = c ∧ commitIndex leader < c
       ∧ (∃ e, log leader !! Z.to_nat c = Some e
               ∧ term e = currentTerm leader)
       ∨ commitIndex leader' = commitIndex leader
         ∧ ¬ (commitIndex leader < c
              ∧ ∃ e, log leader !! Z.to_nat c = Some e
                     ∧ term e = currentTerm leader)).
Proof.
  intros Hmid Hpl Hfind Hl Ht updated leader'.
  apply midTick_wf in Hmid as [[Hc _] Hall].
  apply Forall_cons in Hall as [Hp _].
  unfold wfPacket in Hp. rewrite Hpl in Hp. destruct Hp as (Hne & Hfrom & Hmi).
  pose proof Hfind as (Hi & Hto & _)%list_find_Some.
  pose proof (wfCluster_lookup _ _ _ Hc Hi) as Hwf.
  assert (Hpre : processAppendResponse leader (from p) t true mi
                 = if commitGuard updated (majorityN updated)
                   then set_commitIndex (default 0 (majorityN updated)) updated
                   else updated).
  { unfold processAppendResponse. subst t.
    destruct (Z.ltb_spec (currentTerm leader) (currentTerm leader)); [lia|].
    rewrite bool_decide_eq_true_2 by done. rewrite Z.eqb_refl. done. }
  assert (Hwfu : wfNode updated).
  { pose proof (processAppendResponse_wf leader (from p) t true mi Hwf Hfrom
                  ltac:(congruence) Hmi) as H.
    rewrite Hpre in H. destruct (commitGuard _ _); [|done].
    eapply wfNode_keeps; [|exact H]. unfold keepsLeaderMaps. done. }
  destruct (majorityN_specCommitCandidate (currentNodes w) updated)
    as (c & Hmaj & Hspec & Hc0); [apply Hc| |done|done|].
  { exists leader. split; [by eapply list_elem_of_lookup_2|done]. }
  exists c. split; [|split; [|split; [|split; [done|split; [done|]]]]].
  - unfold deliver. rewrite Hfind.
    rewrite bool_decide_eq_false_2 by congruence. by rewrite Hpl.
  - subst leader'. rewrite Hpre. by destruct (commitGuard _ _).
  - subst leader'. rewrite Hpre. by destruct (commitGuard _ _).
  - subst leader'. rewrite Hpre, Hmaj. unfold commitGuard.
    change (commitIndex updated) with (commitIndex leader).
    change (log updated) with (log leader).
    change (currentTerm updated) with (currentTerm leader).
    unfold log_at. destruct (Z.ltb_spec c 0); [lia|].
    destruct (Z.ltb_spec (commitIndex leader) c) as [Hlt|Hge]; cbn [andb].
    + destruct (log leader !! Z.to_nat c) as [e|] eqn:He.
      * destruct (Z.eqb_spec (term e) (currentTerm leader)) as [Hte|Hte].
        -- left. cbn. eauto.
        -- right. split; [done|]. intros (_ & e' & [= <-] & ?). done.
      * right. split; [done|]. intros (_ & e' & ? & _). done.
    + right. split; [done|]. intros [? _]. lia.
Qed.

End CommitRule.

(** ** Scripted runs stay within the reachable states *)

Lemma runTicks_reachable (count : nat) (playbackSpeed : Q) (timeout : Z)
    (e e' : Engine) :
  reachable e → runTicks count playbackSpeed timeout e = Some e' →
  reachable e'.
Proof.
  revert e. induction count as [|count IH]; intros e He; cbn [runTicks].
  - by intros [= <-].
  - destruct (tick false playbackSpeed (λ _, timeout) e) as [e1|] eqn:Ht;
      [|done].
    apply IH. by eapply reachable_tick.
Qed.

Lemma runScript_reachable (script : list Action) (e e' : Engine) :
  reachable e → runScript script e = Some e' → reachable e'.
Proof.
  revert e. induction script as [|a script IH]; intros e He; cbn [runScript].
  - by intros [= <-].
  - destruct (runAction a e) as [e1|] eqn:Ha; [|done].
    apply IH. destruct a as [count ps t|i t|cmd]; cbn [runAction] in Ha.
    + by eapply runTicks_reachable.
    + injection Ha as <-. by apply reachable_toggle.
    + injection Ha as <-. by apply reachable_propose.
Qed.

Lemma sampleInitial_reachable : reachable sampleInitial.
Proof. by apply reachable_init. Qed.

Lemma midTick_start_eq (e : Engine) (w : Work) (todo : list Packet) :
  reachable e →
  w = mkWork (nodes e) (votesReceived e)
        (filter (λ p, hasArrived p = false) (advance <$> packets e)) →
  todo = filter (λ p, hasArrived p = true) (advance <$> packets e) →
  midTick w todo.
Proof. intros He -> ->. by apply midTick_start. Qed.

Lemma sampleEngine_reachable : reachable sampleEngine.
Proof.
  eapply (runScript_reachable sampleScript sampleInitial);
    [exact sampleInitial_reachable|vm_compute; reflexivity].
Qed.

Lemma sampleWork_midTick : midTick sampleWork sampleArrived.
Proof.
  eapply (midTick_start_eq sampleEngine);
    [exact sampleEngine_reachable|vm_compute; reflexivity..].
Defined.

Lemma leader_commit_rule_witness :
  payload sampleAck = AppendResponse 1 true 0
  ∧ state sampleWorkLeader = LEADER
  ∧ specCommitCandidate (currentNodes sampleWork)
      (set_nextIndex (<[from sampleAck := 0 + 1]> (nextIndex sampleWorkLeader))
         (set_matchIndex
            (<[from sampleAck := 0]> (matchIndex sampleWorkLeader))
            sampleWorkLeader))
    = Some 0
  ∧ commitIndex (processAppendResponse sampleWorkLeader (from sampleAck)
                   1 true 0) = 0.
Proof.
  destruct (leader_commit_rule sampleWork (tail sampleArrived) sampleAck
              1%nat sampleWorkLeader 1 0)
    as (c & _ & _ & _ & Hmaj & Hspec & _).
  - exact sampleWork_midTick.
  - reflexivity.
  - vm_compute. reflexivity.
  - reflexivity.
  - reflexivity.
  - assert (c = 0) as ->.
    { vm_compute in Hmaj. by injection Hmaj as <-. }
    split; [reflexivity|]. split; [reflexivity|]. split; [exact Hspec|].
    vm_compute. reflexivity.
Defined.

(** ** Election safety *)

Section ElectionSafety.

Implicit Types (fv : FirstVotes) (ns : list RaftNode) (n m : RaftNode)
  (vs : gmap Z (gset Z)) (arr sv : list Packet) (p q : Packet) (T : Z).

Lemma clusterIds_NoDup : NoDup clusterIds.
Proof. by apply (bool_decide_unpack _). Qed.

(** Two quorums of first votes of one term are for the same candidate:
    three voters each would need six distinct nodes. *)
Lemma quorum_unique fv (a c T : Z) :
  (∀ i T c, fv i T = Some c → i ∈ clusterIds) →
  quorum fv a T → quorum fv c T → a = c.
Proof.
  intros Hdom (Ha & a1 & a2 & Ha12 & Ha1 & Ha2 & Hv1 & Hv2)
    (Hc & c1 & c2 & Hc12 & Hc1 & Hc2 & Hw1 & Hw2).
  destruct (decide (a = c)) as [|Hne]; [done|exfalso].
  assert (Hnd : NoDup [a; a1; a2; c; c1; c2]).
  { rewrite !NoDup_cons, !not_elem_of_cons, !elem_of_nil.
    repeat split; try done; try (intros ->; congruence); auto.
    apply NoDup_nil_2. }
  assert (Hsub : [a; a1; a2; c; c1; c2] ⊆+ clusterIds).
  { apply NoDup_submseteq; [done|]. intros x Hx.
    repeat (apply elem_of_cons in Hx as [->|Hx]; [by eapply Hdom|]).
    by apply elem_of_nil in Hx. }
  apply submseteq_length in Hsub. cbn in Hsub. lia.
Qed.

Lemma fvLe_refl fv : fvLe fv fv.
Proof. by intros i T c. Qed.

Lemma recordVote_le fv (i T c : Z) : fvLe fv (recordVote fv i T c).
Proof.
  intros i' T' c' H. unfold recordVote. case_decide as Hd; [|done].
  destruct Hd as [-> ->]. by rewrite H.
Qed.

Lemma recordVote_other fv (i T c i' T' : Z) :
  i' ≠ i ∨ T' ≠ T → recordVote fv i T c i' T' = fv i' T'.
Proof. intros H. unfold recordVote. rewrite decide_False; [done|]. tauto. Qed.

Lemma recordVote_fresh fv (i T c : Z) :
  fv i T = None → recordVote fv i T c i T = Some c.
Proof. intros H. unfold recordVote. rewrite decide_True by done. by rewrite H. Qed.

Lemma recordVote_dom fv (i T c : Z) :
  i ∈ clusterIds →
  (∀ i T c, fv i T = Some c → i ∈ clusterIds) →
  ∀ i' T' c', recordVote fv i T c i' T' = Some c' → i' ∈ clusterIds.
Proof.
  intros Hi Hdom i' T' c'. unfold recordVote. case_decide as Hd; [|apply Hdom].
  destruct Hd as [-> ->]. done.
Qed.

Lemma quorum_le fv fv' (c T : Z) : fvLe fv fv' → quorum fv c T → quorum fv' c T.
Proof.
  intros Hle (Hc & a & b & ? & ? & ? & Ha & Hb).
  split; [by apply Hle|]. exists a, b. repeat split; auto.
Qed.

Lemma voteOk_le fv fv' T p : fvLe fv fv' → voteOk fv T p → voteOk fv' T p.
Proof. intros Hle H Hg. destruct (H Hg). split; [by apply Hle|done]. Qed.

(** ** Nodes of a cluster with distinct ids *)

Lemma lookup_same_id ns (i j : nat) n m :
  NoDup (id <$> ns) → ns !! i = Some n → ns !! j = Some m → id n = id m →
  i = j.
Proof.
  intros Hnd Hi Hj Hid. eapply NoDup_lookup; [exact Hnd| |].
  - rewrite list_lookup_fmap, Hi. done.
  - rewrite list_lookup_fmap, Hj. cbn. by rewrite Hid.
Qed.

Lemma Forall_insert_others (P : RaftNode → Prop) ns (i : nat) n n' :
  NoDup (id <$> ns) → ns !! i = Some n →
  (∀ m, m ∈ ns → id m ≠ id n → P m) → P n' →
  Forall P (<[i := n']> ns).
Proof.
  intros Hnd Hi Hothers Hn'. apply Forall_forall. intros m Hm.
  apply list_elem_of_lookup in Hm as [j Hj].
  destruct (decide (j = i)) as [->|Hne].
  - rewrite list_lookup_insert_eq in Hj by (by eapply lookup_lt_Some).
    by injection Hj as <-.
  - rewrite list_lookup_insert_ne in Hj by done.
    apply Hothers; [by eapply list_elem_of_lookup_2|].
    intros Hid. apply Hne. by eapply lookup_same_id.
Qed.

Lemma fmap_id_insert ns (i : nat) n n' :
  ns !! i = Some n → id n' = id n → id <$> <[i := n']> ns = id <$> ns.
Proof.
  intros Hi Hid. rewrite list_fmap_insert, Hid.
  apply list_insert_id. by rewrite list_lookup_fmap, Hi.
Qed.

(** ** Stability of the node predicates *)

Lemma notified_mono T n n' :
  currentTerm n ≤ currentTerm n' →
  (state n' = CANDIDATE → state n = CANDIDATE ∧ currentTerm n' = currentTerm n) →
  notified T n → notified T n'.
Proof.
  intros Hle Hc [H1 H2]. split; [lia|]. intros [Hs Ht].
  destruct (Hc Hs) as [Hs' Ht']. apply H2. split; [done|lia].
Qed.

#[local] Instance isAE_dec T q : Decision (isAE T q).
Proof. unfold isAE. destruct (payload q); apply _. Defined.

Lemma covered_rest T p rest ns (i : nat) n n' :
  NoDup (id <$> ns) → ns !! i = Some n → id n = to p → id n' = id n →
  (notified T n → notified T n') →
  (isAE T p → notified T n') →
  Forall (covered T (p :: rest)) ns →
  Forall (covered T rest) (<[i := n']> ns).
Proof.
  intros Hnd Hi Hto Hid Hnot Hae Hall. rewrite Forall_forall in Hall.
  apply (Forall_insert_others _ ns i n n' Hnd Hi).
  - intros m Hm Hne. destruct (Hall m Hm) as [?|(q & Hq & Hqae & Hqto)];
      [by left|right].
    exists q. split; [|done]. apply elem_of_cons in Hq as [->|Hq]; [|done].
    congruence.
  - destruct (Hall n) as [?|(q & Hq & Hqae & Hqto)];
      [by eapply list_elem_of_lookup_2|left; auto|].
    apply elem_of_cons in Hq as [->|Hq]; [left; auto|].
    right. exists q. split; [done|]. split; [done|]. congruence.
Qed.

Lemma coveredWith_more T sv extra q n :
  coveredWith T sv q n → coveredWith T (sv ++ extra) q n.
Proof.
  intros [?|(q' & Hq' & H)]; [by left|right].
  exists q'. split; [|done]. apply elem_of_app. by left.
Qed.

Lemma nodeGhost_other fv fv' n m :
  fvLe fv fv' → (∀ i' T', i' ≠ id n → fv' i' T' = fv i' T') →
  id m ≠ id n → nodeGhost fv m → nodeGhost fv' m.
Proof.
  intros Hle Hloc Hne (G1 & G2 & G3). split; [|split].
  - intros T HT. rewrite Hloc by done. auto.
  - intros Hs. apply Hle. auto.
  - intros Hs. eapply quorum_le; eauto.
Qed.

Lemma trackerOk_other fv fv' vs vs' T n m :
  fvLe fv fv' → (∀ k, k ≠ id n → vs' !! k = vs !! k) →
  id m ≠ id n → trackerOk fv vs T m → trackerOk fv' vs' T m.
Proof.
  intros Hle Hvs Hne H Hs Ht v Hv. rewrite Hvs in Hv by done.
  destruct (H Hs Ht v Hv). split; [by apply Hle|done].
Qed.

Lemma voteEq_other fv fv' T n m :
  (∀ i' T', i' ≠ id n → fv' i' T' = fv i' T') →
  id m ≠ id n → voteEq fv T m → voteEq fv' T m.
Proof. intros Hloc Hne H Ht. rewrite Hloc by done. auto. Qed.

(** The effect of delivering one packet to node [n], in terms of what the
    handler does to the node, the tracker, the history variable, and the
    packets it adds. *)
Lemma electionInv_step fv fv' ns vs vs' p rest sv extra (i : nat) n n' :
  electionInv fv ns vs (p :: rest) sv →
  ns !! i = Some n → id n = to p →
  id n' = id n → state n' ≠ CRASHED →
  (∀ T, notified T n → notified T n') →
  nodeGhost fv' n' →
  fvLe fv fv' → (∀ i' T', i' ≠ id n → fv' i' T' = fv i' T') →
  (∀ i' T' c', fv' i' T' = Some c' → i' ∈ clusterIds) →
  (∀ T, isAE T p → notified T n') →
  (∀ T, trackerOk fv vs T n → voteOk fv T p → trackerOk fv' vs' T n') →
  (∀ k, k ≠ id n → vs' !! k = vs !! k) →
  (∀ T, ¬ isAE T p → voteEq fv T n → voteEq fv' T n') →
  Forall requestOk extra →
  (∀ T, voteEq fv T n → Forall (voteOk fv' T) extra) →
  Forall (λ q, ∀ T, ¬ isAE T q) extra →
  electionInv fv' (<[i := n']> ns) vs' rest (sv ++ extra).
Proof.
  intros ((Hids & Hnc & Hgh & Hdom) & Hreq & Hph) Hi Hto Hid Halive Hnot
    Hghost Hle Hloc Hdom' Hae Htrack Hvs Hveq Hreqx Hvotex Haex.
  assert (Hnd : NoDup (id <$> ns)) by (rewrite Hids; apply clusterIds_NoDup).
  assert (Hn : n ∈ ns) by by eapply list_elem_of_lookup_2.
  rewrite Forall_forall in Hnc, Hgh.
  split; [|split].
  - (* the base invariant *)
    split; [by rewrite (fmap_id_insert ns i n n')|].
    split; [|split; [|done]].
    + apply (Forall_insert_others _ ns i n n' Hnd Hi); auto.
    + apply (Forall_insert_others _ ns i n n' Hnd Hi); [|done].
      intros m Hm Hne. eapply nodeGhost_other; eauto.
  - (* RequestVote packets *)
    apply Forall_cons in Hreq as [_ Hreq].
    rewrite app_assoc. apply Forall_app. done.
  - intros T. destruct (Hph T) as [Hcl|[(Hcov & Htr & Hvo)|Hop]].
    + (* closed *)
      left. unfold closedPhase in *. rewrite Forall_forall in Hcl.
      apply (Forall_insert_others _ ns i n n' Hnd Hi); auto.
    + (* closing *)
      right; left. apply Forall_cons in Hvo as [Hvp Hvo].
      rewrite Forall_forall in Htr.
      split; [|split].
      * by apply (covered_rest T p rest ns i n n' Hnd Hi Hto Hid (Hnot T)
                    (Hae T)).
      * apply (Forall_insert_others _ ns i n n' Hnd Hi); [|by auto].
        intros m Hm Hne. eapply trackerOk_other; eauto.
      * eapply Forall_impl; [exact Hvo|]. intros q. by apply voteOk_le.
    + destruct Hop as (Hve & Htr & Hvo & Hmid & Hsv).
      rewrite <- app_comm_cons in Hvo. apply Forall_cons in Hvo as [Hvp Hvo].
      rewrite Forall_forall in Htr, Hve.
      assert (Htr' : Forall (trackerOk fv' vs' T) (<[i := n']> ns)).
      { apply (Forall_insert_others _ ns i n n' Hnd Hi); [|by auto].
        intros m Hm Hne. eapply trackerOk_other; eauto. }
      assert (Hvo' : Forall (voteOk fv' T) (rest ++ sv)).
      { eapply Forall_impl; [exact Hvo|]. intros q. by apply voteOk_le. }
      destruct (decide (isAE T p)) as [Hp|Hp].
      * (* the heartbeat of term T arrives: the term starts closing *)
        right; left. split; [|split; [done|]].
        -- apply (covered_rest T p rest ns i n n' Hnd Hi Hto Hid (Hnot T)
                    (Hae T)).
           apply Hmid. exists p. split; [by left|done].
        -- apply Forall_app in Hvo' as [? _]. done.
      * right; right. split; [|split; [done|split; [|split]]].
        -- apply (Forall_insert_others _ ns i n n' Hnd Hi); [|by auto].
           intros m Hm Hne. eapply voteEq_other; eauto.
        -- rewrite app_assoc. apply Forall_app. split; [done|]. auto.
        -- intros (q & Hq & Hqae).
           apply (covered_rest T p rest ns i n n' Hnd Hi Hto Hid (Hnot T)).
           ++ intros Hpae. by destruct Hp.
           ++ apply Hmid. exists q. split; [by right|done].
        -- apply Forall_app. split.
           ++ eapply Forall_impl; [exact Hsv|]. intros q Hq Hqae.
              specialize (Hq Hqae). rewrite Forall_forall in Hq.
              apply (Forall_insert_others _ ns i n n' Hnd Hi).
              ** intros m Hm _. by apply coveredWith_more, Hq.
              ** apply coveredWith_more.
                 destruct (Hq n Hn) as [?|(q' & Hq' & H1 & H2 & H3)];
                   [left; auto|right].
                 exists q'. split; [done|]. split; [done|].
                 split; [congruence|done].
           ++ eapply Forall_impl; [exact Haex|]. intros q Hq Hqae.
              by destruct (Hq T).
Qed.

(** A packet for an id that no node has is dropped. *)
Lemma electionInv_drop fv ns vs p rest sv :
  electionInv fv ns vs (p :: rest) sv →
  (∀ m, m ∈ ns → id m ≠ to p) →
  electionInv fv ns vs rest sv.
Proof.
  intros (Hbase & Hreq & Hph) Hnone. split; [done|split].
  { by apply Forall_cons in Hreq as [_ ?]. }
  assert (Hcov : ∀ T, Forall (covered T (p :: rest)) ns →
                      Forall (covered T rest) ns).
  { intros T Hall. rewrite Forall_forall in Hall. apply Forall_forall.
    intros m Hm. destruct (Hall m Hm) as [?|(q & Hq & Hqae & Hqto)];
      [by left|right].
    exists q. split; [|done]. apply elem_of_cons in Hq as [->|Hq]; [|done].
    destruct (Hnone m Hm). done. }
  intros T. destruct (Hph T) as [Hcl|[(Hcov1 & Htr & Hvo)|Hop]].
  - by left.
  - right; left. split; [auto|split; [done|]].
    by apply Forall_cons in Hvo as [_ ?].
  - right; right. destruct Hop as (Hve & Htr & Hvo & Hmid & Hsv).
    split; [done|split; [done|split; [|split; [|done]]]].
    + rewrite <- app_comm_cons in Hvo. by apply Forall_cons in Hvo as [_ ?].
    + intros (q & Hq & Hqae). apply Hcov, Hmid. exists q.
      split; [by right|done].
Qed.

(** A candidate's term is closing or open, never closed. *)
Lemma candidate_phase fv ns vs p rest sv n :
  electionInv fv ns vs (p :: rest) sv → n ∈ ns → state n = CANDIDATE →
  trackerOk fv vs (currentTerm n) n ∧ voteOk fv (currentTerm n) p.
Proof.
  intros (_ & _ & Hph) Hn Hs.
  destruct (Hph (currentTerm n)) as [Hcl|[(_ & Htr & Hvo)|Hop]].
  - unfold closedPhase in Hcl. rewrite Forall_forall in Hcl.
    destruct (Hcl n Hn) as [_ Hneg]. destruct Hneg. done.
  - rewrite Forall_forall in Htr. apply Forall_cons in Hvo as [? _]. auto.
  - destruct Hop as (_ & Htr & Hvo & _). rewrite Forall_forall in Htr.
    rewrite <- app_comm_cons in Hvo. apply Forall_cons in Hvo as [? _]. auto.
Qed.

Lemma electionInv_node fv ns vs arr sv n :
  electionInv fv ns vs arr sv → n ∈ ns →
  id n ∈ clusterIds ∧ state n ≠ CRASHED ∧ nodeGhost fv n.
Proof.
  intros ((Hids & Hnc & Hgh & _) & _) Hn.
  rewrite Forall_forall in Hnc, Hgh. split; [|auto].
  rewrite <- Hids. by apply list_elem_of_fmap_2.
Qed.

(** Delivery that turns the node into a follower without a vote: the
    adoption of a newer term, or an AppendEntries of a term that is not
    stale. *)
Lemma electionInv_step_follower fv ns vs p rest sv extra (i : nat) n n' :
  electionInv fv ns vs (p :: rest) sv →
  ns !! i = Some n → id n = to p →
  id n' = id n → state n' = FOLLOWER → votedFor n' = None →
  currentTerm n ≤ currentTerm n' →
  (currentTerm n' = currentTerm n → isAE (currentTerm n') p) →
  (∀ T, isAE T p → T = currentTerm n') →
  Forall (λ q, requestOk q ∧ ∀ T, ¬ isGrant T q ∧ ¬ isAE T q) extra →
  electionInv fv (<[i := n']> ns) vs rest (sv ++ extra).
Proof.
  intros Hinv Hi Hto Hid Hs Hv Hterm Heq Hae Hextra.
  destruct (electionInv_node _ _ _ _ _ n Hinv) as (Hin & Hnc & G4 & _ & _);
    [by eapply list_elem_of_lookup_2|].
  apply (electionInv_step fv fv ns vs vs p rest sv extra i n n' Hinv Hi Hto
           Hid).
  - by rewrite Hs.
  - intros T. apply notified_mono; [done|]. intros Hc. by rewrite Hs in Hc.
  - split; [|split]; [|by rewrite Hs..].
    intros T HT. rewrite Hid. apply G4. lia.
  - apply fvLe_refl.
  - done.
  - destruct Hinv as ((_ & _ & _ & ?) & _). done.
  - intros T HT. apply Hae in HT as ->. split; [lia|].
    intros [Hc _]. by rewrite Hs in Hc.
  - intros T _ _ Hc. by rewrite Hs in Hc.
  - done.
  - intros T Hnae _ Ht. rewrite Hv, Hid. symmetry. apply G4.
    destruct (decide (currentTerm n' = currentTerm n)) as [Heq'|]; [|lia].
    apply Heq in Heq'. subst T. done.
  - eapply Forall_impl; [exact Hextra|]. by intros q [? _].
  - intros T _. eapply Forall_impl; [exact Hextra|]. intros q [_ Hq] Hg.
    by destruct (Hq T) as [? _].
  - eapply Forall_impl; [exact Hextra|]. intros q [_ Hq] T. apply Hq.
Qed.

(** Delivery that leaves role, term and vote of the node alone. *)
Lemma electionInv_step_same fv ns vs p rest sv extra (i : nat) n n' :
  electionInv fv ns vs (p :: rest) sv →
  ns !! i = Some n → id n = to p →
  id n' = id n → state n' = state n → currentTerm n' = currentTerm n →
  votedFor n' = votedFor n →
  (∀ T, isAE T p → notified T n) →
  Forall (λ q, requestOk q ∧ ∀ T, ¬ isGrant T q ∧ ¬ isAE T q) extra →
  electionInv fv (<[i := n']> ns) vs rest (sv ++ extra).
Proof.
  intros Hinv Hi Hto Hid Hs Ht Hv Hae Hextra.
  destruct (electionInv_node _ _ _ _ _ n Hinv) as (Hin & Hnc & G4 & G5 & G6);
    [by eapply list_elem_of_lookup_2|].
  apply (electionInv_step fv fv ns vs vs p rest sv extra i n n' Hinv Hi Hto
           Hid).
  - by rewrite Hs.
  - intros T. apply notified_mono; [lia|]. rewrite Hs, Ht. done.
  - unfold nodeGhost. rewrite Hid, Hs, Ht. done.
  - apply fvLe_refl.
  - done.
  - destruct Hinv as ((_ & _ & _ & ?) & _). done.
  - intros T HT. apply Hae in HT. apply (notified_mono T n n'); [lia| |done].
    rewrite Hs, Ht. done.
  - intros T Htr _. unfold trackerOk. rewrite Hs, Ht, Hid. done.
  - done.
  - intros T _ Hve. unfold voteEq. rewrite Ht, Hv, Hid. done.
  - eapply Forall_impl; [exact Hextra|]. by intros q [? _].
  - intros T _. eapply Forall_impl; [exact Hextra|]. intros q [_ Hq] Hg.
    by destruct (Hq T) as [? _].
  - eapply Forall_impl; [exact Hextra|]. intros q [_ Hq] T. apply Hq.
Qed.

(** ** The handlers, as seen by the invariant *)

Lemma processRequestVote_shape n (t c li lt : Z) :
  let n' := (processRequestVote n t c li lt).1 in
  ∃ g : bool,
    (processRequestVote n t c li lt).2
    = mkPacket (id n) c (VoteResponse (currentTerm n') g) 0 PACKET_SPEED
    ∧ id n' = id n
    ∧ (currentTerm n < t ∧ currentTerm n' = t ∧ state n' = FOLLOWER
       ∧ votedFor n' = (if g then Some c else None)
       ∨ t ≤ currentTerm n ∧ currentTerm n' = currentTerm n
         ∧ state n' = state n
         ∧ (if g
            then votedFor n' = Some c
                 ∧ (votedFor n = None ∨ votedFor n = Some c)
                 ∧ t = currentTerm n
            else votedFor n' = votedFor n)).
Proof.
  unfold processRequestVote. cbn zeta.
  destruct (Z.ltb_spec (currentTerm n) t) as [Hlt|Hge].
  - cbn [currentTerm votedFor log set_votedFor set_state set_currentTerm].
    match goal with |- context [if ?b then _ else _] => destruct b end;
      eexists; (split; [reflexivity|]); cbn; (split; [done|]); left; done.
  - match goal with |- context [if ?b then _ else _] => destruct b eqn:Hb end;
      eexists; (split; [reflexivity|]); cbn; (split; [done|]); right;
      (split; [done|]); (split; [done|]); (split; [done|]); [|done].
    apply andb_true_iff in Hb as [Hb _].
    apply andb_true_iff in Hb as [Hb1 Hb2].
    split; [done|]. split; [|lia].
    destruct (votedFor n) as [v|]; [right|by left].
    f_equal. lia.
Qed.

Lemma processAppendEntries_shape n n' (r : Packet) (t l pi pt : Z)
    (es : list LogEntry) (lc : Z) :
  processAppendEntries n t l pi pt es lc = Some (n', r) →
  id n' = id n
  ∧ (∃ t' ok mi, payload r = AppendResponse t' ok mi)
  ∧ (currentTerm n ≤ t ∧ currentTerm n' = t ∧ state n' = FOLLOWER
     ∧ votedFor n' = None
     ∨ t < currentTerm n ∧ n' = n).
Proof.
  intros H.
  destruct (Z.lt_ge_cases t (currentTerm n)) as [Hstale|Hfresh].
  { rewrite processAppendEntries_old_term in H by done. injection H as <- <-.
    split; [done|]. split; [by eexists _, _, _|]. by right. }
  destruct (processAppendEntries_fresh n t l pi pt es lc)
    as (ok & _ & Heq); [lia| |].
  { eapply processAppendEntries_Some_prev; [|by rewrite H]. lia. }
  cbn zeta in Heq. rewrite Heq in H. injection H as <- <-.
  split; [done|]. split; [by eexists _, _, _|]. left. done.
Qed.

Lemma processAppendResponse_shape n (sender t : Z) (s : bool) (mi : Z) :
  let n' := processAppendResponse n sender t s mi in
  id n' = id n
  ∧ (currentTerm n < t ∧ currentTerm n' = t ∧ state n' = FOLLOWER
     ∧ votedFor n' = None
     ∨ t ≤ currentTerm n ∧ state n' = state n
       ∧ currentTerm n' = currentTerm n ∧ votedFor n' = votedFor n).
Proof.
  unfold processAppendResponse. cbn zeta.
  destruct (Z.ltb_spec (currentTerm n) t); [split; [done|by left]|].
  repeat match goal with
         | |- context [if ?b then _ else _] => destruct b
         end; (split; [done|right; done]).
Qed.

Lemma two_elements (s : gset Z) :
  hasMajority s = true → ∃ a b, a ∈ s ∧ b ∈ s ∧ a ≠ b.
Proof.
  unfold hasMajority, NODE_COUNT. intros H%Z.ltb_lt.
  pose proof (NoDup_elements s) as Hnd.
  assert (Hlen : (2 ≤ length (elements s))%nat).
  { change (length (elements s)) with (size s). lia. }
  destruct (elements s) as [|a [|b l]] eqn:He; cbn in Hlen; try lia.
  exists a, b.
  rewrite <- !(elem_of_elements s), He. split; [by left|].
  split; [right; by left|].
  apply NoDup_cons in Hnd as [Hab _]. intros ->. apply Hab. by left.
Qed.

Lemma notAE_forall T p : (∀ T', ¬ isAE T' p) → isAE T p → False.
Proof. intros H. apply H. Qed.

(** ** One delivery preserves the invariant *)

Lemma electionInv_RequestVote fv ns vs p rest sv (i : nat) n (t c li lt : Z) :
  electionInv fv ns vs (p :: rest) sv →
  ns !! i = Some n → id n = to p →
  payload p = RequestVote t c li lt →
  ∃ fv',
    electionInv fv' (<[i := (processRequestVote n t c li lt).1]> ns) vs rest
      (sv ++ [(processRequestVote n t c li lt).2]).
Proof.
  intros Hinv Hi Hto Hpl.
  assert (Hn : n ∈ ns) by by eapply list_elem_of_lookup_2.
  destruct (electionInv_node _ _ _ _ _ n Hinv Hn) as (Hin & Hnc & G4 & G5 & G6).
  assert (Hc : c ≠ id n).
  { destruct Hinv as (_ & Hreq & _). apply Forall_cons in Hreq as [Hreq _].
    unfold requestOk in Hreq. rewrite Hpl in Hreq. congruence. }
  assert (HnoAE : ∀ T, ¬ isAE T p).
  { intros T HT. unfold isAE in HT. by rewrite Hpl in HT. }
  destruct (processRequestVote_shape n t c li lt) as (g & Hr & Hid & Hshape).
  set (n' := (processRequestVote n t c li lt).1) in *.
  set (r := (processRequestVote n t c li lt).2) in *.
  assert (Hrx : ∀ g', g = g' →
    g' = false →
    Forall (λ q, requestOk q ∧ ∀ T, ¬ isGrant T q ∧ ¬ isAE T q) [r]).
  { intros g' -> ->. apply Forall_singleton. rewrite Hr.
    unfold requestOk, isGrant, isAE. cbn. split; [done|].
    intros T. split; [congruence|tauto]. }
  destruct g.
  2:{ (* no vote is granted *)
    exists fv. destruct Hshape as [(Hlt & Ht & Hs & Hv)|(Hge & Ht & Hs & Hv)].
    - apply (electionInv_step_follower fv ns vs p rest sv [r] i n n');
        try done; [lia|lia|intros T HT; by destruct (HnoAE T)|by eapply Hrx].
    - apply (electionInv_step_same fv ns vs p rest sv [r] i n n');
        try done; [intros T HT; by destruct (HnoAE T)|by eapply Hrx]. }
  (* the vote is granted and recorded *)
  set (fv' := recordVote fv (id n) (currentTerm n') c).
  assert (Hterm : currentTerm n ≤ currentTerm n').
  { destruct Hshape as [(? & ? & _)|(? & ? & _)]; lia. }
  assert (Hv' : votedFor n' = Some c).
  { by destruct Hshape as [(_ & _ & _ & ?)|(_ & _ & _ & ? & _)]. }
  assert (Hrec : voteEq fv (currentTerm n') n →
                 fv' (id n) (currentTerm n') = Some c).
  { intros Hve. unfold fv'.
    destruct Hshape as [(Hlt & Ht & _)|(Hge & Ht & _ & _ & Hold & _)].
    - apply recordVote_fresh. apply G4. lia.
    - specialize (Hve (eq_sym Ht)). rewrite Ht in *. unfold recordVote.
      rewrite decide_True by done. rewrite <- Hve.
      by destruct Hold as [->| ->]. }
  exists fv'.
  apply (electionInv_step fv fv' ns vs vs p rest sv [r] i n n' Hinv Hi Hto Hid).
  - destruct Hshape as [(_ & _ & -> & _)|(_ & _ & -> & _)]; done.
  - intros T. apply notified_mono; [done|].
    intros Hs. destruct Hshape as [(_ & _ & Hs' & _)|(_ & ? & <- & _)];
      [congruence|done].
  - split; [|split].
    + intros T HT. unfold fv'. rewrite Hid, recordVote_other by (right; lia).
      apply G4. lia.
    + intros Hs. rewrite Hid. apply recordVote_le.
      destruct Hshape as [(_ & _ & Hs' & _)|(_ & -> & Hs' & _)];
        [congruence|]. apply G5. congruence.
    + intros Hs. rewrite Hid. eapply quorum_le; [apply recordVote_le|].
      destruct Hshape as [(_ & _ & Hs' & _)|(_ & -> & Hs' & _)];
        [congruence|]. apply G6. congruence.
  - apply recordVote_le.
  - intros i' T' Hne. apply recordVote_other. by left.
  - apply recordVote_dom; [done|]. by destruct Hinv as ((_ & _ & _ & ?) & _).
  - intros T HT. by destruct (HnoAE T).
  - intros T Htr _ Hs HT v Hv. rewrite Hid in *.
    destruct Hshape as [(_ & _ & Hs' & _)|(_ & Ht' & Hs' & _)];
      [congruence|].
    destruct (Htr ltac:(congruence) ltac:(congruence) v Hv) as [Hfv ?].
    split; [|done]. by apply recordVote_le.
  - done.
  - intros T _ Hve HT. rewrite Hv', Hid. subst T. symmetry. by apply Hrec.
  - apply Forall_singleton. unfold requestOk. by rewrite Hr.
  - intros T Hve. apply Forall_singleton. rewrite Hr.
    intros Hg. unfold isGrant in Hg. cbn in Hg. injection Hg as HT.
    cbn. subst T. split; [by apply Hrec|done].
  - apply Forall_singleton. rewrite Hr. intros T. unfold isAE. cbn. tauto.
Qed.

Lemma electionInv_VoteResponse fv ns vs p rest sv (i : nat) n (t : Z)
    (g : bool) w' :
  electionInv fv ns vs (p :: rest) sv →
  ns !! i = Some n → id n = to p →
  payload p = VoteResponse t g →
  state n ≠ CRASHED →
  deliver (mkWork ns vs sv) p = Some w' →
  list_find (λ m : RaftNode, id m = to p) ns = Some (i, n) →
  electionInv fv (currentNodes w') (currentVotes w') rest
    (survivingPackets w').
Proof.
  intros Hinv Hi Hto Hpl Hnc Hd Hfind.
  assert (Hn : n ∈ ns) by by eapply list_elem_of_lookup_2.
  destruct (electionInv_node _ _ _ _ _ n Hinv Hn) as (Hin & _ & G4 & G5 & G6).
  assert (HnoAE : ∀ T, ¬ isAE T p).
  { intros T HT. unfold isAE in HT. by rewrite Hpl in HT. }
  unfold deliver in Hd. cbn [currentNodes currentVotes survivingPackets] in Hd.
  rewrite Hfind, bool_decide_eq_false_2, Hpl in Hd by done.
  unfold processVoteResponse in Hd.
  destruct (Z.ltb_spec (currentTerm n) t) as [Hlt|Hge].
  - (* a newer term is adopted *)
    cbn in Hd. injection Hd as <-. cbn.
    rewrite <- (app_nil_r sv).
    apply (electionInv_step_follower fv ns vs p rest sv [] i n); try done.
    + cbn. lia.
    + cbn. lia.
    + intros T HT. by destruct (HnoAE T).
  - destruct (bool_decide (state n = CANDIDATE) && (t =? currentTerm n) && g)
      eqn:Hcond.
    2:{ injection Hd as <-. cbn. rewrite <- (app_nil_r sv).
        apply (electionInv_step_same fv ns vs p rest sv [] i n); try done.
        intros T HT. by destruct (HnoAE T). }
    apply andb_true_iff in Hcond as [Hcond ->].
    apply andb_true_iff in Hcond as [Hs ->%Z.eqb_eq].
    apply bool_decide_eq_true in Hs.
    destruct (candidate_phase _ _ _ _ _ _ n Hinv Hn Hs) as [Htr Hvo].
    destruct (Hvo Hpl) as [Hfrom Hne].
    set (s := default ∅ (vs !! id n) ∪ {[from p]}) in *.
    assert (Hs_ok : ∀ v, v ∈ s → fv v (currentTerm n) = Some (id n) ∧ v ≠ id n).
    { intros v [Hv|Hv%elem_of_singleton]%elem_of_union.
      - by apply Htr.
      - subst v. rewrite Hto. done. }
    destruct (hasMajority s) eqn:Hmaj; injection Hd as <-; cbn;
      rewrite <- (app_nil_r sv).
    + (* the candidate wins *)
      rewrite list_insert_insert_eq.
      destruct (becomeLeader_fields (<[i:=n]> ns) n)
        as (Li & Lt & _ & Lv & _ & Ls & _).
      apply (electionInv_step fv fv ns vs _ p rest sv [] i n _ Hinv Hi Hto Li).
      * by rewrite Ls.
      * intros T. apply notified_mono; [lia|].
        intros Hc. by rewrite Ls in Hc.
      * split; [|split].
        -- intros T HT. rewrite Li. apply G4. lia.
        -- intros Hc. by rewrite Ls in Hc.
        -- intros _. rewrite Li, Lt. split; [by apply G5|].
           destruct (two_elements s Hmaj) as (a & b & Ha & Hb & Hab).
           destruct (Hs_ok a Ha), (Hs_ok b Hb). exists a, b. done.
      * apply fvLe_refl.
      * done.
      * by destruct Hinv as ((_ & _ & _ & ?) & _).
      * intros T HT. by destruct (HnoAE T).
      * intros T _ _ Hc. by rewrite Ls in Hc.
      * intros k Hk. by rewrite lookup_insert_ne.
      * intros T _ Hve. unfold voteEq. rewrite Lt, Lv, Li. done.
      * done.
      * done.
      * done.
    + (* the vote is counted *)
      apply (electionInv_step fv fv ns vs _ p rest sv [] i n n Hinv Hi Hto
               eq_refl).
      * done.
      * done.
      * done.
      * apply fvLe_refl.
      * done.
      * by destruct Hinv as ((_ & _ & _ & ?) & _).
      * intros T HT. by destruct (HnoAE T).
      * intros T _ _ _ HT v Hv. rewrite lookup_insert_eq in Hv. cbn in Hv.
        subst T. by apply Hs_ok.
      * intros k Hk. by rewrite lookup_insert_ne.
      * done.
      * done.
      * done.
      * done.
Qed.

Lemma electionInv_AppendEntries fv ns vs p rest sv (i : nat) n n' (r : Packet)
    (t l pi pt : Z) (es : list LogEntry) (lc : Z) :
  electionInv fv ns vs (p :: rest) sv →
  ns !! i = Some n → id n = to p →
  payload p = AppendEntries t l pi pt es lc →
  processAppendEntries n t l pi pt es lc = Some (n', r) →
  electionInv fv (<[i := n']> ns) vs rest (sv ++ [r]).
Proof.
  intros Hinv Hi Hto Hpl Hae.
  destruct (processAppendEntries_shape _ _ _ _ _ _ _ _ _ Hae)
    as (Hid & (t' & ok & mi & Hr) & Hshape).
  assert (HAE : ∀ T, isAE T p ↔ T = t).
  { intros T. unfold isAE. rewrite Hpl. split; congruence. }
  assert (Hx : Forall (λ q, requestOk q ∧ ∀ T, ¬ isGrant T q ∧ ¬ isAE T q) [r]).
  { apply Forall_singleton. unfold requestOk, isGrant, isAE. rewrite Hr.
    split; [done|]. intros T. split; [congruence|tauto]. }
  destruct Hshape as [(Hle & Ht & Hs & Hv)|(Hlt & ->)].
  - apply (electionInv_step_follower fv ns vs p rest sv [r] i n n');
      try done; [lia| |].
    + intros _. apply HAE. done.
    + intros T HT. apply HAE in HT. congruence.
  - apply (electionInv_step_same fv ns vs p rest sv [r] i n n); try done.
    intros T HT%HAE. subst T. split; [lia|]. intros [_ ?]. lia.
Qed.

Lemma electionInv_AppendResponse fv ns vs p rest sv (i : nat) n (t : Z)
    (s : bool) (mi : Z) :
  electionInv fv ns vs (p :: rest) sv →
  ns !! i = Some n → id n = to p →
  payload p = AppendResponse t s mi →
  electionInv fv (<[i := processAppendResponse n (from p) t s mi]> ns) vs
    rest sv.
Proof.
  intros Hinv Hi Hto Hpl.
  assert (HnoAE : ∀ T, ¬ isAE T p).
  { intros T HT. unfold isAE in HT. by rewrite Hpl in HT. }
  destruct (processAppendResponse_shape n (from p) t s mi)
    as (Hid & [(Hlt & Ht & Hs & Hv)|(Hge & Hs & Ht & Hv)]);
    rewrite <- (app_nil_r sv).
  - apply (electionInv_step_follower fv ns vs p rest sv [] i n); try done.
    + lia.
    + lia.
    + intros T HT. by destruct (HnoAE T).
  - apply (electionInv_step_same fv ns vs p rest sv [] i n); try done.
    intros T HT. by destruct (HnoAE T).
Qed.

(** Step 2 preserves the invariant. *)
Lemma deliver_inv fv ns vs p rest sv w' :
  electionInv fv ns vs (p :: rest) sv →
  deliver (mkWork ns vs sv) p = Some w' →
  ∃ fv', electionInv fv' (currentNodes w') (currentVotes w') rest
           (survivingPackets w').
Proof.
  intros Hinv Hd.
  destruct (list_find (λ m : RaftNode, id m = to p) ns) as [[i n]|] eqn:Hfind.
  2:{ unfold deliver in Hd. cbn [currentNodes] in Hd. rewrite Hfind in Hd.
      injection Hd as <-. exists fv. cbn.
      apply (electionInv_drop fv ns vs p rest sv Hinv).
      rewrite list_find_None, Forall_forall in Hfind. done. }
  pose proof Hfind as (Hi & Hto & _)%list_find_Some.
  assert (Hn : n ∈ ns) by by eapply list_elem_of_lookup_2.
  destruct (electionInv_node _ _ _ _ _ n Hinv Hn) as (_ & Hnc & _).
  destruct (payload p) as [t c li lt|t g|t l pi pt es lc|t s mi] eqn:Hpl.
  - destruct (electionInv_RequestVote fv ns vs p rest sv i n t c li lt
                Hinv Hi Hto Hpl) as [fv' Hinv'].
    exists fv'. unfold deliver in Hd.
    cbn [currentNodes currentVotes survivingPackets] in Hd.
    rewrite Hfind, bool_decide_eq_false_2, Hpl in Hd by done.
    destruct (processRequestVote n t c li lt) as [u r].
    injection Hd as <-. done.
  - exists fv. by eapply electionInv_VoteResponse.
  - exists fv. unfold deliver in Hd.
    cbn [currentNodes currentVotes survivingPackets] in Hd.
    rewrite Hfind, bool_decide_eq_false_2, Hpl in Hd by done.
    destruct (processAppendEntries n t l pi pt es lc) as [[u r]|] eqn:Hae;
      [|done].
    injection Hd as <-. cbn. by eapply electionInv_AppendEntries.
  - exists fv. unfold deliver in Hd.
    cbn [currentNodes currentVotes survivingPackets] in Hd.
    rewrite Hfind, bool_decide_eq_false_2, Hpl in Hd by done.
    injection Hd as <-. cbn. by eapply electionInv_AppendResponse.
Qed.

Lemma deliverAll_inv fv ns vs arr sv w' :
  electionInv fv ns vs arr sv →
  deliverAll (mkWork ns vs sv) arr = Some w' →
  ∃ fv', electionInv fv' (currentNodes w') (currentVotes w') []
           (survivingPackets w').
Proof.
  revert fv ns vs sv. induction arr as [|p arr IH]; intros fv ns vs sv Hinv;
    cbn [deliverAll].
  - intros [= <-]. by exists fv.
  - destruct (deliver (mkWork ns vs sv) p) as [w1|] eqn:Hd; [|done].
    destruct (deliver_inv _ _ _ _ _ _ _ Hinv Hd) as [fv1 Hinv1].
    destruct w1 as [ns1 vs1 sv1]. by apply (IH fv1).
Qed.

(** ** Step 1: the packets advance *)

Lemma hasArrived_advance_eq p q :
  progress p = progress q → speed p = speed q →
  hasArrived (advance p) = hasArrived (advance q).
Proof. unfold hasArrived, advance. cbn. by intros -> ->. Qed.

Lemma move_inv fv ns vs pk :
  electionInv fv ns vs [] pk →
  electionInv fv ns vs
    (filter (λ p, hasArrived p = true) (advance <$> pk))
    (filter (λ p, hasArrived p = false) (advance <$> pk)).
Proof.
  intros (Hbase & Hreq & Hph). cbn [app] in Hreq.
  set (arr := filter (λ p, hasArrived p = true) (advance <$> pk)).
  set (sv := filter (λ p, hasArrived p = false) (advance <$> pk)).
  assert (Hmoved : ∀ q, q ∈ arr ++ sv → ∃ q0, q0 ∈ pk ∧ q = advance q0).
  { intros q [Hq|Hq]%elem_of_app;
      apply list_elem_of_filter in Hq as [_ Hq];
      apply list_elem_of_fmap in Hq as (q0 & -> & Hq0); eauto. }
  assert (Hlift : ∀ P : Packet → Prop,
            (∀ q0, P q0 → P (advance q0)) →
            Forall P pk → Forall P (arr ++ sv)).
  { intros P HP Hall. rewrite Forall_forall in Hall. apply Forall_forall.
    intros q (q0 & Hq0 & ->)%Hmoved. auto. }
  split; [done|split; [by apply Hlift|]].
  intros T. destruct (Hph T) as [Hcl|[(Hcov & _)|Hop]].
  - by left.
  - left. eapply Forall_impl; [exact Hcov|].
    intros n [?|(q & Hq & _)]; [done|]. by apply elem_of_nil in Hq.
  - right; right. destruct Hop as (Hve & Htr & Hvo & _ & Hsv).
    cbn [app] in Hvo. rewrite Forall_forall in Hsv.
    split; [done|split; [done|split; [by apply Hlift|split]]].
    + intros (q & Hq & Hqae).
      apply list_elem_of_filter in Hq as [Harr Hq].
      apply list_elem_of_fmap in Hq as (q0 & -> & Hq0).
      eapply Forall_impl; [exact (Hsv q0 Hq0 Hqae)|].
      intros n [?|(q' & Hq' & H1 & H2 & H3 & H4)]; [by left|right].
      exists (advance q'). split; [|done].
      apply list_elem_of_filter. split; [|by apply list_elem_of_fmap_2].
      by rewrite (hasArrived_advance_eq q' q0).
    + apply Forall_forall. intros q Hq Hqae.
      apply list_elem_of_filter in Hq as [Harr Hq].
      apply list_elem_of_fmap in Hq as (q0 & -> & Hq0).
      eapply Forall_impl; [exact (Hsv q0 Hq0 Hqae)|].
      intros n [?|(q' & Hq' & H1 & H2 & H3 & H4)]; [by left|right].
      exists (advance q'). split; [|split; [done|split; [done|]]].
      * apply list_elem_of_filter. split; [|by apply list_elem_of_fmap_2].
        by rewrite (hasArrived_advance_eq q' q0).
      * cbn. by rewrite H3, H4.
Qed.

(** ** Step 3: timers, elections and heartbeats *)

(** Between deliveries nothing is pending; a harmless packet for the
    node lets the delivery lemma describe a timer step. *)
Lemma electionInv_dummy fv ns vs sv p :
  requestOk p → (∀ T, ¬ isGrant T p ∧ ¬ isAE T p) →
  electionInv fv ns vs [] sv → electionInv fv ns vs [p] sv.
Proof.
  intros Hreq Hp (Hbase & Hreqs & Hph). split; [done|split].
  { by constructor. }
  intros T. destruct (Hph T) as [Hcl|[(Hcov & _)|Hop]].
  - by left.
  - left. eapply Forall_impl; [exact Hcov|].
    intros n [?|(q & Hq & _)]; [done|]. by apply elem_of_nil in Hq.
  - right; right. destruct Hop as (Hve & Htr & Hvo & _ & Hsv).
    split; [done|split; [done|split; [|split; [|done]]]].
    + constructor; [|done]. intros Hg. by destruct (Hp T) as [? _].
    + intros (q & Hq%list_elem_of_singleton & Hqae). subst q.
      by destruct (Hp T) as [_ ?].
Qed.

Lemma timerPacket_ok (i : Z) :
  requestOk (timerPacket i)
  ∧ ∀ T, ¬ isGrant T (timerPacket i) ∧ ¬ isAE T (timerPacket i).
Proof. split; [done|]. intros T. split; [by intros [=]|by intros []]. Qed.

(** Adding a round of heartbeats: each of them travels in step with one
    for every node that is not notified yet. *)
Lemma electionInv_heartbeats fv ns vs sv extra :
  electionInv fv ns vs [] sv →
  Forall (λ q, requestOk q ∧ ∀ T, ¬ isGrant T q) extra →
  Forall (λ q, ∀ T, isAE T q → Forall (coveredWith T extra q) ns) extra →
  electionInv fv ns vs [] (sv ++ extra).
Proof.
  intros (Hbase & Hreq & Hph) Hx Hcov. unfold electionInv. cbn [app] in *.
  split; [done|split].
  { apply Forall_app. split; [done|]. eapply Forall_impl; [exact Hx|].
    by intros q [? _]. }
  intros T. destruct (Hph T) as [Hcl|[Hclo|Hop]]; [by left|by right; left|].
  right; right. destruct Hop as (Hve & Htr & Hvo & Hmid & Hsv).
  unfold openPhase. cbn [app] in *.
  split; [done|split; [done|split; [|split; [done|]]]].
  - apply Forall_app. split; [done|]. eapply Forall_impl; [exact Hx|].
    intros q [_ Hq] Hg. by destruct (Hq T).
  - apply Forall_app. split.
    + eapply Forall_impl; [exact Hsv|]. intros q Hq Hqae.
      eapply Forall_impl; [exact (Hq Hqae)|].
      intros n. apply coveredWith_more.
    + eapply Forall_impl; [exact Hcov|]. intros q Hq Hqae.
      eapply Forall_impl; [exact (Hq T Hqae)|].
      intros n [?|(q' & Hq' & H)]; [by left|right].
      exists q'. split; [|done]. apply elem_of_app. by right.
Qed.

Lemma electionInv_timer fv ns vs sv (i : nat) n n' :
  electionInv fv ns vs [] sv → ns !! i = Some n →
  id n' = id n → state n' = state n → currentTerm n' = currentTerm n →
  votedFor n' = votedFor n →
  electionInv fv (<[i := n']> ns) vs [] sv.
Proof.
  intros Hinv Hi Hid Hs Ht Hv.
  destruct (timerPacket_ok (id n)) as [Hreq Hp].
  rewrite <- (app_nil_r sv).
  apply (electionInv_step_same fv ns vs (timerPacket (id n)) [] sv [] i n n');
    try done.
  by apply electionInv_dummy.
Qed.

Lemma electionInv_startElection fv ns vs sv extra (i : nat) n n' :
  electionInv fv ns vs [] sv → ns !! i = Some n →
  id n' = id n → state n' = CANDIDATE →
  currentTerm n' = currentTerm n + 1 → votedFor n' = Some (id n) →
  Forall (λ q, requestOk q ∧ ∀ T, ¬ isGrant T q ∧ ¬ isAE T q) extra →
  ∃ fv',
    electionInv fv' (<[i := n']> ns) (<[id n := ∅]> vs) [] (sv ++ extra).
Proof.
  intros Hinv Hi Hid Hs Ht Hv Hextra.
  assert (Hn : n ∈ ns) by by eapply list_elem_of_lookup_2.
  destruct (electionInv_node _ _ _ _ _ n Hinv Hn) as (Hin & Hnc & G4 & G5 & G6).
  destruct (timerPacket_ok (id n)) as [Hreq Hp].
  set (fv' := recordVote fv (id n) (currentTerm n + 1) (id n)).
  assert (Hrec : fv' (id n) (currentTerm n + 1) = Some (id n)).
  { apply recordVote_fresh, G4. lia. }
  exists fv'.
  apply (electionInv_step fv fv' ns vs _ (timerPacket (id n)) [] sv extra i n
           n' (electionInv_dummy _ _ _ _ _ Hreq Hp Hinv) Hi eq_refl Hid).
  - by rewrite Hs.
  - intros T [HT _]. split; [lia|]. intros [_ ?]. lia.
  - split; [|split].
    + intros T HT. unfold fv'. rewrite Hid, recordVote_other by (right; lia).
      apply G4. lia.
    + intros _. by rewrite Hid, Ht.
    + intros Hl. by rewrite Hs in Hl.
  - apply recordVote_le.
  - intros i' T' Hne. apply recordVote_other. by left.
  - apply recordVote_dom; [done|]. by destruct Hinv as ((_ & _ & _ & ?) & _).
  - intros T HT. by destruct (Hp T) as [_ ?].
  - intros T _ _ _ _ v Hv'. rewrite Hid, lookup_insert_eq in Hv'. cbn in Hv'.
    by apply elem_of_empty in Hv'.
  - intros k Hk. by rewrite lookup_insert_ne.
  - intros T _ _ HT. rewrite Hv, Hid. rewrite <- HT, Ht. done.
  - eapply Forall_impl; [exact Hextra|]. by intros q [? _].
  - intros T _. eapply Forall_impl; [exact Hextra|]. intros q [_ Hq] Hg.
    by destruct (Hq T) as [? _].
  - eapply Forall_impl; [exact Hextra|]. intros q [_ Hq] T. apply Hq.
Qed.

Lemma broadcast_RequestVote_ok (sender : RaftNode) (t li lt : Z)
    (cur : list RaftNode) (playbackSpeed : Q) :
  Forall (λ q, requestOk q ∧ ∀ T, ¬ isGrant T q ∧ ¬ isAE T q)
    (broadcast sender (RequestVote t (id sender) li lt) cur playbackSpeed).
Proof.
  unfold broadcast. apply Forall_fmap, Forall_forall.
  intros target [[Hne _] _]%list_elem_of_filter.
  unfold requestOk, isGrant, isAE. cbn. split; [congruence|].
  intros T. split; [congruence|tauto].
Qed.

Lemma heartbeats_covered ns cur (i : nat) n (playbackSpeed : Q) :
  id <$> ns = clusterIds → id <$> cur = clusterIds →
  Forall (λ m, state m ≠ CRASHED) cur →
  ns !! i = Some n → state n = LEADER →
  Forall (λ q, ∀ T, isAE T q →
               Forall (coveredWith T (heartbeats n cur playbackSpeed) q) ns)
    (heartbeats n cur playbackSpeed).
Proof.
  intros Hids Hcur Hnc Hi Hl. apply Forall_forall. intros q Hq T HT.
  unfold heartbeats in Hq. apply list_elem_of_fmap in Hq as (peer & -> & _).
  unfold isAE in HT. cbn in HT. subst T.
  assert (Hnd : NoDup (id <$> ns)) by (rewrite Hids; apply clusterIds_NoDup).
  rewrite <- (list_insert_id ns i n Hi).
  apply (Forall_insert_others _ ns i n n Hnd Hi).
  - intros m Hm Hne. right.
    assert (Hmc : id m ∈ id <$> cur).
    { rewrite Hcur, <- Hids. by apply list_elem_of_fmap_2. }
    apply list_elem_of_fmap in Hmc as (peer' & Hid' & Hpeer').
    exists (heartbeatPacket n (id peer') playbackSpeed).
    split; [|by rewrite Hid'].
    unfold heartbeats. apply list_elem_of_fmap. exists peer'.
    split; [done|]. apply list_elem_of_filter.
    split; [|done]. rewrite Forall_forall in Hnc.
    intros [?|?]; [congruence|by eapply Hnc].
  - left. split; [done|]. intros [Hc _]. congruence.
Qed.

Lemma heartbeats_ok (leader : RaftNode) (cur : list RaftNode)
    (playbackSpeed : Q) :
  Forall (λ q, requestOk q ∧ ∀ T, ¬ isGrant T q)
    (heartbeats leader cur playbackSpeed).
Proof.
  unfold heartbeats. apply Forall_fmap, Forall_forall. intros peer _.
  split; [done|]. intros T. by intros [=].
Qed.

Lemma maintain_inv fv ns vs pkts cur (playbackSpeed : Q) (timeout : Z)
    (i : nat) n :
  electionInv fv ns vs [] pkts → ns !! i = Some n →
  id <$> cur = clusterIds → Forall (λ m, state m ≠ CRASHED) cur →
  let '(n', vs', pkts') := maintain cur playbackSpeed timeout n vs pkts in
  ∃ fv', electionInv fv' (<[i := n']> ns) vs' [] pkts'.
Proof.
  intros Hinv Hi Hcur Hnc. unfold maintain.
  case_bool_decide as Hcr.
  { exists fv. by rewrite list_insert_id. }
  case_bool_decide as Hl.
  - (* the election timer *)
    cbn [electionTimeout set_electionTimeout].
    destruct (_ <=? 0).
    + cbn [state set_state set_votedFor set_currentTerm set_electionTimeout
           set_currentTimeoutDuration].
      rewrite bool_decide_eq_false_2 by done.
      match goal with
      | |- context [<[i := ?u]> ns] =>
          destruct (electionInv_startElection fv ns vs pkts
                      (broadcast u
                         (RequestVote (currentTerm u) (id u)
                            (llen (log u) - 1) (lastLogTermOf (log u)))
                         cur playbackSpeed) i n u Hinv Hi)
            as [fv' Hinv']; try done
      end.
      * apply broadcast_RequestVote_ok.
      * by exists fv'.
    + cbn [state set_electionTimeout].
      rewrite bool_decide_eq_false_2 by done.
      exists fv. by apply (electionInv_timer fv ns vs pkts i n).
  - (* the heartbeat timer *)
    rewrite bool_decide_eq_true_2 by done.
    cbn [heartbeatTimer set_heartbeatTimer].
    destruct (_ <=? 0).
    + exists fv.
      set (u := set_heartbeatTimer HEARTBEAT_INTERVAL
                  (set_heartbeatTimer (heartbeatTimer n - 1) n)).
      assert (Hinv' : electionInv fv (<[i := u]> ns) vs [] pkts)
        by by apply (electionInv_timer fv ns vs pkts i n).
      apply electionInv_heartbeats; [done|apply heartbeats_ok|].
      apply (heartbeats_covered _ cur i u).
      * destruct Hinv' as ((? & _) & _). done.
      * done.
      * done.
      * apply list_lookup_insert_eq. by eapply lookup_lt_Some.
      * done.
    + exists fv. by apply (electionInv_timer fv ns vs pkts i n).
Qed.

Lemma maintainAll_inv cur (playbackSpeed : Q) (draw : nat → Z) :
  id <$> cur = clusterIds → Forall (λ m, state m ≠ CRASHED) cur →
  ∀ todo us (k : nat) vs pkts fv,
    electionInv fv (us ++ todo) vs [] pkts →
    let '(ns', vs', pkts') :=
      maintainAll cur playbackSpeed draw k todo vs pkts in
    ∃ fv', electionInv fv' (us ++ ns') vs' [] pkts'.
Proof.
  intros Hcur Hnc. induction todo as [|n todo IH];
    intros us k vs pkts fv Hinv; cbn [maintainAll].
  - by exists fv.
  - pose proof (maintain_inv fv (us ++ n :: todo) vs pkts cur playbackSpeed
                  (draw k) (length us) n Hinv
                  (list_lookup_middle _ _ _ _ eq_refl) Hcur Hnc) as H1.
    destruct (maintain cur playbackSpeed (draw k) n vs pkts)
      as [[n' vs1] pkts1].
    destruct H1 as [fv1 Hinv1].
    replace (length us) with (length us + 0)%nat in Hinv1 at 1 by lia.
    rewrite insert_app_r in Hinv1. cbn [list_insert insert] in Hinv1.
    specialize (IH (us ++ [n']) (S k) vs1 pkts1 fv1).
    rewrite <- app_assoc in IH. specialize (IH Hinv1).
    destruct (maintainAll cur playbackSpeed draw (S k) todo vs1 pkts1)
      as [[ns2 vs2] pkts2].
    destruct IH as [fv2 Hinv2]. exists fv2.
    by rewrite <- app_assoc in Hinv2.
Qed.

(** ** The invariant holds in every state reachable by ticks *)

Lemma tick_inv (paused : bool) (playbackSpeed : Q) (draw : nat → Z)
    (e e' : Engine) :
  engineInv e → tick paused playbackSpeed draw e = Some e' → engineInv e'.
Proof.
  intros [fv Hinv]. unfold tick. destruct paused.
  { intros [= <-]. by exists fv. }
  apply move_inv in Hinv.
  destruct (deliverAll _ _) as [w|] eqn:Hd; [|done].
  destruct (deliverAll_inv _ _ _ _ _ _ Hinv Hd) as [fv1 Hinv1].
  pose proof Hinv1 as ((Hids & Hnc & _) & _).
  pose proof (maintainAll_inv (currentNodes w) playbackSpeed draw Hids Hnc
                (currentNodes w) [] 0%nat (currentVotes w)
                (survivingPackets w) fv1 Hinv1) as H.
  destruct (maintainAll _ _ _ _ _ _ _) as [[ns' vs'] pkts'].
  destruct H as [fv2 Hinv2]. intros [= <-]. by exists fv2.
Qed.

Lemma initialEngine_inv (draws : list (Z * Z)) :
  length draws = Z.to_nat NODE_COUNT → engineInv (initialEngine draws).
Proof.
  intros Hlen.
  destruct draws as [|d0 [|d1 [|d2 [|d3 [|d4 [|]]]]]]; try discriminate.
  exists (λ _ _, None). split; [|split].
  - split; [done|]. split; [|split; [|done]].
    + repeat constructor; done.
    + repeat constructor; done.
  - constructor.
  - intros T. right; right.
    split; [|split; [|split; [constructor|split; [|constructor]]]].
    + repeat constructor; done.
    + repeat constructor; done.
    + intros (q & Hq & _). by apply elem_of_nil in Hq.
Qed.

Lemma tickReachable_inv (e : Engine) : tickReachable e → engineInv e.
Proof. induction 1; eauto using initialEngine_inv, tick_inv. Qed.

(** C1.  Election safety: in every state reachable by ticks from the
    initial cluster, two nodes that are both leaders with the same
    current term are the same node. *)
Theorem election_safety (e : Engine) (i j : nat) (n m : RaftNode) :
  tickReachable e →
  nodes e !! i = Some n → nodes e !! j = Some m →
  state n = LEADER → state m = LEADER →
  currentTerm n = currentTerm m →
  i = j ∧ n = m.
Proof.
  intros He Hi Hj Hn Hm Ht.
  destruct (tickReachable_inv e He) as (fv & (Hids & _ & Hgh & Hdom) & _).
  rewrite Forall_forall in Hgh.
  destruct (Hgh n) as (_ & _ & Gn); [by eapply list_elem_of_lookup_2|].
  destruct (Hgh m) as (_ & _ & Gm); [by eapply list_elem_of_lookup_2|].
  specialize (Gn Hn). specialize (Gm Hm). rewrite <- Ht in Gm.
  pose proof (quorum_unique fv _ _ _ Hdom Gn Gm) as Hid.
  assert (i = j) as ->.
  { eapply (lookup_same_id (nodes e)); [|done..].
    rewrite Hids. apply clusterIds_NoDup. }
  split; [done|]. congruence.
Qed.

Lemma runTicks_tickReachable (count : nat) (playbackSpeed : Q) (timeout : Z)
    (e e' : Engine) :
  tickReachable e → runTicks count playbackSpeed timeout e = Some e' →
  tickReachable e'.
Proof.
  revert e. induction count as [|count IH]; intros e He; cbn [runTicks].
  - by intros [= <-].
  - destruct (tick false playbackSpeed (λ _, timeout) e) as [e1|] eqn:Ht;
      [|done].
    apply IH. by eapply tickReachable_tick.
Qed.

Lemma sampleElected_tickReachable : tickReachable sampleElected.
Proof.
  eapply (runTicks_tickReachable 284 1 300 sampleInitial);
    [by apply tickReachable_init|vm_compute; reflexivity].
Qed.

Lemma election_safety_witness :
  state sampleElectedLeader = LEADER
  ∧ currentTerm sampleElectedLeader = 1
  ∧ (0%nat = 0%nat ∧ sampleElectedLeader = sampleElectedLeader).
Proof.
  split; [reflexivity|]. split; [reflexivity|].
  apply (election_safety sampleElected 0 0 sampleElectedLeader
           sampleElectedLeader).
  - exact sampleElected_tickReachable.
  - reflexivity.
  - reflexivity.
  - reflexivity.
  - reflexivity.
  - reflexivity.
Defined.

End ElectionSafety.

(** * Monotonicity of [commitIndex] *)

(** X23.  The leader-side advancement never lowers [commitIndex]. *)
Lemma processAppendResponse_commitIndex (targetNode : RaftNode)
    (sender aterm : Z) (success : bool) (mi : Z) :
  commitIndex targetNode
  ≤ commitIndex (processAppendResponse targetNode sender aterm success mi).
Proof.
  unfold processAppendResponse.
  destruct (currentTerm targetNode <? aterm); [cbn; lia|].
  destruct (bool_decide (state targetNode = LEADER)
            && (aterm =? currentTerm targetNode)); [|lia].
  destruct success; [|cbn; lia].
  cbv zeta.
  destruct (commitGuard _ _) eqn:Hg; [|cbn; lia].
  unfold commitGuard in Hg.
  destruct (majorityN _) as [k|]; [|done].
  apply andb_prop in Hg as [Hk _]. cbn in *. lia.
Qed.

(** X24.  The follower-side update does not lower [commitIndex] as long as the
    log after the merge still reaches the old [commitIndex]. *)
Lemma processAppendEntries_commitIndex (node node' : RaftNode)
    (aterm leaderId prevLogIndex prevLogTerm : Z) (entries : list LogEntry)
    (leaderCommit : Z) (reply : Packet) :
  processAppendEntries node aterm leaderId prevLogIndex prevLogTerm entries
    leaderCommit = Some (node', reply) →
  commitIndex node ≤ llen (log node') - 1 →
  commitIndex node ≤ commitIndex node'.
Proof.
  unfold processAppendEntries. cbv zeta.
  set (u := if currentTerm node <=? aterm then followLeader aterm node
            else node).
  assert (Hu : commitIndex u = commitIndex node).
  { unfold u. by destruct (currentTerm node <=? aterm). }
  destruct (aterm <? currentTerm u).
  { intros [= <- _] _. lia. }
  destruct (logOk _ _ _) as [[|]|]; [|intros [= <- _] _; lia|done].
  intros [= <- _]. cbn [commitIndex set_log set_commitIndex].
  destruct (commitIndex _ <? leaderCommit) eqn:Hc; cbn in *; lia.
Qed.

Lemma reachableInRange_reachable (e : Engine) :
  reachableInRange e → reachable e.
Proof.
  induction 1.
  - by apply reachable_init.
  - by eapply reachable_tick.
  - by apply reachable_toggle.
  - by apply reachable_propose.
Qed.

Lemma runTicks_inRange (count : nat) (playbackSpeed : Q) (timeout : Z)
    (e e' : Engine) :
  speedInRange playbackSpeed = true → timeoutInRange timeout = true →
  reachableInRange e → runTicks count playbackSpeed timeout e = Some e' →
  reachableInRange e'.
Proof.
  intros Hs Ht. revert e.
  induction count as [|count IH]; intros e He; cbn [runTicks].
  - by intros [= <-].
  - destruct (tick false playbackSpeed (λ _, timeout) e) as [e1|] eqn:Hk;
      [|done].
    apply IH.
    by apply (inRange_tick e e1 false playbackSpeed (λ _, timeout)).
Qed.

Lemma runScript_inRange (script : list Action) (e e' : Engine) :
  forallb actionInRange script = true →
  reachableInRange e → runScript script e = Some e' → reachableInRange e'.
Proof.
  revert e. induction script as [|a script IH]; intros e Hs He;
    cbn [runScript].
  - by intros [= <-].
  - cbn [forallb] in Hs. apply andb_prop in Hs as [Ha Hs].
    destruct (runAction a e) as [e1|] eqn:Hr; [|done].
    apply IH; [done|].
    destruct a as [count ps t|i t|cmd]; cbn [runAction actionInRange] in *.
    + apply andb_prop in Ha as [Hp Ht]. by eapply runTicks_inRange.
    + injection Hr as <-. by apply inRange_toggle.
    + injection Hr as <-. by apply inRange_propose.
Qed.

Lemma sampleInitial_inRange : reachableInRange sampleInitial.
Proof. by apply inRange_init. Qed.

(** C6 (fails on the code): on the engine reached by [commitScript], whose
    playback speeds and timeouts all lie in the application's ranges, one
    more tick delivers an AppendEntries to the live follower node 2 and
    takes its [commitIndex] from 2 down to 1: the merge cuts its log to
    two entries and the update stores [min(leaderCommit, last index)]. *)
Theorem commitIndex_decreases :
  reachableInRange commitBefore
  ∧ tick false 1 (λ _, 300) commitBefore = Some commitAfter
  ∧ reachableInRange commitAfter
  ∧ (∃ n, nodes commitBefore !! 2%nat = Some n
          ∧ state n = FOLLOWER ∧ term <$> log n = [1; 1; 2; 2]
          ∧ commitIndex n = 2)
  ∧ (∃ p, packets commitBefore !! 0%nat = Some p ∧ to p = 2
          ∧ hasArrived (advance p) = true
          ∧ payload p
            = AppendEntries 3 1 0 1 [{| term := 2; command := "SET X=5" |}] 3)
  ∧ (∃ n', nodes commitAfter !! 2%nat = Some n'
           ∧ state n' = FOLLOWER ∧ term <$> log n' = [1; 2]
           ∧ commitIndex n' = 1).
Proof.
  assert (Hb : reachableInRange commitBefore).
  { apply (runScript_inRange commitScript sampleInitial);
      [vm_compute; reflexivity|exact sampleInitial_inRange
      |vm_compute; reflexivity]. }
  assert (Ht : tick false 1 (λ _, 300) commitBefore = Some commitAfter)
    by (vm_compute; reflexivity).
  split; [exact Hb|]. split; [exact Ht|]. split.
  { by apply (inRange_tick commitBefore commitAfter false 1 (λ _, 300)). }
  repeat split; eexists; (split; [vm_compute; reflexivity|]);
    repeat split; vm_compute; reflexivity.
Qed.

(** * Further properties of the engine *)

(** ** The tick never raises *)

Lemma deliver_total (w : Work) (p : Packet) :
  wfPacket p → is_Some (deliver w p).
Proof.
  intros Hp. unfold deliver.
  destruct (list_find _ _) as [[i target]|]; [|done].
  case_bool_decide; [done|].
  unfold wfPacket in Hp.
  destruct (payload p) as [t c li lt|t g|t l pi pt es lc|t s mi].
  - by destruct (processRequestVote target t c li lt).
  - repeat match goal with |- context [if ?b then _ else _] => destruct b end;
      done.
  - destruct (processAppendEntries_total target t l pi pt es lc) as [[u r] ->];
      [lia|done].
  - done.
Qed.

Lemma deliverAll_total (w : Work) (todo : list Packet) :
  wfWork w → Forall wfPacket todo → is_Some (deliverAll w todo).
Proof.
  revert w. induction todo as [|p todo IH]; intros w Hw Hall; cbn; [done|].
  apply Forall_cons in Hall as [Hp Hall].
  destruct (deliver_total w p Hp) as [w1 Hd]. rewrite Hd.
  apply IH; [by eapply deliver_wf|done].
Qed.

(** X1.  In every state the application can reach, a tick returns a new state:
    the indexing [log[prevLogIndex].term] of the AppendEntries handler,
    which raises for [prevLogIndex < -1], is never reached with such an
    index, because every AppendEntries in flight has [prevLogIndex >= 0]. *)
Theorem tick_never_raises (e : Engine) (paused : bool) (playbackSpeed : Q)
    (draw : nat → Z) :
  reachable e → is_Some (tick paused playbackSpeed draw e).
Proof.
  intros [Hc Hp]%reachable_wf. unfold tick. destruct paused; [done|].
  assert (Hmoved : Forall wfPacket (advance <$> packets e)).
  { apply Forall_fmap. eapply Forall_impl; [exact Hp|].
    intros p. apply wfPacket_advance. }
  destruct (deliverAll_total
              (mkWork (nodes e) (votesReceived e)
                 (filter (λ p, hasArrived p = false) (advance <$> packets e)))
              (filter (λ p, hasArrived p = true) (advance <$> packets e)))
    as [w ->].
  - split; [done|]. by apply Forall_filter.
  - by apply Forall_filter.
  - by destruct (maintainAll _ _ _ _ _ _ _) as [[ns votes] pkts].
Qed.

Lemma tick_never_raises_witness :
  is_Some (tick false 1 (λ _, 300) commitBefore).
Proof.
  apply (tick_never_raises commitBefore false 1 (λ _, 300)).
  apply (runScript_reachable commitScript sampleInitial);
    [exact sampleInitial_reachable|vm_compute; reflexivity].
Defined.

(** ** Relations kept node by node *)

Section NodeRelation.

Variable R : RaftNode → RaftNode → Prop.

Hypothesis R_refl : ∀ n, R n n.
Hypothesis R_trans : ∀ a b c, R a b → R b c → R a c.
Hypothesis R_requestVote : ∀ n t c li lt,
  state n ≠ CRASHED → R n (processRequestVote n t c li lt).1.
Hypothesis R_voteResponse : ∀ n t g,
  state n ≠ CRASHED → R n (processVoteResponse n t g).
Hypothesis R_becomeLeader : ∀ cur n,
  state n = CANDIDATE → R n (becomeLeader cur n).
Hypothesis R_appendEntries : ∀ n t l pi pt es lc n' r,
  state n ≠ CRASHED →
  processAppendEntries n t l pi pt es lc = Some (n', r) → R n n'.
Hypothesis R_appendResponse : ∀ n s t b mi,
  state n ≠ CRASHED → R n (processAppendResponse n s t b mi).
Hypothesis R_maintain : ∀ cur ps timeout n votes pkts,
  R n (maintain cur ps timeout n votes pkts).1.1.

Lemma Forall2_rel_refl (ns : list RaftNode) : Forall2 R ns ns.
Proof. induction ns; by constructor. Qed.

Lemma Forall2_rel_trans (a b c : list RaftNode) :
  Forall2 R a b → Forall2 R b c → Forall2 R a c.
Proof.
  intros Hab. revert c. induction Hab; intros c Hbc.
  - by inversion Hbc.
  - inversion Hbc; subst. constructor; eauto.
Qed.

Lemma Forall2_rel_insert (ns : list RaftNode) (i : nat) (n n' : RaftNode) :
  ns !! i = Some n → R n n' → Forall2 R ns (<[i := n']> ns).
Proof.
  revert i. induction ns as [|a ns IH]; intros [|i] Hi Hr; try done.
  - injection Hi as ->. constructor; [done|apply Forall2_rel_refl].
  - cbn. constructor; [done|]. by apply IH.
Qed.

Lemma deliver_rel (w w' : Work) (p : Packet) :
  deliver w p = Some w' → Forall2 R (currentNodes w) (currentNodes w').
Proof.
  unfold deliver.
  destruct (list_find _ _) as [[i target]|] eqn:Hfind;
    [|intros [= <-]; apply Forall2_rel_refl].
  apply list_find_Some in Hfind as (Hi & _ & _).
  case_bool_decide as Hcr; [intros [= <-]; apply Forall2_rel_refl|].
  destruct (payload p) as [t c li lt|t g|t l pi pt es lc|t s mi].
  - pose proof (R_requestVote target t c li lt Hcr) as Hr.
    destruct (processRequestVote target t c li lt) as [u r].
    intros [= <-]. cbn. by apply (Forall2_rel_insert _ _ target).
  - pose proof (R_voteResponse target t g Hcr) as Hr.
    set (u := processVoteResponse target t g) in *.
    assert (H1 : Forall2 R (currentNodes w) (<[i := u]> (currentNodes w)))
      by by apply (Forall2_rel_insert _ _ target).
    destruct (bool_decide (state u = CANDIDATE) && (t =? currentTerm u) && g)
      eqn:Hc; [|by intros [= <-]].
    destruct (hasMajority _); [|by intros [= <-]].
    intros [= <-]. cbn.
    apply andb_prop in Hc as [[Hcand%bool_decide_eq_true _]%andb_prop _].
    rewrite list_insert_insert_eq.
    apply (Forall2_rel_insert _ _ target); [done|].
    eapply R_trans; [exact Hr|]. by apply R_becomeLeader.
  - destruct (processAppendEntries target t l pi pt es lc) as [[u r]|] eqn:Ha;
      [|done].
    intros [= <-]. cbn. apply (Forall2_rel_insert _ _ target); [done|].
    by eapply R_appendEntries.
  - intros [= <-]. cbn. apply (Forall2_rel_insert _ _ target); [done|].
    by apply R_appendResponse.
Qed.

Lemma deliverAll_rel (w w' : Work) (todo : list Packet) :
  deliverAll w todo = Some w' → Forall2 R (currentNodes w) (currentNodes w').
Proof.
  revert w. induction todo as [|p todo IH]; intros w; cbn.
  - intros [= <-]. apply Forall2_rel_refl.
  - destruct (deliver w p) as [w1|] eqn:Hd; [|done].
    intros Hd'. eapply Forall2_rel_trans; [by eapply deliver_rel|by apply IH].
Qed.

Lemma maintainAll_rel (cur : list RaftNode) (ps : Q) (draw : nat → Z)
    (k : nat) (todo : list RaftNode) (votes : gmap Z (gset Z))
    (pkts : list Packet) :
  Forall2 R todo (maintainAll cur ps draw k todo votes pkts).1.1.
Proof.
  revert k votes pkts. induction todo as [|n todo IH]; intros k votes pkts;
    cbn; [constructor|].
  pose proof (R_maintain cur ps (draw k) n votes pkts) as Hn.
  destruct (maintain _ _ _ _ _ _) as [[u votes1] pkts1].
  specialize (IH (S k) votes1 pkts1).
  destruct (maintainAll _ _ _ _ _ _ _) as [[us votes2] pkts2].
  cbn in *. by constructor.
Qed.

Lemma tick_rel (paused : bool) (ps : Q) (draw : nat → Z) (e e' : Engine) :
  tick paused ps draw e = Some e' → Forall2 R (nodes e) (nodes e').
Proof.
  unfold tick. destruct paused; [intros [= <-]; apply Forall2_rel_refl|].
  destruct (deliverAll _ _) as [w|] eqn:Hd; [|done].
  apply deliverAll_rel in Hd. cbn in Hd.
  pose proof (maintainAll_rel (currentNodes w) ps draw 0 (currentNodes w)
                (currentVotes w) (survivingPackets w)) as Hm.
  destruct (maintainAll _ _ _ _ _ _ _) as [[ns votes] pkts].
  intros [= <-]. cbn in *. by eapply Forall2_rel_trans.
Qed.

End NodeRelation.

(** ** Terms never go back *)

Lemma laterTerm_refl (n : RaftNode) : laterTerm n n.
Proof. unfold laterTerm. split; [done|lia]. Qed.

Lemma laterTerm_trans (a b c : RaftNode) :
  laterTerm a b → laterTerm b c → laterTerm a c.
Proof. unfold laterTerm. intros [-> ?] [-> ?]. split; [done|lia]. Qed.

Lemma processRequestVote_laterTerm (n : RaftNode) (t c li lt : Z) :
  laterTerm n (processRequestVote n t c li lt).1.
Proof.
  unfold processRequestVote, laterTerm. cbn [fst].
  destruct (Z.ltb_spec (currentTerm n) t);
    match goal with |- context [if ?b then _ else _] => destruct b end;
    cbn; split; (done || lia).
Qed.

Lemma processVoteResponse_laterTerm (n : RaftNode) (t : Z) (g : bool) :
  laterTerm n (processVoteResponse n t g).
Proof.
  unfold processVoteResponse, laterTerm.
  destruct (Z.ltb_spec (currentTerm n) t); cbn; split; (done || lia).
Qed.

Lemma becomeLeader_laterTerm (cur : list RaftNode) (n : RaftNode) :
  laterTerm n (becomeLeader cur n).
Proof.
  destruct (becomeLeader_fields cur n) as (Hid & Ht & _).
  unfold laterTerm. split; [done|lia].
Qed.

Lemma processAppendEntries_laterTerm (n : RaftNode)
    (t l pi pt : Z) (es : list LogEntry) (lc : Z) (n' : RaftNode)
    (r : Packet) :
  processAppendEntries n t l pi pt es lc = Some (n', r) → laterTerm n n'.
Proof.
  unfold processAppendEntries, laterTerm. cbv zeta.
  set (u := if currentTerm n <=? t then followLeader t n else n).
  assert (Hu : id u = id n ∧ currentTerm n ≤ currentTerm u).
  { unfold u. destruct (Z.leb_spec (currentTerm n) t); cbn; split;
      (done || lia). }
  destruct (t <? currentTerm u); [by intros [= <- _]|].
  destruct (logOk _ _ _) as [[|]|]; [|by intros [= <- _]|done].
  intros [= <- _].
  by destruct (commitIndex _ <? lc).
Qed.

Lemma processAppendResponse_laterTerm (n : RaftNode) (s t : Z) (b : bool)
    (mi : Z) :
  laterTerm n (processAppendResponse n s t b mi).
Proof.
  unfold processAppendResponse, laterTerm.
  destruct (Z.ltb_spec (currentTerm n) t); [cbn; split; (done || lia)|].
  destruct (bool_decide (state n = LEADER) && (t =? currentTerm n));
    [|split; (done || lia)].
  destruct b; [|cbn; split; (done || lia)].
  cbv zeta. destruct (commitGuard _ _); cbn; split; (done || lia).
Qed.

Lemma maintain_laterTerm (cur : list RaftNode) (ps : Q) (timeout : Z)
    (n : RaftNode) (votes : gmap Z (gset Z)) (pkts : list Packet) :
  laterTerm n (maintain cur ps timeout n votes pkts).1.1.
Proof.
  unfold maintain, laterTerm.
  repeat first
    [ case_bool_decide
    | match goal with |- context [if ?b then _ else _] => destruct b end ];
    cbn; split; (done || lia).
Qed.

Lemma toggleNodeState_rel (R : RaftNode → RaftNode → Prop) (i timeout : Z)
    (e : Engine) :
  (∀ n, R n n) → (∀ n, R n (toggleNode timeout n)) →
  Forall2 R (nodes e) (nodes (toggleNodeState i timeout e)).
Proof.
  intros Hrefl Ht. unfold toggleNodeState.
  destruct (list_find _ _) as [[k n]|] eqn:Hfind; cbn [nodes].
  - apply list_find_Some in Hfind as (Hk & _ & _).
    by apply (Forall2_rel_insert R Hrefl _ _ n).
  - by apply Forall2_rel_refl.
Qed.

Lemma proposeLog_rel (R : RaftNode → RaftNode → Prop) (cmd : string)
    (e : Engine) :
  (∀ n, R n n) →
  (∀ n, state n = LEADER →
        R n (set_log (log n ++ [mkLogEntry (currentTerm n) cmd]) n)) →
  Forall2 R (nodes e) (nodes (proposeLog cmd e)).
Proof.
  intros Hrefl Hp. unfold proposeLog.
  destruct (list_find _ _) as [[k n]|] eqn:Hfind; cbn [nodes].
  - apply list_find_Some in Hfind as (Hk & Hl & _).
    apply (Forall2_rel_insert R Hrefl _ _ n); [done|by apply Hp].
  - by apply Forall2_rel_refl.
Qed.

Lemma engineStep_laterTerm (e e' : Engine) :
  engineStep e e' → Forall2 laterTerm (nodes e) (nodes e').
Proof.
  intros Hstep.
  destruct Hstep as [paused ps draw e e' Ht|j timeout e|cmd e].
  - apply (tick_rel laterTerm laterTerm_refl laterTerm_trans) in Ht;
      [done| | | | | |].
    + intros. apply processRequestVote_laterTerm.
    + intros. apply processVoteResponse_laterTerm.
    + intros. apply becomeLeader_laterTerm.
    + intros ????????? _ H. by eapply processAppendEntries_laterTerm.
    + intros. apply processAppendResponse_laterTerm.
    + intros. apply maintain_laterTerm.
  - apply toggleNodeState_rel; [apply laterTerm_refl|].
    intros m. unfold toggleNode, laterTerm.
    case_bool_decide; cbn; split; (done || lia).
  - apply proposeLog_rel; [apply laterTerm_refl|].
    intros m _. unfold laterTerm. cbn. split; (done || lia).
Qed.

(** X2.  Whatever the application does in one step (a tick with any inputs, a
    crash toggle or a proposal), every node keeps its position and id and
    its [currentTerm] does not decrease. *)
Theorem term_never_decreases (e e' : Engine) (i : nat) (n : RaftNode) :
  engineStep e e' → nodes e !! i = Some n →
  ∃ n', nodes e' !! i = Some n' ∧ id n' = id n
        ∧ currentTerm n ≤ currentTerm n'.
Proof.
  intros Hstep Hi.
  pose proof (engineStep_laterTerm e e' Hstep) as Hall.
  destruct (Forall2_lookup_l _ _ _ _ _ Hall Hi) as (n' & Hn' & Hid & Ht).
  by exists n'.
Qed.

Lemma term_never_decreases_witness :
  ∃ n', nodes commitAfter !! 2%nat = Some n' ∧ id n' = id commitFollower
        ∧ currentTerm commitFollower ≤ currentTerm n'.
Proof.
  apply (term_never_decreases commitBefore commitAfter 2%nat commitFollower).
  - apply (step_tick false 1 (λ _, 300)). vm_compute. reflexivity.
  - vm_compute. reflexivity.
Defined.

(** ** Crashed nodes are inert *)



(** ** Packets in flight *)

Section PacketPredicate.

Variable P : Packet → Prop.

(** Every packet a tick creates starts at progress 0. *)
Hypothesis P_new : ∀ f t pl s, P (mkPacket f t pl 0 s).

Lemma deliver_packets (w w' : Work) (p : Packet) :
  Forall P (survivingPackets w) → deliver w p = Some w' →
  Forall P (survivingPackets w').
Proof.
  intros Hs. unfold deliver.
  destruct (list_find _ _) as [[i target]|]; [|by intros [= <-]].
  case_bool_decide; [by intros [= <-]|].
  destruct (payload p) as [t c li lt|t g|t l pi pt es lc|t s mi].
  - unfold processRequestVote. cbv zeta. intros [= <-]. cbn.
    apply Forall_app. split; [done|]. apply Forall_singleton, P_new.
  - repeat match goal with |- context [if ?b then _ else _] => destruct b end;
      by intros [= <-].
  - unfold processAppendEntries. cbv zeta.
    repeat match goal with
           | |- context [if ?b then _ else _] => destruct b
           | |- context [match logOk ?a ?b ?c with _ => _ end] =>
               destruct (logOk a b c) as [[|]|]
           end;
      try done; intros [= <-]; cbn;
      (apply Forall_app; split; [done|]; apply Forall_singleton, P_new).
  - by intros [= <-].
Qed.

Lemma deliverAll_packets (w w' : Work) (todo : list Packet) :
  Forall P (survivingPackets w) → deliverAll w todo = Some w' →
  Forall P (survivingPackets w').
Proof.
  revert w. induction todo as [|p todo IH]; intros w Hs; cbn.
  - by intros [= <-].
  - destruct (deliver w p) as [w1|] eqn:Hd; [|done].
    apply IH. by eapply deliver_packets.
Qed.

Lemma maintain_packets (cur : list RaftNode) (ps : Q) (timeout : Z)
    (n : RaftNode) (votes : gmap Z (gset Z)) (pkts : list Packet) :
  Forall P pkts → Forall P (maintain cur ps timeout n votes pkts).2.
Proof.
  intros Hp.
  assert (Hb : ∀ sender pl, Forall P (broadcast sender pl cur ps)).
  { intros sender pl. unfold broadcast. apply Forall_fmap, Forall_forall.
    intros target _. apply P_new. }
  assert (Hh : ∀ leader, Forall P (heartbeats leader cur ps)).
  { intros leader. unfold heartbeats. apply Forall_fmap, Forall_forall.
    intros peer _. unfold heartbeatPacket. apply P_new. }
  unfold maintain.
  repeat first
    [ case_bool_decide
    | match goal with |- context [if ?b then _ else _] => destruct b end ];
    cbn; rewrite ?Forall_app; auto.
Qed.

Lemma maintainAll_packets (cur : list RaftNode) (ps : Q) (draw : nat → Z)
    (k : nat) (todo : list RaftNode) (votes : gmap Z (gset Z))
    (pkts : list Packet) :
  Forall P pkts → Forall P (maintainAll cur ps draw k todo votes pkts).2.
Proof.
  revert k votes pkts. induction todo as [|n todo IH]; intros k votes pkts Hp;
    cbn; [done|].
  pose proof (maintain_packets cur ps (draw k) n votes pkts Hp) as H1.
  destruct (maintain _ _ _ _ _ _) as [[u votes1] pkts1].
  specialize (IH (S k) votes1 pkts1 H1).
  by destruct (maintainAll _ _ _ _ _ _ _) as [[us votes2] pkts2].
Qed.

Lemma tick_packets (ps : Q) (draw : nat → Z) (e e' : Engine) :
  (∀ p, p ∈ packets e → hasArrived (advance p) = false → P (advance p)) →
  tick false ps draw e = Some e' → Forall P (packets e').
Proof.
  intros Hold. unfold tick.
  destruct (deliverAll _ _) as [w|] eqn:Hd; [|done].
  apply deliverAll_packets in Hd.
  - pose proof (maintainAll_packets (currentNodes w) ps draw 0
                  (currentNodes w) (currentVotes w) (survivingPackets w) Hd)
      as Hm.
    destruct (maintainAll _ _ _ _ _ _ _) as [[ns votes] pkts].
    by intros [= <-].
  - cbn. apply Forall_forall. intros q [Hq Hin]%list_elem_of_filter.
    apply list_elem_of_fmap in Hin as (p & -> & Hp). by apply Hold.
Qed.

End PacketPredicate.

(** X4.  In every reachable state each packet in flight has progress below
    100: a packet that reaches 100 is consumed in the same tick, whether
    its target handles or drops it. *)
Theorem packets_in_flight_not_arrived (e : Engine) :
  reachable e → Forall (λ p, hasArrived p = false) (packets e).
Proof.
  induction 1 as [draws Hlen|e e' paused ps draw He IH Ht|e i timeout He IH
                 |e cmd He IH].
  - constructor.
  - destruct paused; [by injection Ht as <-|].
    by apply (tick_packets (λ p, hasArrived p = false)) in Ht.
  - unfold toggleNodeState. by destruct (list_find _ _) as [[k n]|].
  - unfold proposeLog. by destruct (list_find _ _) as [[k n]|].
Qed.

Lemma packets_in_flight_not_arrived_witness :
  Forall (λ p, hasArrived p = false) (packets commitBefore).
Proof.
  apply (packets_in_flight_not_arrived commitBefore).
  apply (runScript_reachable commitScript sampleInitial);
    [exact sampleInitial_reachable|vm_compute; reflexivity].
Defined.

(** ** Stepping down *)

(** X8.  A live node that is delivered any packet of a term above its own
    adopts that term and is a follower afterwards, whatever the packet
    type and whatever the node was. *)
Theorem higher_term_steps_down (w w' : Work) (p : Packet) (i : nat)
    (target : RaftNode) :
  list_find (λ n : RaftNode, id n = to p) (currentNodes w)
  = Some (i, target) →
  state target ≠ CRASHED →
  currentTerm target < payloadTerm (payload p) →
  deliver w p = Some w' →
  ∃ n', currentNodes w' !! i = Some n' ∧ id n' = id target
        ∧ currentTerm n' = payloadTerm (payload p) ∧ state n' = FOLLOWER.
Proof.
  intros Hfind Hlive Hterm. unfold deliver. rewrite Hfind.
  apply list_find_Some in Hfind as (Hi & _ & _).
  apply lookup_lt_Some in Hi as Hlt.
  rewrite bool_decide_eq_false_2 by done.
  destruct (payload p) as [t c li lt|t g|t l pi pt es lc|t s mi];
    cbn [payloadTerm] in Hterm |- *.
  - unfold processRequestVote. cbv zeta.
    destruct (Z.ltb_spec (currentTerm target) t); [|lia].
    intros [= <-]. cbn [currentNodes].
    eexists. split; [by apply list_lookup_insert_eq|].
    by match goal with |- context [if ?b then _ else _] => destruct b end.
  - unfold processVoteResponse.
    destruct (Z.ltb_spec (currentTerm target) t); [|lia].
    rewrite bool_decide_eq_false_2 by done. cbn [andb].
    intros [= <-]. cbn [currentNodes].
    eexists. split; [by apply list_lookup_insert_eq|done].
  - destruct (processAppendEntries target t l pi pt es lc) as [[u r]|] eqn:Ha;
      [|done].
    assert (Hprev : -1 ≤ pi).
    { eapply processAppendEntries_Some_prev; [|by rewrite Ha]. lia. }
    destruct (processAppendEntries_fresh target t l pi pt es lc)
      as (ok & Hok & Hres); [lia|done|].
    rewrite Hres in Ha. injection Ha as <- _.
    intros [= <-]. cbn [currentNodes].
    eexists. split; [by apply list_lookup_insert_eq|done].
  - unfold processAppendResponse.
    destruct (Z.ltb_spec (currentTerm target) t); [|lia].
    intros [= <-]. cbn [currentNodes].
    eexists. split; [by apply list_lookup_insert_eq|done].
Qed.

Lemma higher_term_steps_down_witness :
  ∃ n', currentNodes sampleSteppedDown !! 0%nat = Some n'
        ∧ id n' = id sampleLeader
        ∧ currentTerm n' = payloadTerm (payload sampleRejection)
        ∧ state n' = FOLLOWER.
Proof.
  apply (higher_term_steps_down sampleLeaderWork sampleSteppedDown
           sampleRejection 0%nat sampleLeader).
  - vm_compute. reflexivity.
  - discriminate.
  - reflexivity.
  - vm_compute. reflexivity.
Defined.

(** ** Votes *)

Lemma processRequestVote_rejects (n1 : RaftNode) (T c T' c' li' lt' : Z) :
  currentTerm n1 = T → votedFor n1 = Some c →
  T' ≤ T → c' ≠ c ∨ T' < T →
  processRequestVote n1 T' c' li' lt'
  = (n1, mkPacket (id n1) c' (VoteResponse T false) 0 PACKET_SPEED).
Proof.
  intros Ht Hv HT Hc. unfold processRequestVote. cbv zeta.
  destruct (Z.ltb_spec (currentTerm n1) T') as [Hlt|_]; [lia|].
  rewrite Hv, Ht.
  destruct Hc as [Hc|Hc].
  - destruct (Z.eqb_spec c c') as [->|_]; [done|].
    rewrite andb_false_r. cbn [andb]. by rewrite Ht.
  - destruct (Z.leb_spec T T') as [Hle|_]; [lia|]. cbn [andb].
    by rewrite Ht.
Qed.

Lemma processRequestVote_grants (n2 : RaftNode) (T c' li' lt' : Z) :
  currentTerm n2 = T → votedFor n2 = None →
  from_option term (-1) (last (log n2)) < lt'
  ∨ (lt' = from_option term (-1) (last (log n2))
     ∧ Z.of_nat (length (log n2)) - 1 ≤ li') →
  processRequestVote n2 T c' li' lt'
  = (set_electionTimeout (currentTimeoutDuration n2)
       (set_votedFor (Some c') n2),
     mkPacket (id n2) c' (VoteResponse T true) 0 PACKET_SPEED).
Proof.
  intros Ht Hv Hup. rewrite <- lastLogTermOf_last in Hup.
  change (Z.of_nat (length (log n2))) with (llen (log n2)) in Hup.
  unfold processRequestVote. cbv zeta.
  destruct (Z.ltb_spec (currentTerm n2) T) as [Hlt|_]; [lia|].
  rewrite Hv, Ht. destruct (Z.leb_spec T T); [|lia]. cbn [andb].
  assert (Hb : (lastLogTermOf (log n2) <? lt')
               || (lt' =? lastLogTermOf (log n2))
                  && (llen (log n2) - 1 <=? li') = true).
  { destruct Hup as [H1|[H1 H2]].
    - by destruct (Z.ltb_spec (lastLogTermOf (log n2)) lt'); [|lia].
    - destruct (Z.eqb_spec lt' (lastLogTermOf (log n2))); [|done].
      destruct (Z.leb_spec (llen (log n2) - 1) li'); [|lia].
      by rewrite orb_true_r. }
  rewrite Hb. cbn. by rewrite Ht.
Qed.

(** X9.  Once a node has granted its vote to [c] in term [T], it rejects
    every RequestVote of a term up to [T] from another candidate, and every
    RequestVote of an earlier term, for as long as it handles nothing but
    such requests: each leaves it unchanged and is answered with term [T]
    and [voteGranted = false].  The vote does not outlast an AppendEntries
    of term [T]: that clears [votedFor], and a RequestVote of term [T]
    from any candidate whose log is up to date is granted afterwards. *)
Theorem processRequestVote_one_vote_per_term (n : RaftNode)
    (T c li lt t : Z) (rs : list (Z * Z * Z * Z)) :
  payload (processRequestVote n T c li lt).2 = VoteResponse t true →
  Forall (λ r : Z * Z * Z * Z, r.1.1.1 ≤ T ∧ (r.1.1.2 ≠ c ∨ r.1.1.1 < T))
    rs →
  let n1 := (processRequestVote n T c li lt).1 in
  t = T ∧ currentTerm n1 = T ∧ votedFor n1 = Some c
  ∧ requestVotes n1 rs
    = (n1,
       (λ r : Z * Z * Z * Z,
          mkPacket (id n) r.1.1.2 (VoteResponse T false) 0 PACKET_SPEED)
       <$> rs)
  ∧ ∀ l pi pt es lc n2 r2 c' li' lt',
      processAppendEntries n1 T l pi pt es lc = Some (n2, r2) →
      from_option term (-1) (last (log n2)) < lt'
      ∨ (lt' = from_option term (-1) (last (log n2))
         ∧ Z.of_nat (length (log n2)) - 1 ≤ li') →
      votedFor n2 = None
      ∧ processRequestVote n2 T c' li' lt'
        = (set_electionTimeout (currentTimeoutDuration n2)
             (set_votedFor (Some c') n2),
           mkPacket (id n) c' (VoteResponse T true) 0 PACKET_SPEED).
Proof.
  intros Hgrant Hrs. cbv zeta.
  assert (H1 : t = T
               ∧ currentTerm (processRequestVote n T c li lt).1 = T
               ∧ votedFor (processRequestVote n T c li lt).1 = Some c
               ∧ id (processRequestVote n T c li lt).1 = id n).
  { revert Hgrant. unfold processRequestVote. cbv zeta. cbn [fst snd payload].
    set (u := if currentTerm n <? T then _ else n).
    assert (Hu : T ≤ currentTerm u ∧ id u = id n).
    { unfold u. destruct (Z.ltb_spec (currentTerm n) T); cbn; split;
        (done || lia). }
    destruct (Z.leb_spec (currentTerm u) T) as [Hle|Hgt]; [|by intros [=]].
    cbn [andb].
    match goal with |- context [if ?b then _ else _] => destruct b end;
      [|by intros [=]].
    intros [= <-]. cbn. repeat split; (done || lia). }
  destruct H1 as (-> & Hterm & Hvote & Hid).
  split; [done|]. split; [done|]. split; [done|].
  generalize dependent (processRequestVote n T c li lt).1. intros n1 Ht Hv Hid.
  split.
  - unfold requestVotes.
    assert (Hgen : ∀ out : list Packet,
      foldl (λ (acc : RaftNode * list Packet) (r : Z * Z * Z * Z),
               let res :=
                 processRequestVote acc.1 r.1.1.1 r.1.1.2 r.1.2 r.2 in
               (res.1, acc.2 ++ [res.2]))
            (n1, out) rs
      = (n1,
         out ++ ((λ r : Z * Z * Z * Z,
                    mkPacket (id n) r.1.1.2 (VoteResponse T false) 0
                      PACKET_SPEED) <$> rs))).
    { induction Hrs as [|r rs [HT Hc] Hrs IH]; intros out;
        cbn [foldl fmap list_fmap].
      - by rewrite app_nil_r.
      - cbn [fst snd].
        rewrite (processRequestVote_rejects n1 T c r.1.1.1 r.1.1.2 r.1.2 r.2)
          by done.
        cbn [fst snd]. rewrite IH, Hid, <- app_assoc. done. }
    exact (Hgen []).
  - intros l pi pt es lc n2 r2 c' li' lt' Hae Hup.
    assert (Hprev : -1 ≤ pi).
    { eapply processAppendEntries_Some_prev; [|by rewrite Hae]. lia. }
    destruct (processAppendEntries_fresh n1 T l pi pt es lc)
      as (ok & _ & Heq); [lia|done|].
    cbv zeta in Heq. rewrite Heq in Hae. injection Hae as <- _.
    split; [done|].
    rewrite processRequestVote_grants; [|done|done|exact Hup].
    cbn [id set_commitIndex set_log followLeader set_electionTimeout
         set_votedFor set_state set_currentTerm]. by rewrite Hid.
Qed.

Lemma processRequestVote_one_vote_per_term_witness :
  requestVotes (processRequestVote sampleFollower 3 0 5 5).1
    [(3, 2, 9, 9); (2, 0, 9, 9)]
  = ((processRequestVote sampleFollower 3 0 5 5).1,
     [mkPacket 1 2 (VoteResponse 3 false) 0 PACKET_SPEED;
      mkPacket 1 0 (VoteResponse 3 false) 0 PACKET_SPEED]).
Proof.
  destruct (processRequestVote_one_vote_per_term sampleFollower 3 0 5 5 3
              [(3, 2, 9, 9); (2, 0, 9, 9)]) as (_ & _ & _ & H & _).
  - reflexivity.
  - repeat constructor; cbn; lia.
  - exact H.
Defined.

Lemma hasMajority_size (s : gset Z) :
  hasMajority s = true ↔ (2 ≤ size s)%nat.
Proof.
  unfold hasMajority, NODE_COUNT.
  destruct (Z.ltb_spec 5 (2 * (Z.of_nat (size s) + 1))); split; (done || lia).
Qed.

Lemma becomeLeader_heartbeatTimer (cur : list RaftNode) (u : RaftNode) :
  heartbeatTimer (becomeLeader cur u) = 0.
Proof.
  unfold becomeLeader.
  cut (∀ a : RaftNode,
         heartbeatTimer
           (foldl (λ (acc : RaftNode) (n : RaftNode),
                     set_matchIndex (<[id n := 0]> (matchIndex acc))
                       (set_nextIndex
                          (<[id n := llen (log acc)]> (nextIndex acc)) acc))
              a cur) = heartbeatTimer a).
  { intros H. by rewrite H. }
  induction cur as [|x cur IH]; intros a; [done|]. cbn [foldl].
  by rewrite IH.
Qed.

(** X10.  The vote count of the tick: when a granted VoteResponse of the
    candidate's own term is delivered, the sender joins the candidate's
    set of voters.  With fewer than two distinct voters in the set the
    candidate is unchanged; with two it becomes leader of the same term
    with [heartbeatTimer = 0], [nextIndex = log.length] and
    [matchIndex = 0] for every node of the cluster, and its set of voters
    is emptied.  No reply is sent either way. *)
Theorem vote_counting (w : Work) (p : Packet) (i : nat) (target : RaftNode) :
  list_find (λ n : RaftNode, id n = to p) (currentNodes w)
  = Some (i, target) →
  state target = CANDIDATE →
  payload p = VoteResponse (currentTerm target) true →
  let s := default ∅ (currentVotes w !! id target) ∪ {[from p]} in
  ∃ w', deliver w p = Some w'
    ∧ survivingPackets w' = survivingPackets w
    ∧ if decide (2 ≤ size s)%nat
      then currentVotes w' = <[id target := ∅]> (currentVotes w)
           ∧ ∃ n', currentNodes w' = <[i := n']> (currentNodes w)
               ∧ state n' = LEADER ∧ heartbeatTimer n' = 0
               ∧ id n' = id target ∧ currentTerm n' = currentTerm target
               ∧ log n' = log target ∧ votedFor n' = votedFor target
               ∧ commitIndex n' = commitIndex target
               ∧ ∀ m, m ∈ currentNodes w →
                   nextIndex n' !! id m = Some (llen (log target))
                   ∧ matchIndex n' !! id m = Some 0
      else currentVotes w' = <[id target := s]> (currentVotes w)
           ∧ currentNodes w' = currentNodes w.
Proof.
  intros Hfind Hcand Hpl s. unfold deliver. rewrite Hfind, Hpl.
  apply list_find_Some in Hfind as (Hi & _ & _).
  rewrite bool_decide_eq_false_2 by (rewrite Hcand; discriminate).
  assert (Hu : processVoteResponse target (currentTerm target) true = target).
  { unfold processVoteResponse.
    by destruct (Z.ltb_spec (currentTerm target) (currentTerm target));
      [lia|]. }
  rewrite Hu. rewrite (list_insert_id (currentNodes w) i target) by done.
  rewrite bool_decide_eq_true_2, Z.eqb_refl by done. cbn [andb].
  fold s. destruct (hasMajority s) eqn:Hm.
  - apply hasMajority_size in Hm.
    eexists. split; [done|]. split; [done|].
    cbn [currentVotes currentNodes]. rewrite decide_True by done.
    split; [done|].
    exists (becomeLeader (currentNodes w) target). split; [done|].
    destruct (becomeLeader_fields (currentNodes w) target)
      as (Hid & Ht & Hl & Hv & Hc & Hs & Hmi & Hni).
    pose proof (becomeLeader_heartbeatTimer (currentNodes w) target) as Hh.
    repeat split; try done.
    + rewrite Hni, decide_True; [done|]. by apply list_elem_of_fmap_2.
    + rewrite Hmi, decide_True; [done|]. by apply list_elem_of_fmap_2.
  - eexists. split; [done|]. split; [done|].
    cbn [currentVotes currentNodes]. rewrite decide_False; [done|].
    intros H%hasMajority_size. congruence.
Qed.

Lemma vote_counting_witness :
  (∃ w' n', deliver sampleElection (sampleGrant 4) = Some w'
            ∧ currentNodes w' = <[0%nat := n']> (currentNodes sampleElection)
            ∧ state n' = LEADER)
  ∧ (∃ w', deliver sampleElection (sampleGrant 3) = Some w'
           ∧ currentNodes w' = currentNodes sampleElection).
Proof.
  split.
  - destruct (vote_counting sampleElection (sampleGrant 4) 0%nat
                sampleCandidate) as (w' & Hd & _ & H);
      [vm_compute; reflexivity|reflexivity|reflexivity|].
    destruct (decide _) as [_|Hn] in H.
    + destruct H as (_ & n' & Hn' & Hs & _). by exists w', n'.
    + exfalso. apply Hn. vm_compute. lia.
  - destruct (vote_counting sampleElection (sampleGrant 3) 0%nat
                sampleCandidate) as (w' & Hd & _ & H);
      [vm_compute; reflexivity|reflexivity|reflexivity|].
    destruct (decide _) as [Hy|_] in H.
    + exfalso. vm_compute in Hy. lia.
    + destruct H as (_ & Hn). by exists w'.
Defined.

(** ** Proposals *)

(** X12.  A proposal changes nothing but the log of the first leader in array
    order, which gains one entry carrying that leader's current term;
    packets and vote sets are untouched, and without a leader the state
    is unchanged. *)
Theorem proposeLog_effect (cmd : string) (e : Engine) :
  packets (proposeLog cmd e) = packets e
  ∧ votesReceived (proposeLog cmd e) = votesReceived e
  ∧ ((∀ n, n ∈ nodes e → state n ≠ LEADER) → proposeLog cmd e = e)
  ∧ ∀ k leader,
      nodes e !! k = Some leader → state leader = LEADER →
      (∀ j m, (j < k)%nat → nodes e !! j = Some m → state m ≠ LEADER) →
      nodes (proposeLog cmd e)
      = <[k := set_log (log leader ++ [mkLogEntry (currentTerm leader) cmd])
                 leader]> (nodes e).
Proof.
  unfold proposeLog.
  destruct (list_find _ _) as [[k0 l0]|] eqn:Hfind; cbn.
  - apply list_find_Some in Hfind as (Hk0 & Hl0 & Hfirst).
    split; [done|]. split; [done|]. split.
    + intros Hno. exfalso. eapply Hno; [|exact Hl0].
      by eapply list_elem_of_lookup_2.
    + intros k leader Hk Hl Hbefore.
      destruct (Nat.lt_trichotomy k k0) as [Hlt|[->|Hgt]].
      * exfalso. by eapply Hfirst.
      * rewrite Hk0 in Hk. by injection Hk as ->.
      * exfalso. by eapply Hbefore.
  - apply list_find_None in Hfind.
    split; [done|]. split; [done|]. split; [by destruct e|].
    intros k leader Hk Hl _. exfalso.
    by eapply (Forall_lookup_1 _ _ _ _ Hfind Hk).
Qed.

(** ** Followers without entries *)

(** X14.  In every reachable state each AppendEntries in flight has
    [prevLogIndex >= 0], so a node whose log is empty rejects it: the
    reply reports failure with [matchIndex = -1], and the node's log stays
    empty and its [commitIndex] unchanged. *)
Theorem empty_log_rejects_appendEntries (e : Engine) (p : Packet)
    (n : RaftNode) (t l pi pt : Z) (es : list LogEntry) (lc : Z) :
  reachable e → p ∈ packets e →
  payload p = AppendEntries t l pi pt es lc →
  log n = [] →
  ∃ n', processAppendEntries n t l pi pt es lc
        = Some (n', mkPacket (id n) l
                      (AppendResponse (currentTerm n') false (-1))
                      0 PACKET_SPEED)
        ∧ log n' = [] ∧ commitIndex n' = commitIndex n.
Proof.
  intros [_ Hp]%reachable_wf Hin Hpl Hlog.
  rewrite Forall_forall in Hp. specialize (Hp p Hin).
  unfold wfPacket in Hp. rewrite Hpl in Hp. destruct Hp as (Hpi & _).
  unfold processAppendEntries. cbv zeta.
  set (u := if currentTerm n <=? t then followLeader t n else n).
  assert (Hu : log u = [] ∧ commitIndex u = commitIndex n).
  { unfold u. by destruct (currentTerm n <=? t). }
  destruct Hu as [Hul Huc].
  destruct (t <? currentTerm u).
  - exists u. by rewrite Hul.
  - unfold logOk. rewrite Hul.
    destruct (Z.eqb_spec pi (-1)); [lia|].
    destruct (Z.ltb_spec pi (llen [])) as [H|_];
      [unfold llen in H; cbn in H; lia|].
    exists u. by rewrite Hul.
Qed.

Lemma empty_log_rejects_appendEntries_witness :
  ∃ n', processAppendEntries commitVoter 3 1 0 1
          [mkLogEntry 2 "SET X=5"] 3
        = Some (n', mkPacket (id commitVoter) 1
                      (AppendResponse (currentTerm n') false (-1))
                      0 PACKET_SPEED)
        ∧ log n' = [] ∧ commitIndex n' = commitIndex commitVoter.
Proof.
  apply (empty_log_rejects_appendEntries commitBefore commitPacket).
  - apply (runScript_reachable commitScript sampleInitial);
      [exact sampleInitial_reachable|vm_compute; reflexivity].
  - apply (list_elem_of_lookup_2 _ 0%nat). vm_compute. reflexivity.
  - reflexivity.
  - reflexivity.
Defined.

(** ** What a successful AppendEntries leaves in the log *)

Lemma specMerge_terms (lg es : list LogEntry) (p k : nat) (e : LogEntry) :
  (p ≤ length lg)%nat → es !! k = Some e →
  ∃ x, specMerge lg p es !! (p + k)%nat = Some x ∧ term x = term e.
Proof.
  revert lg p k. induction es as [|e0 es IH]; intros lg p k Hp Hk; [done|].
  cbn [specMerge]. destruct (lg !! p) as [x|] eqn:Hx.
  - apply lookup_lt_Some in Hx as Hlt. case_decide as Ht.
    + destruct k as [|k]; cbn in Hk.
      * injection Hk as <-. exists x.
        rewrite Nat.add_0_r, specMerge_lookup_below by lia. done.
      * replace (p + S k)%nat with (S p + k)%nat by lia. apply IH; [lia|done].
    + exists e. split; [|done].
      rewrite lookup_app_r by (rewrite length_take; lia).
      rewrite length_take.
      replace (p + k - p `min` length lg)%nat with k by lia. done.
  - apply lookup_ge_None in Hx. exists e. split; [|done].
    rewrite lookup_app_r by lia.
    replace (p + k - length lg)%nat with k by lia. done.
Qed.

(** X16.  After an AppendEntries that is answered with success, the follower's
    log holds at every carried position an entry of the carried entry's
    term (its own entry when the terms already agreed, whatever its
    command), the log up to [prevLogIndex] is as before, and the reply
    reports the follower's last index. *)
Theorem appendEntries_success_log (node u : RaftNode)
    (t l prev pt : Z) (es : list LogEntry) (lc : Z) (r : Packet)
    (t' mi : Z) :
  processAppendEntries node t l prev pt es lc = Some (u, r) →
  payload r = AppendResponse t' true mi →
  (∀ k e, es !! k = Some e →
     ∃ x, log u !! (Z.to_nat (prev + 1) + k)%nat = Some x
          ∧ term x = term e)
  ∧ take (Z.to_nat (prev + 1)) (log u)
    = take (Z.to_nat (prev + 1)) (log node)
  ∧ mi = llen (log u) - 1 ∧ t' = t ∧ currentTerm u = t.
Proof.
  intros Hres Hpl.
  destruct (Z.lt_ge_cases t (currentTerm node)) as [Hstale|Hfresh].
  { exfalso. revert Hres. unfold processAppendEntries.
    destruct (Z.leb_spec (currentTerm node) t); [lia|].
    destruct (Z.ltb_spec t (currentTerm node)); [|lia].
    intros [= <- <-]. by cbn in Hpl. }
  assert (Hprev : -1 ≤ prev).
  { eapply processAppendEntries_Some_prev; [|by rewrite Hres]. lia. }
  destruct (processAppendEntries_fresh node t l prev pt es lc)
    as (ok & Hok & Heq); [lia|done|].
  cbv zeta in Heq. rewrite Heq in Hres. injection Hres as <- <-.
  cbn in Hpl. injection Hpl as <- -> <-.
  assert (Hp : (Z.to_nat (prev + 1) ≤ length (log node))%nat).
  { destruct Hok as [Hok _]. destruct (Hok eq_refl) as [->|(H0 & x & Hx & _)].
    - cbn. lia.
    - apply lookup_lt_Some in Hx. lia. }
  cbn. split; [|split; [|done]].
  - intros k e Hk. by apply specMerge_terms.
  - apply list_eq. intros q.
    destruct (decide (q < Z.to_nat (prev + 1))%nat) as [Hq|Hq].
    + rewrite !lookup_take_lt by done. by apply specMerge_lookup_below.
    + rewrite !lookup_take_ge by lia. done.
Qed.

Lemma appendEntries_success_log_witness :
  ∃ u r, processAppendEntries sampleFollower 3 0 0 1 sampleEntries 0
         = Some (u, r)
    ∧ take 1 (log u) = take 1 (log sampleFollower)
    ∧ term <$> log u = [1; 1; 3].
Proof.
  destruct (processAppendEntries sampleFollower 3 0 0 1 sampleEntries 0)
    as [[u r]|] eqn:Hres; [|vm_compute in Hres; discriminate].
  destruct (appendEntries_success_log sampleFollower u 3 0 0 1 sampleEntries
              0 r 3 2 Hres) as (_ & Htake & _).
  - vm_compute in Hres. by injection Hres as <- <-.
  - exists u, r. split; [done|]. split; [exact Htake|].
    vm_compute in Hres. by injection Hres as <- <-.
Defined.

(** ** Terms of log entries *)

Lemma logBounded_keep (n n' : RaftNode) :
  log n' = log n → currentTerm n ≤ currentTerm n' →
  logBounded n → logBounded n'.
Proof.
  unfold logBounded. intros -> Ht Hb. eapply Forall_impl; [exact Hb|].
  cbn. intros x Hx. lia.
Qed.

Lemma appendLoop_Forall (P : LogEntry → Prop) (lg es : list LogEntry)
    (i : Z) :
  Forall P lg → Forall P es → Forall P (appendLoop lg i es).
Proof.
  revert lg i. induction es as [|e es IH]; intros lg i Hlg Hes; [done|].
  apply Forall_cons in Hes as [He Hes]. cbn [appendLoop]. apply IH; [|done].
  destruct (llen lg <=? i).
  - apply Forall_app. split; [done|]. by apply Forall_singleton.
  - destruct (log_at lg i) as [x|]; [|done].
    destruct (term x =? term e); [done|].
    apply Forall_app. split; [|by apply Forall_singleton].
    unfold slice_to. destruct (i <? 0); by apply Forall_take.
Qed.

Lemma processRequestVote_log (n : RaftNode) (t c li lt : Z) :
  log (processRequestVote n t c li lt).1 = log n
  ∧ entriesBounded (processRequestVote n t c li lt).2.
Proof.
  unfold processRequestVote, entriesBounded. cbn [fst snd payload].
  split; [|done].
  repeat match goal with |- context [if ?b then _ else _] => destruct b end;
    done.
Qed.

Lemma processAppendEntries_bounded (n u : RaftNode) (t l pi pt : Z)
    (es : list LogEntry) (lc : Z) (r : Packet) :
  logBounded n → Forall (λ x : LogEntry, term x ≤ t) es →
  processAppendEntries n t l pi pt es lc = Some (u, r) →
  logBounded u ∧ entriesBounded r.
Proof.
  intros Hn Hes. unfold processAppendEntries. cbv zeta.
  destruct (Z.leb_spec (currentTerm n) t) as [Hle|Hgt].
  - change (currentTerm (followLeader t n)) with t.
    change (log (followLeader t n)) with (log n).
    assert (Hlg : Forall (λ x : LogEntry, term x ≤ t) (log n)).
    { eapply Forall_impl; [exact Hn|]. cbn. intros x Hx. lia. }
    destruct (t <? t); [by intros [= <- <-]|].
    destruct (logOk _ _ _) as [[|]|]; [|by intros [= <- <-]|done].
    intros [= <- <-]. split; [|done].
    assert (Hl : Forall (λ x : LogEntry, term x ≤ t)
                   (appendLoop (log n) (pi + 1) es))
      by by apply appendLoop_Forall.
    unfold logBounded.
    by destruct (commitIndex _ <? lc).
  - destruct (Z.ltb_spec t (currentTerm n)); [|lia].
    by intros [= <- <-].
Qed.

Lemma processAppendResponse_log (n : RaftNode) (s t : Z) (b : bool)
    (mi : Z) :
  log (processAppendResponse n s t b mi) = log n.
Proof.
  unfold processAppendResponse. cbv zeta.
  repeat match goal with |- context [if ?b then _ else _] => destruct b end;
    done.
Qed.

Lemma deliver_bounded (w w' : Work) (p : Packet) :
  Forall logBounded (currentNodes w) →
  Forall entriesBounded (survivingPackets w) →
  entriesBounded p → deliver w p = Some w' →
  Forall logBounded (currentNodes w')
  ∧ Forall entriesBounded (survivingPackets w').
Proof.
  intros Hn Hs Hp. unfold deliver.
  destruct (list_find _ _) as [[i target]|] eqn:Hfind; [|by intros [= <-]].
  apply list_find_Some in Hfind as (Hi & _ & _).
  pose proof (Forall_lookup_1 _ _ _ _ Hn Hi) as Ht.
  case_bool_decide; [by intros [= <-]|].
  unfold entriesBounded in Hp.
  destruct (payload p) as [t c li lt|t g|t l pi pt es lc|t s mi].
  - destruct (processRequestVote_log target t c li lt) as [Hl Hr].
    pose proof (processRequestVote_laterTerm target t c li lt) as [_ Hle].
    destruct (processRequestVote target t c li lt) as [u r].
    intros [= <-]. cbn in *. split.
    + apply Forall_insert; [done|]. by eapply logBounded_keep.
    + apply Forall_app. split; [done|]. by apply Forall_singleton.
  - pose proof (processVoteResponse_laterTerm target t g) as [_ Hle].
    assert (Hl : log (processVoteResponse target t g) = log target).
    { unfold processVoteResponse. by destruct (_ <? _). }
    set (u := processVoteResponse target t g) in *.
    assert (Hu : logBounded u) by by eapply logBounded_keep.
    destruct (bool_decide (state u = CANDIDATE) && (t =? currentTerm u) && g);
      [|intros [= <-]; cbn; split; [by apply Forall_insert|done]].
    destruct (hasMajority _);
      [|intros [= <-]; cbn; split; [by apply Forall_insert|done]].
    intros [= <-]. cbn. split; [|done].
    apply Forall_insert; [by apply Forall_insert|].
    destruct (becomeLeader_fields (<[i := u]> (currentNodes w)) u)
      as (_ & Hbt & Hbl & _).
    eapply logBounded_keep; [exact Hbl| |exact Hu]. lia.
  - destruct (processAppendEntries target t l pi pt es lc) as [[u r]|] eqn:Ha;
      [|done].
    destruct (processAppendEntries_bounded target u t l pi pt es lc r Ht Hp Ha)
      as [Hu Hr].
    intros [= <-]. cbn. split; [by apply Forall_insert|].
    apply Forall_app. split; [done|]. by apply Forall_singleton.
  - intros [= <-]. cbn. split; [|done].
    apply Forall_insert; [done|].
    pose proof (processAppendResponse_laterTerm target (from p) t s mi)
      as [_ Hle].
    eapply logBounded_keep; [apply processAppendResponse_log|done|done].
Qed.

Lemma deliverAll_bounded (w w' : Work) (todo : list Packet) :
  Forall logBounded (currentNodes w) →
  Forall entriesBounded (survivingPackets w) →
  Forall entriesBounded todo → deliverAll w todo = Some w' →
  Forall logBounded (currentNodes w')
  ∧ Forall entriesBounded (survivingPackets w').
Proof.
  revert w. induction todo as [|p todo IH]; intros w Hn Hs Hall; cbn.
  - by intros [= <-].
  - apply Forall_cons in Hall as [Hp Hall].
    destruct (deliver w p) as [w1|] eqn:Hd; [|done].
    destruct (deliver_bounded w w1 p Hn Hs Hp Hd) as [Hn1 Hs1].
    by apply IH.
Qed.

Lemma heartbeats_bounded (leader : RaftNode) (cur : list RaftNode) (ps : Q) :
  logBounded leader → Forall entriesBounded (heartbeats leader cur ps).
Proof.
  intros Hl. unfold heartbeats. apply Forall_fmap, Forall_forall.
  intros peer _. unfold heartbeatPacket, entriesBounded. cbn.
  unfold slice_from. destruct (_ <? 0); by apply Forall_drop.
Qed.

Lemma maintain_bounded (cur : list RaftNode) (ps : Q) (timeout : Z)
    (n : RaftNode) (votes : gmap Z (gset Z)) (pkts : list Packet) :
  logBounded n → Forall entriesBounded pkts →
  logBounded (maintain cur ps timeout n votes pkts).1.1
  ∧ Forall entriesBounded (maintain cur ps timeout n votes pkts).2.
Proof.
  intros Hn Hp.
  assert (Hb : ∀ sender t c li lt,
            Forall entriesBounded
              (broadcast sender (RequestVote t c li lt) cur ps)).
  { intros. unfold broadcast. apply Forall_fmap, Forall_forall. by intros. }
  assert (Hk : ∀ u : RaftNode, log u = log n →
            currentTerm n ≤ currentTerm u → logBounded u).
  { intros u Hl Ht. by eapply logBounded_keep. }
  unfold maintain.
  repeat first
    [ case_bool_decide
    | match goal with |- context [if ?b then _ else _] => destruct b end ];
    cbn [fst snd]; (split; [apply Hk; cbn; (done || lia)|]);
    rewrite ?Forall_app; repeat split; try done;
    try apply Hb; apply heartbeats_bounded, Hk; cbn; (done || lia).
Qed.

Lemma maintainAll_bounded (cur : list RaftNode) (ps : Q) (draw : nat → Z)
    (k : nat) (todo : list RaftNode) (votes : gmap Z (gset Z))
    (pkts : list Packet) :
  Forall logBounded todo → Forall entriesBounded pkts →
  Forall logBounded (maintainAll cur ps draw k todo votes pkts).1.1
  ∧ Forall entriesBounded (maintainAll cur ps draw k todo votes pkts).2.
Proof.
  revert k votes pkts. induction todo as [|n todo IH];
    intros k votes pkts Hall Hp; cbn; [done|].
  apply Forall_cons in Hall as [Hn Hall].
  pose proof (maintain_bounded cur ps (draw k) n votes pkts Hn Hp) as [H1 H2].
  destruct (maintain _ _ _ _ _ _) as [[u votes1] pkts1].
  specialize (IH (S k) votes1 pkts1 Hall H2).
  destruct (maintainAll _ _ _ _ _ _ _) as [[us votes2] pkts2].
  cbn in *. destruct IH as [IH1 IH2]. split; [by constructor|done].
Qed.

Lemma reachable_bounded (e : Engine) :
  reachable e →
  Forall logBounded (nodes e) ∧ Forall entriesBounded (packets e).
Proof.
  induction 1 as [draws Hlen|e e' paused ps draw He IH Ht|e i timeout He IH
                 |e cmd He IH].
  - split; [|constructor]. unfold initialEngine, initialNodes. cbn.
    apply Forall_forall. intros n Hn.
    apply list_elem_of_lookup_1 in Hn as [k Hk].
    rewrite list_lookup_imap in Hk.
    destruct (draws !! k) as [d|]; [|done]. injection Hk as <-.
    constructor.
  - destruct IH as [Hn Hp]. revert Ht. unfold tick.
    destruct paused; [by intros [= <-]|].
    assert (Hmoved : Forall entriesBounded (advance <$> packets e)).
    { apply Forall_fmap. eapply Forall_impl; [exact Hp|]. by intros p. }
    destruct (deliverAll _ _) as [w|] eqn:Hd; [|done].
    apply deliverAll_bounded in Hd as [Hn1 Hs1];
      [|done|by apply Forall_filter|by apply Forall_filter].
    pose proof (maintainAll_bounded (currentNodes w) ps draw 0
                  (currentNodes w) (currentVotes w) (survivingPackets w)
                  Hn1 Hs1) as [H1 H2].
    destruct (maintainAll _ _ _ _ _ _ _) as [[ns votes] pkts].
    by intros [= <-].
  - destruct IH as [Hn Hp]. unfold toggleNodeState.
    destruct (list_find _ _) as [[k n]|] eqn:Hfind; [|done].
    apply list_find_Some in Hfind as (Hk & _ & _).
    split; [|done]. cbn. apply Forall_insert; [done|].
    pose proof (Forall_lookup_1 _ _ _ _ Hn Hk) as Hb.
    eapply logBounded_keep; [| |exact Hb];
      unfold toggleNode; case_bool_decide; cbn; (done || lia).
  - destruct IH as [Hn Hp]. unfold proposeLog.
    destruct (list_find _ _) as [[k n]|] eqn:Hfind; [|done].
    apply list_find_Some in Hfind as (Hk & _ & _).
    split; [|done]. cbn. apply Forall_insert; [done|].
    pose proof (Forall_lookup_1 _ _ _ _ Hn Hk) as Hb.
    unfold logBounded in *. cbn. apply Forall_app. split; [done|].
    apply Forall_singleton. cbn. lia.
Qed.

(** X17.  In every reachable state no log entry is of a later term than the
    node holding it, and no entry carried by an AppendEntries in flight is
    of a later term than the packet. *)
Theorem log_terms_bounded (e : Engine) (x : LogEntry) :
  reachable e →
  (∀ n, n ∈ nodes e → x ∈ log n → term x ≤ currentTerm n)
  ∧ (∀ p t l pi pt es lc,
       p ∈ packets e → payload p = AppendEntries t l pi pt es lc →
       x ∈ es → term x ≤ t).
Proof.
  intros [Hn Hp]%reachable_bounded.
  rewrite Forall_forall in Hn. rewrite Forall_forall in Hp. split.
  - intros n Hin Hx. specialize (Hn n Hin). unfold logBounded in Hn.
    rewrite Forall_forall in Hn. by apply Hn.
  - intros p t l pi pt es lc Hin Hpl Hx. specialize (Hp p Hin).
    unfold entriesBounded in Hp. rewrite Hpl in Hp.
    rewrite Forall_forall in Hp. by apply Hp.
Qed.

Lemma log_terms_bounded_witness :
  term commitEntry2 ≤ currentTerm commitFollower.
Proof.
  apply (log_terms_bounded commitBefore commitEntry2).
  - apply (runScript_reachable commitScript sampleInitial);
      [exact sampleInitial_reachable|vm_compute; reflexivity].
  - apply (list_elem_of_lookup_2 _ 2%nat). vm_compute. reflexivity.
  - apply (list_elem_of_lookup_2 _ 2%nat). vm_compute. reflexivity.
Defined.

(** ** The log column of the display *)

(** X20.  Row [idx] of a node's log column shows the entry at index
    [max(0, length - 5) + idx], and flags it as committed exactly when
    that index is at most [commitIndex + max(0, 5 - length)]: the flag is
    the committed status for logs of five entries or more, and is shifted
    by [5 - length] positions for shorter logs. *)
Theorem logRows_spec (node : RaftNode) (idx : nat) (entry : LogEntry)
    (flag : bool) :
  logRows node !! idx = Some (entry, flag) →
  log node !! (length (log node) - 5 + idx)%nat = Some entry
  ∧ (flag = true ↔
       Z.of_nat (length (log node) - 5 + idx)
       ≤ commitIndex node + Z.max 0 (5 - llen (log node))).
Proof.
  unfold logRows, slice_from, llen. cbn [Z.ltb Z.compare].
  rewrite list_lookup_imap, lookup_drop.
  replace (Z.to_nat (0 `max` (Z.of_nat (length (log node)) + -5)))
    with (length (log node) - 5)%nat by lia.
  destruct (log node !! _) as [x|]; [|done].
  cbn. intros [= <- <-]. split; [done|].
  rewrite bool_decide_eq_true. lia.
Qed.

Lemma logRows_spec_witness :
  logRows sampleShortLog !! 1%nat = Some (mkLogEntry 1 "ADD USER", true)
  ∧ log sampleShortLog !! 1%nat = Some (mkLogEntry 1 "ADD USER")
  ∧ commitIndex sampleShortLog = 0.
Proof.
  split; [reflexivity|]. split; [|reflexivity].
  apply (logRows_spec sampleShortLog 1%nat (mkLogEntry 1 "ADD USER") true).
  reflexivity.
Defined.

(** ** Only the toggle crashes or revives *)

Lemma processRequestVote_state (n : RaftNode) (t c li lt : Z) :
  state n ≠ CRASHED → state (processRequestVote n t c li lt).1 ≠ CRASHED.
Proof.
  unfold processRequestVote. cbn [fst].
  repeat match goal with |- context [if ?b then _ else _] => destruct b end;
    done.
Qed.

Lemma maintain_state (cur : list RaftNode) (ps : Q) (timeout : Z)
    (n : RaftNode) (votes : gmap Z (gset Z)) (pkts : list Packet) :
  sameLiveness n (maintain cur ps timeout n votes pkts).1.1.
Proof.
  unfold maintain, sameLiveness.
  case_bool_decide as Hcr; [done|].
  repeat first
    [ case_bool_decide
    | match goal with |- context [if ?b then _ else _] => destruct b end ];
    cbn in *; split; intros; congruence.
Qed.

(** X13.  A tick or a proposal never crashes a live node and never revives a
    crashed one: only the toggle changes whether a node is down. *)
Theorem liveness_kept (e e' : Engine) (i : nat) (n : RaftNode) :
  (∃ paused playbackSpeed draw, tick paused playbackSpeed draw e = Some e')
  ∨ (∃ cmd, e' = proposeLog cmd e) →
  nodes e !! i = Some n →
  ∃ n', nodes e' !! i = Some n' ∧ (state n' = CRASHED ↔ state n = CRASHED).
Proof.
  intros Hstep Hi.
  assert (Hrefl : ∀ m, sameLiveness m m) by done.
  assert (Htrans : ∀ a b c, sameLiveness a b → sameLiveness b c →
                            sameLiveness a c).
  { unfold sameLiveness. intros a b c Hab Hbc. by rewrite Hbc. }
  assert (Hlive : ∀ m m' : RaftNode,
            state m ≠ CRASHED → state m' ≠ CRASHED → sameLiveness m m').
  { unfold sameLiveness. intros m m' H1 H2. split; intros; done. }
  assert (Hall : Forall2 sameLiveness (nodes e) (nodes e')).
  { destruct Hstep as [(paused & ps & draw & Ht)|(cmd & ->)].
    - apply (tick_rel sameLiveness Hrefl Htrans) in Ht; [done| | | | | |].
      + intros m t c li lt Hm. apply Hlive; [done|].
        by apply processRequestVote_state.
      + intros m t g Hm. apply Hlive; [done|].
        unfold processVoteResponse. by destruct (_ <? _).
      + intros cur m Hm. apply Hlive; [by rewrite Hm|].
        destruct (becomeLeader_fields cur m) as (_ & _ & _ & _ & _ & Hs & _).
        by rewrite Hs.
      + intros m t l pi pt es lc m' r Hm Ha. apply Hlive; [done|].
        revert Ha. unfold processAppendEntries. cbv zeta.
        repeat match goal with
               | |- context [if ?b then _ else _] => destruct b
               | |- context [match logOk ?a ?b ?c with _ => _ end] =>
                   destruct (logOk a b c) as [[|]|]
               end; try done; by intros [= <- _].
      + intros m s t b mi Hm. apply Hlive; [done|].
        unfold processAppendResponse. cbv zeta.
        repeat match goal with
               | |- context [if ?b then _ else _] => destruct b
               | H : bool_decide _ && _ = true |- _ =>
                   apply andb_prop in H as [?%bool_decide_eq_true _]
               end; cbn; done.
      + intros. apply maintain_state.
    - apply proposeLog_rel; [done|]. intros m Hl. unfold sameLiveness. cbn.
      done. }
  destruct (Forall2_lookup_l _ _ _ _ _ Hall Hi) as (n' & Hn' & Hs).
  by exists n'.
Qed.

Lemma liveness_kept_witness :
  ∃ n', nodes commitAfter !! 2%nat = Some n'
        ∧ (state n' = CRASHED ↔ state commitFollower = CRASHED).
Proof.
  apply (liveness_kept commitBefore commitAfter 2%nat commitFollower).
  - left. exists false, 1%Q, (λ _, 300). vm_compute. reflexivity.
  - vm_compute. reflexivity.
Defined.

(** ** The leader's bookkeeping of a follower *)

(** X15.  How an AppendResponse of the leader's own term moves the next
    heartbeat for its sender.  After a failure the next [prevLogIndex] is
    one less than the last one, but never below 0 (so [prevLogIndex = -1]
    is never tried); after a success reporting [matchIndex = mi >= 0] it
    is [mi]. *)
Theorem retry_prevLogIndex (leader : RaftNode) (peer mi : Z)
    (playbackSpeed : Q) :
  state leader = LEADER →
  (∀ v, nextIndex leader !! peer = Some v → 0 ≤ v) →
  ∃ pi,
    payloadPrev (payload (heartbeatPacket leader peer playbackSpeed))
    = Some pi
    ∧ 0 ≤ pi
    ∧ payloadPrev
        (payload
           (heartbeatPacket
              (processAppendResponse leader peer (currentTerm leader)
                 false mi)
              peer playbackSpeed))
      = Some (Z.max 0 (pi - 1))
    ∧ (0 ≤ mi →
       payloadPrev
         (payload
            (heartbeatPacket
               (processAppendResponse leader peer (currentTerm leader)
                  true mi)
               peer playbackSpeed))
       = Some mi).
Proof.
  intros Hl Hnn. exists (orOne (nextIndex leader !! peer) - 1).
  assert (Hk : 1 ≤ orOne (nextIndex leader !! peer)).
  { unfold orOne. destruct (nextIndex leader !! peer) as [v|] eqn:Hv; [|lia].
    specialize (Hnn v eq_refl). destruct (Z.eqb_spec v 0); lia. }
  split; [done|]. split; [lia|].
  unfold processAppendResponse.
  destruct (Z.ltb_spec (currentTerm leader) (currentTerm leader)); [lia|].
  rewrite bool_decide_eq_true_2, Z.eqb_refl by done. cbn [andb].
  split.
  - unfold heartbeatPacket at 1. cbn [payload payloadPrev nextIndex
      set_nextIndex]. rewrite lookup_insert_eq. f_equal.
    set (k := orOne (nextIndex leader !! peer)) in *.
    unfold orOne. destruct (Z.eqb_spec (0 `max` (k - 1)) 0); lia.
  - intros Hmi. cbv zeta.
    destruct (commitGuard _ _);
      unfold heartbeatPacket; cbn [payload payloadPrev nextIndex
        set_nextIndex set_matchIndex set_commitIndex];
      rewrite lookup_insert_eq; f_equal; unfold orOne;
      destruct (Z.eqb_spec (mi + 1) 0); lia.
Qed.

Lemma retry_prevLogIndex_witness :
  payloadPrev (payload (heartbeatPacket sampleLeader 1 1)) = Some 0
  ∧ payloadPrev
      (payload
         (heartbeatPacket
            (processAppendResponse sampleLeader 1 1 false (-1)) 1 1))
    = Some 0.
Proof.
  destruct (retry_prevLogIndex sampleLeader 1 (-1) 1) as (pi & H1 & _ & H2 & _).
  - reflexivity.
  - intros v Hv. vm_compute in Hv. injection Hv as <-. lia.
  - vm_compute in H1. injection H1 as <-. split; [reflexivity|exact H2].
Defined.

(** ** The shape of the cluster *)

(** X19.  In every reachable state the node array holds nodes 0 to 4 in this
    order; every [nextIndex] and [matchIndex] entry is non-negative,
    [matchIndex] has keys of the cluster only, a leader has a [matchIndex]
    entry for every node, and the entry for itself is 0. *)
Theorem cluster_shape (e : Engine) :
  reachable e →
  id <$> nodes e = [0; 1; 2; 3; 4]
  ∧ ∀ n, n ∈ nodes e →
      (∀ k v, nextIndex n !! k = Some v → 0 ≤ v)
      ∧ (∀ k v, matchIndex n !! k = Some v → k ∈ [0; 1; 2; 3; 4] ∧ 0 ≤ v)
      ∧ (state n = LEADER →
         ∀ k, k ∈ [0; 1; 2; 3; 4] → is_Some (matchIndex n !! k))
      ∧ (∀ v, matchIndex n !! id n = Some v → v = 0).
Proof.
  intros [[Hids Hall] _]%reachable_wf. split; [exact Hids|].
  intros n Hn. rewrite Forall_forall in Hall.
  destruct (Hall n Hn) as (_ & Hl & Hm & Hself & Hnx). auto.
Qed.

Lemma cluster_shape_witness : id <$> nodes commitBefore = [0; 1; 2; 3; 4].
Proof.
  apply (cluster_shape commitBefore).
  apply (runScript_reachable commitScript sampleInitial);
    [exact sampleInitial_reachable|vm_compute; reflexivity].
Defined.

(** ** A tick without deliveries to a node *)

Lemma deliver_untouched (w w' : Work) (p : Packet) (i : nat) (n : RaftNode) :
  to p ≠ id n → currentNodes w !! i = Some n → deliver w p = Some w' →
  currentNodes w' !! i = Some n.
Proof.
  intros Hto Hi. unfold deliver.
  destruct (list_find _ _) as [[j target]|] eqn:Hfind; [|by intros [= <-]].
  apply list_find_Some in Hfind as (Hj & Hid & _).
  assert (Hne : j ≠ i).
  { intros ->. rewrite Hi in Hj. injection Hj as <-. done. }
  case_bool_decide; [by intros [= <-]|].
  destruct (payload p) as [t c li lt|t g|t l pi pt es lc|t s mi].
  - destruct (processRequestVote target t c li lt) as [u r].
    intros [= <-]. cbn. by rewrite list_lookup_insert_ne.
  - repeat match goal with |- context [if ?b then _ else _] => destruct b end;
      intros [= <-]; cbn; by rewrite !list_lookup_insert_ne.
  - destruct (processAppendEntries target t l pi pt es lc) as [[u r]|];
      [|done].
    intros [= <-]. cbn. by rewrite list_lookup_insert_ne.
  - intros [= <-]. cbn. by rewrite list_lookup_insert_ne.
Qed.

Lemma deliverAll_untouched (w w' : Work) (todo : list Packet) (i : nat)
    (n : RaftNode) :
  Forall (λ p, to p ≠ id n) todo → currentNodes w !! i = Some n →
  deliverAll w todo = Some w' → currentNodes w' !! i = Some n.
Proof.
  revert w. induction todo as [|p todo IH]; intros w Hall Hi; cbn.
  - by intros [= <-].
  - apply Forall_cons in Hall as [Hp Hall].
    destruct (deliver w p) as [w1|] eqn:Hd; [|done].
    apply IH; [done|]. by eapply deliver_untouched.
Qed.

Lemma maintainAll_lookup (cur : list RaftNode) (ps : Q) (draw : nat → Z)
    (k : nat) (todo : list RaftNode) (votes : gmap Z (gset Z))
    (pkts : list Packet) (i : nat) (n : RaftNode) :
  todo !! i = Some n →
  ∃ votes' pkts',
    (maintainAll cur ps draw k todo votes pkts).1.1 !! i
    = Some (maintain cur ps (draw (k + i)%nat) n votes' pkts').1.1.
Proof.
  revert k votes pkts i.
  induction todo as [|m todo IH]; intros k votes pkts i Hi; [done|].
  cbn [maintainAll].
  destruct (maintain cur ps (draw k) m votes pkts) as [[u votes1] pkts1]
    eqn:Hm.
  destruct i as [|i]; cbn in Hi.
  - injection Hi as ->. exists votes, pkts.
    destruct (maintainAll _ _ _ _ _ _ _) as [[us votes2] pkts2]. cbn.
    by rewrite Nat.add_0_r, Hm.
  - destruct (IH (S k) votes1 pkts1 i Hi) as (votes' & pkts' & H).
    exists votes', pkts'.
    destruct (maintainAll _ _ _ _ _ _ _) as [[us votes2] pkts2]. cbn in *.
    by replace (k + S i)%nat with (S k + i)%nat by lia.
Qed.

(** X11.  The timers of a tick.  A node to which no packet is delivered in a
    tick is touched by the timers only: a crashed node is unchanged; a
    leader's [heartbeatTimer] goes down by one, and back to
    [HEARTBEAT_INTERVAL] when it reaches 0; any other node's
    [electionTimeout] goes down by one, and when it reaches 0 the node
    becomes candidate of the next term with a vote for itself and both
    timeout fields set to the fresh draw. *)
Theorem quiet_tick (playbackSpeed : Q) (draw : nat → Z) (e e' : Engine)
    (i : nat) (n : RaftNode) :
  tick false playbackSpeed draw e = Some e' →
  nodes e !! i = Some n →
  (∀ p, p ∈ packets e → hasArrived (advance p) = true → to p ≠ id n) →
  ∃ n', nodes e' !! i = Some n'
    ∧ match state n with
      | CRASHED => n' = n
      | LEADER =>
          n' = set_heartbeatTimer
                 (if heartbeatTimer n - 1 <=? 0 then HEARTBEAT_INTERVAL
                  else heartbeatTimer n - 1) n
      | _ =>
          if electionTimeout n - 1 <=? 0
          then n' = set_electionTimeout (draw i)
                      (set_currentTimeoutDuration (draw i)
                         (set_votedFor (Some (id n))
                            (set_currentTerm (currentTerm n + 1)
                               (set_state CANDIDATE
                                  (set_electionTimeout
                                     (electionTimeout n - 1) n)))))
          else n' = set_electionTimeout (electionTimeout n - 1) n
      end.
Proof.
  intros Ht Hi Hquiet. revert Ht. unfold tick.
  destruct (deliverAll _ _) as [w|] eqn:Hd; [|done].
  apply (deliverAll_untouched _ _ _ i n) in Hd; [|
    apply Forall_forall; intros q [Hq Hin]%list_elem_of_filter;
      apply list_elem_of_fmap in Hin as (p & -> & Hp); by apply (Hquiet p)
    |done].
  destruct (maintainAll_lookup (currentNodes w) playbackSpeed draw 0
              (currentNodes w) (currentVotes w) (survivingPackets w) i n Hd)
    as (votes' & pkts' & Hm).
  destruct (maintainAll _ _ _ _ _ _ _) as [[ns votes] pkts].
  intros [= <-]. cbn [nodes fst] in *. eexists. split; [exact Hm|].
  cbn [Nat.add]. unfold maintain.
  destruct (state n) eqn:Hs; cbn [electionTimeout set_electionTimeout];
    repeat first
      [ done
      | congruence
      | progress cbn [state heartbeatTimer set_heartbeatTimer
                      set_electionTimeout set_currentTimeoutDuration
                      set_votedFor set_currentTerm set_state fst] in *
      | case_bool_decide
      | match goal with |- context [if ?b then _ else _] => destruct b end ].
Qed.

Lemma quiet_tick_witness :
  state commitLeader = LEADER
  ∧ ∃ n', nodes commitAfter !! 1%nat = Some n'
          ∧ n' = set_heartbeatTimer (heartbeatTimer commitLeader - 1)
                   commitLeader.
Proof.
  split; [reflexivity|].
  destruct (quiet_tick 1 (λ _, 300) commitBefore commitAfter 1%nat
              commitLeader) as (n' & Hn' & H).
  - vm_compute. reflexivity.
  - vm_compute. reflexivity.
  - intros p Hp Ha.
    apply list_elem_of_lookup_1 in Hp as [k Hk].
    do 9 (destruct k as [|k];
          [vm_compute in Hk; injection Hk as <-;
           first [by vm_compute in Ha | by vm_compute]|]).
    vm_compute in Hk. discriminate.
  - exists n'. split; [exact Hn'|exact H].
Defined.

(** ** Term order inside a log *)

Lemma termsSorted_le (l : list LogEntry) (i j : nat) (x y : LogEntry) :
  termsSorted l → (i ≤ j)%nat → l !! i = Some x → l !! j = Some y →
  term x ≤ term y.
Proof.
  intros Hs Hij Hx. revert y. induction j as [|j IH]; intros y Hy.
  - assert (i = 0%nat) as -> by lia. rewrite Hx in Hy. injection Hy as ->.
    lia.
  - destruct (decide (i = S j)) as [->|Hne].
    + rewrite Hx in Hy. injection Hy as ->. lia.
    + destruct (lookup_lt_is_Some_2 l j) as [z Hz].
      { apply lookup_lt_Some in Hy. lia. }
      assert (term x ≤ term z) by (apply IH; [lia|done]).
      pose proof (Hs j z y Hz Hy). lia.
Qed.

Lemma termsSorted_app (a b : list LogEntry) :
  termsSorted a → termsSorted b →
  (∀ x y, a !! (length a - 1)%nat = Some x → b !! 0%nat = Some y →
          term x ≤ term y) →
  termsSorted (a ++ b).
Proof.
  intros Ha Hb Hab i x y Hx Hy.
  destruct (decide (S i < length a)%nat) as [Hlt|Hge].
  - rewrite lookup_app_l in Hx by lia. rewrite lookup_app_l in Hy by lia.
    by eapply Ha.
  - destruct (decide (i < length a)%nat) as [Hi|Hi].
    + rewrite lookup_app_l in Hx by lia. rewrite lookup_app_r in Hy by lia.
      replace (S i - length a)%nat with 0%nat in Hy by lia.
      replace i with (length a - 1)%nat in Hx by lia. by eapply Hab.
    + rewrite lookup_app_r in Hx by lia. rewrite lookup_app_r in Hy by lia.
      replace (S i - length a)%nat with (S (i - length a)) in Hy by lia.
      by eapply Hb.
Qed.

Lemma termsSorted_take (l : list LogEntry) (p : nat) :
  termsSorted l → termsSorted (take p l).
Proof.
  intros Hl i x y Hx Hy.
  apply lookup_take_Some in Hx as [Hx _].
  apply lookup_take_Some in Hy as [Hy _]. by eapply Hl.
Qed.

Lemma termsSorted_drop (l : list LogEntry) (p : nat) :
  termsSorted l → termsSorted (drop p l).
Proof.
  intros Hl i x y Hx Hy. rewrite lookup_drop in Hx, Hy.
  replace (p + S i)%nat with (S (p + i)) in Hy by lia. by eapply Hl.
Qed.

Lemma termsSorted_tail (e : LogEntry) (es : list LogEntry) :
  termsSorted (e :: es) → termsSorted es.
Proof. intros H i x y Hx Hy. by apply (H (S i) x y). Qed.

Lemma specMerge_sorted (lg es : list LogEntry) (p : nat) :
  (p ≤ length lg)%nat → termsSorted lg → termsSorted es →
  (∀ q x e, p = S q → lg !! q = Some x → es !! 0%nat = Some e →
            term x ≤ term e) →
  termsSorted (specMerge lg p es).
Proof.
  revert lg p. induction es as [|e es IH]; intros lg p Hp Hlg Hes Hb; [done|].
  cbn [specMerge].
  assert (Hcut : termsSorted (take p lg ++ e :: es)).
  { apply termsSorted_app; [by apply termsSorted_take|done|].
    rewrite length_take. intros x y Hx Hy. cbn in Hy. injection Hy as <-.
    apply lookup_take_Some in Hx as [Hx Hlt].
    eapply (Hb (p `min` length lg - 1)%nat); [lia|done|done]. }
  destruct (lg !! p) as [x|] eqn:Hx.
  - apply lookup_lt_Some in Hx as Hlt. case_decide as Ht; [|done].
    apply IH; [lia|done|by eapply termsSorted_tail|].
    intros q x' e' [= <-] Hx' He'. rewrite Hx in Hx'. injection Hx' as <-.
    rewrite Ht. by apply (Hes 0%nat e e').
  - apply lookup_ge_None in Hx. by rewrite take_ge in Hcut by lia.
Qed.

Lemma processAppendEntries_sorted (n u : RaftNode) (t l pi pt : Z)
    (es : list LogEntry) (lc : Z) (r : Packet) :
  termsSorted (log n) → termsSorted es →
  (∀ e, es !! 0%nat = Some e → pt ≤ term e) →
  processAppendEntries n t l pi pt es lc = Some (u, r) →
  termsSorted (log u).
Proof.
  intros Hn Hes Hpt Hres.
  destruct (Z.lt_ge_cases t (currentTerm n)) as [Hstale|Hfresh].
  { revert Hres. unfold processAppendEntries.
    destruct (Z.leb_spec (currentTerm n) t); [lia|].
    destruct (Z.ltb_spec t (currentTerm n)); [|lia].
    by intros [= <- _]. }
  assert (Hprev : -1 ≤ pi).
  { eapply processAppendEntries_Some_prev; [|by rewrite Hres]. lia. }
  destruct (processAppendEntries_fresh n t l pi pt es lc)
    as (ok & Hok & Heq); [lia|done|].
  cbv zeta in Heq. rewrite Heq in Hres. injection Hres as <- _.
  cbn [log set_commitIndex set_log]. destruct ok; [|done].
  destruct Hok as [Hok _]. specialize (Hok eq_refl).
  apply specMerge_sorted; [| done | done |].
  - destruct Hok as [->|(H0 & x & Hx & _)]; [cbn; lia|].
    apply lookup_lt_Some in Hx. lia.
  - intros q x e Hq Hx He.
    destruct Hok as [->|(H0 & x' & Hx' & Hterm)]; [done|].
    replace (Z.to_nat pi) with q in Hx' by lia.
    rewrite Hx in Hx'. injection Hx' as <-. rewrite Hterm. by apply Hpt.
Qed.

Lemma slice_from_nonneg (l : list LogEntry) (i : Z) :
  0 ≤ i → slice_from l i = drop (Z.to_nat i) l.
Proof. intros Hi. unfold slice_from. by destruct (Z.ltb_spec i 0); [lia|]. Qed.

Lemma heartbeats_sorted (leader : RaftNode) (cur : list RaftNode) (ps : Q) :
  termsSorted (log leader) →
  (∀ k v, nextIndex leader !! k = Some v → 0 ≤ v) →
  Forall entriesSorted (heartbeats leader cur ps).
Proof.
  intros Hl Hnn. unfold heartbeats. apply Forall_fmap, Forall_forall.
  intros peer _. unfold compose, heartbeatPacket, entriesSorted.
  cbv beta zeta. cbn [payload].
  assert (Hk : 1 ≤ orOne (nextIndex leader !! id peer)).
  { unfold orOne.
    destruct (nextIndex leader !! id peer) as [v|] eqn:Hv; [|lia].
    specialize (Hnn _ _ Hv). destruct (Z.eqb_spec v 0); lia. }
  revert Hk. generalize (orOne (nextIndex leader !! id peer)). intros k Hk.
  rewrite slice_from_nonneg by lia.
  split; [by apply termsSorted_drop|].
  intros e He. rewrite lookup_drop, Nat.add_0_r in He.
  apply lookup_lt_Some in He as Hlt.
  destruct (Z.leb_spec 0 (k - 1)); [|lia].
  destruct (Z.ltb_spec (k - 1) (llen (log leader))) as [_|Hlen];
    [|unfold llen in Hlen; lia].
  cbn [andb]. unfold log_at. destruct (Z.ltb_spec (k - 1) 0); [lia|].
  destruct (log leader !! Z.to_nat (k - 1)) as [x|] eqn:Hx.
  - eapply (Hl (Z.to_nat (k - 1))); [done|].
    by replace (S (Z.to_nat (k - 1))) with (Z.to_nat (k - 1 + 1)) by lia.
  - apply lookup_ge_None in Hx. lia.
Qed.

Lemma processAppendEntries_reply_payload (n u : RaftNode) (t l pi pt : Z)
    (es : list LogEntry) (lc : Z) (r : Packet) :
  processAppendEntries n t l pi pt es lc = Some (u, r) →
  ∃ t' ok mi, r = mkPacket (id n) l (AppendResponse t' ok mi) 0 PACKET_SPEED.
Proof.
  unfold processAppendEntries. cbv zeta.
  repeat match goal with
         | |- context [if ?b then _ else _] => destruct b
         | |- context [match logOk ?a ?b ?c with _ => _ end] =>
             destruct (logOk a b c) as [[|]|]
         end; try done; intros [= <- <-]; cbn; eauto.
Qed.

Lemma deliver_sorted (w w' : Work) (p : Packet) :
  Forall logSorted (currentNodes w) →
  Forall entriesSorted (survivingPackets w) →
  entriesSorted p → deliver w p = Some w' →
  Forall logSorted (currentNodes w')
  ∧ Forall entriesSorted (survivingPackets w').
Proof.
  intros Hn Hs Hp. unfold deliver.
  destruct (list_find _ _) as [[i target]|] eqn:Hfind; [|by intros [= <-]].
  apply list_find_Some in Hfind as (Hi & _ & _).
  pose proof (Forall_lookup_1 _ _ _ _ Hn Hi) as Ht.
  case_bool_decide; [by intros [= <-]|].
  unfold entriesSorted in Hp.
  destruct (payload p) as [t c li lt|t g|t l pi pt es lc|t s mi].
  - destruct (processRequestVote_log target t c li lt) as [Hl _].
    assert (Hr : entriesSorted (processRequestVote target t c li lt).2)
      by done.
    destruct (processRequestVote target t c li lt) as [u r].
    intros [= <-]. cbn in *. split.
    + apply Forall_insert; [done|]. unfold logSorted. by rewrite Hl.
    + apply Forall_app. split; [done|]. by apply Forall_singleton.
  - assert (Hl : log (processVoteResponse target t g) = log target).
    { unfold processVoteResponse. by destruct (_ <? _). }
    set (u := processVoteResponse target t g) in *.
    assert (Hu : logSorted u) by (unfold logSorted; by rewrite Hl).
    destruct (bool_decide (state u = CANDIDATE) && (t =? currentTerm u) && g);
      [|intros [= <-]; cbn; split; [by apply Forall_insert|done]].
    destruct (hasMajority _);
      [|intros [= <-]; cbn; split; [by apply Forall_insert|done]].
    intros [= <-]. cbn. split; [|done].
    apply Forall_insert; [by apply Forall_insert|].
    destruct (becomeLeader_fields (<[i := u]> (currentNodes w)) u)
      as (_ & _ & Hbl & _).
    unfold logSorted. by rewrite Hbl.
  - destruct (processAppendEntries target t l pi pt es lc) as [[u r]|] eqn:Ha;
      [|done].
    destruct Hp as [Hes Hpt].
    pose proof (processAppendEntries_sorted target u t l pi pt es lc r
                  Ht Hes Hpt Ha) as Hu.
    destruct (processAppendEntries_reply_payload _ _ _ _ _ _ _ _ _ Ha)
      as (t' & ok & mi & ->).
    intros [= <-]. cbn. split; [by apply Forall_insert|].
    apply Forall_app. split; [done|]. by apply Forall_singleton.
  - intros [= <-]. cbn. split; [|done].
    apply Forall_insert; [done|].
    unfold logSorted. by rewrite processAppendResponse_log.
Qed.

Lemma deliverAll_sorted (w w' : Work) (todo : list Packet) :
  Forall logSorted (currentNodes w) →
  Forall entriesSorted (survivingPackets w) →
  Forall entriesSorted todo → deliverAll w todo = Some w' →
  Forall logSorted (currentNodes w')
  ∧ Forall entriesSorted (survivingPackets w').
Proof.
  revert w. induction todo as [|p todo IH]; intros w Hn Hs Hall; cbn.
  - by intros [= <-].
  - apply Forall_cons in Hall as [Hp Hall].
    destruct (deliver w p) as [w1|] eqn:Hd; [|done].
    destruct (deliver_sorted w w1 p Hn Hs Hp Hd) as [Hn1 Hs1].
    by apply IH.
Qed.

Lemma maintain_sorted (cur : list RaftNode) (ps : Q) (timeout : Z)
    (n : RaftNode) (votes : gmap Z (gset Z)) (pkts : list Packet) :
  logSorted n → (∀ k v, nextIndex n !! k = Some v → 0 ≤ v) →
  Forall entriesSorted pkts →
  logSorted (maintain cur ps timeout n votes pkts).1.1
  ∧ Forall entriesSorted (maintain cur ps timeout n votes pkts).2.
Proof.
  intros Hn Hnn Hp.
  assert (Hb : ∀ sender t c li lt,
            Forall entriesSorted
              (broadcast sender (RequestVote t c li lt) cur ps)).
  { intros. unfold broadcast. apply Forall_fmap, Forall_forall. by intros. }
  assert (Hh : ∀ u : RaftNode, log u = log n → nextIndex u = nextIndex n →
            Forall entriesSorted (heartbeats u cur ps)).
  { intros u Hl Hx. apply heartbeats_sorted; [by rewrite Hl|by rewrite Hx]. }
  unfold maintain.
  repeat first
    [ case_bool_decide
    | match goal with |- context [if ?b then _ else _] => destruct b end ];
    cbn [fst snd]; (split; [done|]);
    rewrite ?Forall_app; repeat split; try done;
    try apply Hb; by apply Hh.
Qed.

Lemma maintainAll_sorted (cur : list RaftNode) (ps : Q) (draw : nat → Z)
    (k : nat) (todo : list RaftNode) (votes : gmap Z (gset Z))
    (pkts : list Packet) :
  Forall logSorted todo → Forall wfNode todo → Forall entriesSorted pkts →
  Forall logSorted (maintainAll cur ps draw k todo votes pkts).1.1
  ∧ Forall entriesSorted (maintainAll cur ps draw k todo votes pkts).2.
Proof.
  revert k votes pkts. induction todo as [|n todo IH];
    intros k votes pkts Hall Hwf Hp; cbn; [done|].
  apply Forall_cons in Hall as [Hn Hall].
  apply Forall_cons in Hwf as [Hw Hwf].
  destruct Hw as (_ & _ & _ & _ & Hnn).
  pose proof (maintain_sorted cur ps (draw k) n votes pkts Hn Hnn Hp)
    as [H1 H2].
  destruct (maintain _ _ _ _ _ _) as [[u votes1] pkts1].
  specialize (IH (S k) votes1 pkts1 Hall Hwf H2).
  destruct (maintainAll _ _ _ _ _ _ _) as [[us votes2] pkts2].
  cbn in *. destruct IH as [IH1 IH2]. split; [by constructor|done].
Qed.

Lemma reachable_sorted (e : Engine) :
  reachable e →
  Forall logSorted (nodes e) ∧ Forall entriesSorted (packets e).
Proof.
  induction 1 as [draws Hlen|e e' paused ps draw He IH Ht|e i timeout He IH
                 |e cmd He IH].
  - split; [|constructor]. unfold initialEngine, initialNodes. cbn.
    apply Forall_forall. intros n Hn.
    apply list_elem_of_lookup_1 in Hn as [k Hk].
    rewrite list_lookup_imap in Hk.
    destruct (draws !! k) as [d|]; [|done]. injection Hk as <-.
    by intros j x y Hx.
  - destruct IH as [Hn Hp]. apply reachable_wf in He as [Hc Hwp].
    revert Ht. unfold tick.
    destruct paused; [by intros [= <-]|].
    assert (Hmoved : Forall entriesSorted (advance <$> packets e)).
    { apply Forall_fmap. eapply Forall_impl; [exact Hp|]. by intros p. }
    assert (Hwmoved : Forall wfPacket (advance <$> packets e)).
    { apply Forall_fmap. eapply Forall_impl; [exact Hwp|].
      intros p. apply wfPacket_advance. }
    destruct (deliverAll _ _) as [w|] eqn:Hd; [|done].
    pose proof Hd as Hd'.
    apply deliverAll_sorted in Hd as [Hn1 Hs1];
      [|done|by apply Forall_filter|by apply Forall_filter].
    apply deliverAll_wf in Hd' as [[_ Hwf] _];
      [|split; [done|by apply Forall_filter]|by apply Forall_filter].
    pose proof (maintainAll_sorted (currentNodes w) ps draw 0
                  (currentNodes w) (currentVotes w) (survivingPackets w)
                  Hn1 Hwf Hs1) as [H1 H2].
    destruct (maintainAll _ _ _ _ _ _ _) as [[ns votes] pkts].
    by intros [= <-].
  - destruct IH as [Hn Hp]. unfold toggleNodeState.
    destruct (list_find _ _) as [[k n]|] eqn:Hfind; [|done].
    apply list_find_Some in Hfind as (Hk & _ & _).
    split; [|done]. cbn. apply Forall_insert; [done|].
    pose proof (Forall_lookup_1 _ _ _ _ Hn Hk) as Hb.
    unfold logSorted, toggleNode in *. by case_bool_decide.
  - destruct IH as [Hn Hp].
    apply reachable_bounded in He as [Hb _]. unfold proposeLog.
    destruct (list_find _ _) as [[k n]|] eqn:Hfind; [|done].
    apply list_find_Some in Hfind as (Hk & _ & _).
    split; [|done]. cbn. apply Forall_insert; [done|].
    pose proof (Forall_lookup_1 _ _ _ _ Hn Hk) as Hs.
    pose proof (Forall_lookup_1 _ _ _ _ Hb Hk) as Hbn.
    unfold logSorted in *. cbn. apply termsSorted_app; [done| |].
    + intros j x y Hx Hy. by destruct j.
    + intros x y Hx Hy. cbn in Hy. injection Hy as <-. cbn.
      unfold logBounded in Hbn. rewrite Forall_forall in Hbn.
      apply Hbn. by eapply list_elem_of_lookup_2.
Qed.

(** X18.  In every reachable state the terms along each node's log never go
    down: an entry is of a term at least that of every earlier entry. *)
Theorem log_terms_sorted (e : Engine) (n : RaftNode) (i j : nat)
    (x y : LogEntry) :
  reachable e → n ∈ nodes e → (i ≤ j)%nat →
  log n !! i = Some x → log n !! j = Some y → term x ≤ term y.
Proof.
  intros [Hn _]%reachable_sorted Hin Hij Hx Hy.
  rewrite Forall_forall in Hn.
  apply (termsSorted_le (log n) i j x y); [by apply Hn|done|done|done].
Qed.

Lemma log_terms_sorted_witness : term commitEntry1 ≤ term commitEntry2.
Proof.
  apply (log_terms_sorted commitBefore commitFollower 1%nat 2%nat).
  - apply (runScript_reachable commitScript sampleInitial);
      [exact sampleInitial_reachable|vm_compute; reflexivity].
  - apply (list_elem_of_lookup_2 _ 2%nat). vm_compute. reflexivity.
  - lia.
  - reflexivity.
  - reflexivity.
Defined.

(** ** Senders and addressees *)

Lemma deliver_endpoints (w w' : Work) (p : Packet) :
  Forall packetEndpoints (survivingPackets w) → packetEndpoints p →
  deliver w p = Some w' → Forall packetEndpoints (survivingPackets w').
Proof.
  intros Hs (Hne & Hf & Ht & Hpl). unfold deliver.
  destruct (list_find _ _) as [[i target]|] eqn:Hfind; [|by intros [= <-]].
  apply list_find_Some in Hfind as (_ & Hid & _).
  case_bool_decide; [by intros [= <-]|].
  destruct (payload p) as [t c li lt|t g|t l pi pt es lc|t s mi].
  - unfold processRequestVote. cbv zeta. intros [= <-]. cbn.
    apply Forall_app. split; [done|]. apply Forall_singleton.
    unfold packetEndpoints. cbn. rewrite Hid, Hpl. auto.
  - repeat match goal with |- context [if ?b then _ else _] => destruct b end;
      by intros [= <-].
  - destruct (processAppendEntries target t l pi pt es lc) as [[u r]|] eqn:Ha;
      [|done].
    destruct (processAppendEntries_reply_payload _ _ _ _ _ _ _ _ _ Ha)
      as (t' & ok & mi & ->).
    intros [= <-]. cbn. apply Forall_app. split; [done|].
    apply Forall_singleton. unfold packetEndpoints. cbn.
    rewrite Hid, Hpl. auto.
  - by intros [= <-].
Qed.

Lemma deliverAll_endpoints (w w' : Work) (todo : list Packet) :
  Forall packetEndpoints (survivingPackets w) →
  Forall packetEndpoints todo → deliverAll w todo = Some w' →
  Forall packetEndpoints (survivingPackets w').
Proof.
  revert w. induction todo as [|p todo IH]; intros w Hs Hall; cbn.
  - by intros [= <-].
  - apply Forall_cons in Hall as [Hp Hall].
    destruct (deliver w p) as [w1|] eqn:Hd; [|done].
    apply IH; [by eapply deliver_endpoints|done].
Qed.

Lemma maintain_endpoints (cur : list RaftNode) (ps : Q) (timeout : Z)
    (n : RaftNode) (votes : gmap Z (gset Z)) (pkts : list Packet) :
  id n ∈ clusterIds → Forall (λ m : RaftNode, id m ∈ clusterIds) cur →
  Forall packetEndpoints pkts →
  Forall packetEndpoints (maintain cur ps timeout n votes pkts).2.
Proof.
  intros Hn Hcur Hp. rewrite Forall_forall in Hcur.
  assert (Hb : ∀ (u : RaftNode) t li lt, id u = id n →
            Forall packetEndpoints
              (broadcast u (RequestVote t (id u) li lt) cur ps)).
  { intros u t li lt Hu. unfold broadcast. apply Forall_fmap, Forall_forall.
    intros target [[Hne _] Hin]%list_elem_of_filter.
    unfold compose, packetEndpoints. cbn. rewrite Hu in *. auto. }
  assert (Hh : ∀ u : RaftNode, id u = id n →
            Forall packetEndpoints (heartbeats u cur ps)).
  { intros u Hu. unfold heartbeats. apply Forall_fmap, Forall_forall.
    intros peer [Hne Hin]%list_elem_of_filter.
    unfold compose, heartbeatPacket, packetEndpoints. cbn. rewrite Hu in *.
    split; [|auto]. intros Heq. apply Hne. by left. }
  unfold maintain.
  repeat first
    [ case_bool_decide
    | match goal with |- context [if ?b then _ else _] => destruct b end ];
    cbn [fst snd]; rewrite ?Forall_app; repeat split; try done;
    first [by apply Hh | by apply (Hb _ _ _ _ eq_refl)].
Qed.

Lemma maintainAll_endpoints (cur : list RaftNode) (ps : Q) (draw : nat → Z)
    (k : nat) (todo : list RaftNode) (votes : gmap Z (gset Z))
    (pkts : list Packet) :
  Forall (λ m : RaftNode, id m ∈ clusterIds) todo →
  Forall (λ m : RaftNode, id m ∈ clusterIds) cur →
  Forall packetEndpoints pkts →
  Forall packetEndpoints (maintainAll cur ps draw k todo votes pkts).2.
Proof.
  revert k votes pkts. induction todo as [|n todo IH];
    intros k votes pkts Hall Hcur Hp; cbn; [done|].
  apply Forall_cons in Hall as [Hn Hall].
  pose proof (maintain_endpoints cur ps (draw k) n votes pkts Hn Hcur Hp)
    as H1.
  destruct (maintain _ _ _ _ _ _) as [[u votes1] pkts1].
  specialize (IH (S k) votes1 pkts1 Hall Hcur H1).
  by destruct (maintainAll _ _ _ _ _ _ _) as [[us votes2] pkts2].
Qed.

(** X7.  In every reachable state each packet in flight goes from one node of
    the cluster to a different one, a RequestVote names its sender as the
    candidate, and an AppendEntries names its sender as the leader: no
    node ever sends a packet to itself, and every reply has a node to go
    to. *)
Theorem packet_endpoints (e : Engine) (p : Packet) :
  reachable e → p ∈ packets e →
  from p ≠ to p
  ∧ from p ∈ [0; 1; 2; 3; 4] ∧ to p ∈ [0; 1; 2; 3; 4]
  ∧ match payload p with
    | RequestVote _ c _ _ => c = from p
    | AppendEntries _ l _ _ _ _ => l = from p
    | _ => True
    end.
Proof.
  intros He Hin.
  assert (Hall : Forall packetEndpoints (packets e)).
  { clear p Hin.
    induction He as [draws Hlen|e e' paused ps draw He IH Ht|e i timeout He IH
                    |e cmd He IH].
    - constructor.
    - apply reachable_wf in He as [Hc Hwp]. revert Ht. unfold tick.
      destruct paused; [by intros [= <-]|].
      assert (Hmoved : Forall packetEndpoints (advance <$> packets e)).
      { apply Forall_fmap. eapply Forall_impl; [exact IH|]. by intros p. }
      assert (Hwmoved : Forall wfPacket (advance <$> packets e)).
      { apply Forall_fmap. eapply Forall_impl; [exact Hwp|].
        intros p. apply wfPacket_advance. }
      destruct (deliverAll _ _) as [w|] eqn:Hd; [|done].
      pose proof Hd as Hd'.
      apply deliverAll_endpoints in Hd;
        [|by apply Forall_filter|by apply Forall_filter].
      apply deliverAll_wf in Hd' as [[_ Hwf] _];
        [|split; [done|by apply Forall_filter]|by apply Forall_filter].
      assert (Hids : Forall (λ m : RaftNode, id m ∈ clusterIds)
                       (currentNodes w)).
      { eapply Forall_impl; [exact Hwf|]. by intros m (Hm & _). }
      pose proof (maintainAll_endpoints (currentNodes w) ps draw 0
                    (currentNodes w) (currentVotes w) (survivingPackets w)
                    Hids Hids Hd) as H2.
      destruct (maintainAll _ _ _ _ _ _ _) as [[ns votes] pkts].
      by intros [= <-].
    - unfold toggleNodeState. by destruct (list_find _ _) as [[k n]|].
    - unfold proposeLog. by destruct (list_find _ _) as [[k n]|]. }
  rewrite Forall_forall in Hall. exact (Hall p Hin).
Qed.

Lemma packet_endpoints_witness :
  from commitPacket = 1 ∧ to commitPacket = 2
  ∧ from commitPacket ≠ to commitPacket.
Proof.
  split; [reflexivity|]. split; [reflexivity|].
  apply (packet_endpoints commitBefore commitPacket).
  - apply (runScript_reachable commitScript sampleInitial);
      [exact sampleInitial_reachable|vm_compute; reflexivity].
  - apply (list_elem_of_lookup_2 _ 0%nat). vm_compute. reflexivity.
Defined.

(** ** What a tick does to the packets in flight *)

Lemma extendsWithNew_refl (l : list Packet) : extendsWithNew l l.
Proof. exists []. by rewrite app_nil_r. Qed.

Lemma extendsWithNew_trans (a b c : list Packet) :
  extendsWithNew a b → extendsWithNew b c → extendsWithNew a c.
Proof.
  intros (n1 & -> & H1) (n2 & -> & H2). exists (n1 ++ n2).
  rewrite app_assoc. split; [done|]. by apply Forall_app.
Qed.

Lemma extendsWithNew_app (l new : list Packet) :
  Forall (λ q : Packet, progress q = 0%Q) new → extendsWithNew l (l ++ new).
Proof. intros H. by exists new. Qed.

Lemma deliver_extends (w w' : Work) (p : Packet) :
  deliver w p = Some w' →
  extendsWithNew (survivingPackets w) (survivingPackets w').
Proof.
  unfold deliver.
  destruct (list_find _ _) as [[i target]|];
    [|intros [= <-]; apply extendsWithNew_refl].
  case_bool_decide; [intros [= <-]; apply extendsWithNew_refl|].
  destruct (payload p) as [t c li lt|t g|t l pi pt es lc|t s mi].
  - unfold processRequestVote. cbv zeta. intros [= <-]. cbn.
    apply extendsWithNew_app. by apply Forall_singleton.
  - repeat match goal with |- context [if ?b then _ else _] => destruct b end;
      intros [= <-]; apply extendsWithNew_refl.
  - destruct (processAppendEntries target t l pi pt es lc) as [[u r]|] eqn:Ha;
      [|done].
    destruct (processAppendEntries_reply_payload _ _ _ _ _ _ _ _ _ Ha)
      as (t' & ok & mi & ->).
    intros [= <-]. cbn. apply extendsWithNew_app. by apply Forall_singleton.
  - intros [= <-]. apply extendsWithNew_refl.
Qed.

Lemma deliverAll_extends (w w' : Work) (todo : list Packet) :
  deliverAll w todo = Some w' →
  extendsWithNew (survivingPackets w) (survivingPackets w').
Proof.
  revert w. induction todo as [|p todo IH]; intros w; cbn.
  - intros [= <-]. apply extendsWithNew_refl.
  - destruct (deliver w p) as [w1|] eqn:Hd; [|done].
    intros H. eapply extendsWithNew_trans; [by eapply deliver_extends|].
    by apply IH.
Qed.

Lemma maintain_extends (cur : list RaftNode) (ps : Q) (timeout : Z)
    (n : RaftNode) (votes : gmap Z (gset Z)) (pkts : list Packet) :
  extendsWithNew pkts (maintain cur ps timeout n votes pkts).2.
Proof.
  assert (Hb : ∀ sender pl,
            Forall (λ q : Packet, progress q = 0%Q)
              (broadcast sender pl cur ps)).
  { intros. unfold broadcast. apply Forall_fmap, Forall_forall. by intros. }
  assert (Hh : ∀ leader,
            Forall (λ q : Packet, progress q = 0%Q) (heartbeats leader cur ps)).
  { intros. unfold heartbeats. apply Forall_fmap, Forall_forall. by intros. }
  unfold maintain.
  repeat first
    [ case_bool_decide
    | match goal with |- context [if ?b then _ else _] => destruct b end ];
    cbn [fst snd];
    first [ apply extendsWithNew_refl
          | by apply extendsWithNew_app
          | eapply extendsWithNew_trans; by apply extendsWithNew_app ].
Qed.

Lemma maintainAll_extends (cur : list RaftNode) (ps : Q) (draw : nat → Z)
    (k : nat) (todo : list RaftNode) (votes : gmap Z (gset Z))
    (pkts : list Packet) :
  extendsWithNew pkts (maintainAll cur ps draw k todo votes pkts).2.
Proof.
  revert k votes pkts. induction todo as [|n todo IH]; intros k votes pkts;
    cbn; [apply extendsWithNew_refl|].
  pose proof (maintain_extends cur ps (draw k) n votes pkts) as H1.
  destruct (maintain _ _ _ _ _ _) as [[u votes1] pkts1].
  specialize (IH (S k) votes1 pkts1).
  destruct (maintainAll _ _ _ _ _ _ _) as [[us votes2] pkts2].
  cbn in *. by eapply extendsWithNew_trans.
Qed.

(** X5.  A tick neither drops nor reorders the packets that are still on
    their way: the packets after the tick are the advanced packets that
    have not arrived, in their old order, followed by the packets created
    in this tick, all at progress 0. *)
Theorem tick_packets_in_flight (playbackSpeed : Q) (draw : nat → Z)
    (e e' : Engine) :
  tick false playbackSpeed draw e = Some e' →
  ∃ new,
    packets e'
    = filter (λ p, hasArrived p = false) (advance <$> packets e) ++ new
    ∧ Forall (λ q : Packet, progress q = 0%Q) new.
Proof.
  unfold tick. destruct (deliverAll _ _) as [w|] eqn:Hd; [|done].
  apply deliverAll_extends in Hd. cbn in Hd.
  pose proof (maintainAll_extends (currentNodes w) playbackSpeed draw 0
                (currentNodes w) (currentVotes w) (survivingPackets w)) as Hm.
  destruct (maintainAll _ _ _ _ _ _ _) as [[ns votes] pkts].
  intros [= <-]. cbn in *. by eapply extendsWithNew_trans.
Qed.

Lemma tick_packets_in_flight_witness :
  ∃ new,
    packets commitAfter
    = filter (λ p, hasArrived p = false) (advance <$> packets commitBefore)
      ++ new
    ∧ Forall (λ q : Packet, progress q = 0%Q) new.
Proof.
  apply (tick_packets_in_flight 1 (λ _, 300) commitBefore commitAfter).
  vm_compute. reflexivity.
Defined.

(** ** The term shown for the whole cluster *)

Lemma foldl_max_le (a b : Z) (l k : list Z) :
  a ≤ b → Forall2 Z.le l k → foldl Z.max a l ≤ foldl Z.max b k.
Proof.
  intros Hab Hlk. revert a b Hab.
  induction Hlk as [|x y l k Hxy Hlk IH]; intros a b Hab; [done|].
  cbn. apply IH. lia.
Qed.

Lemma foldl_max_bound (a : Z) (l : list Z) :
  a ≤ foldl Z.max a l ∧ Forall (λ x, x ≤ foldl Z.max a l) l.
Proof.
  revert a. induction l as [|x l IH]; intros a; cbn; [split; [lia|done]|].
  destruct (IH (a `max` x)) as [H1 H2]. split; [lia|].
  constructor; [lia|done].
Qed.

Lemma foldl_max_attained (a : Z) (l : list Z) :
  foldl Z.max a l = a ∨ foldl Z.max a l ∈ l.
Proof.
  revert a. induction l as [|x l IH]; intros a; cbn; [by left|].
  destruct (IH (a `max` x)) as [H|H].
  - rewrite H. destruct (Z.max_spec a x) as [[_ ->]|[_ ->]];
      [right; left|by left].
  - right. by right.
Qed.

(** X21.  The cluster term shown in the display is the largest [currentTerm]
    of the node array: no node is in a later term and some node is in it;
    and it never goes down, whatever step the application takes. *)
Theorem termMax_monotone (e e' : Engine) (m : Z) :
  engineStep e e' → termMax (nodes e) = Some m →
  (∀ n, n ∈ nodes e → currentTerm n ≤ m)
  ∧ (∃ n, n ∈ nodes e ∧ currentTerm n = m)
  ∧ ∃ m', termMax (nodes e') = Some m' ∧ m ≤ m'.
Proof.
  intros Hstep%engineStep_laterTerm Hm.
  destruct (nodes e) as [|a rest] eqn:He; [done|].
  cbn in Hm. injection Hm as <-.
  split; [|split].
  - destruct (foldl_max_bound (currentTerm a) (currentTerm <$> rest))
      as [H1 H2].
    intros n [->|Hn]%elem_of_cons; [done|].
    rewrite Forall_forall in H2. apply H2. by apply list_elem_of_fmap_2.
  - destruct (foldl_max_attained (currentTerm a) (currentTerm <$> rest))
      as [H|H].
    + exists a. split; [by left|done].
    + apply list_elem_of_fmap in H as (n & Hn & Hin).
      exists n. split; [by right|done].
  - inversion Hstep as [|a0 b rest0 rest' [_ Hab] Hrest]; subst.
    eexists. split; [reflexivity|].
    apply foldl_max_le; [done|].
    apply Forall2_fmap. eapply Forall2_impl; [exact Hrest|].
    by intros x y [_ Hxy].
Qed.

Lemma termMax_monotone_witness :
  ∃ m', termMax (nodes commitAfter) = Some m' ∧ 3 ≤ m'.
Proof.
  destruct (termMax_monotone commitBefore commitAfter 3) as (_ & _ & H).
  - apply (step_tick false 1 (λ _, 300)). vm_compute. reflexivity.
  - vm_compute. reflexivity.
  - exact H.
Defined.

(** ** Travel time of a packet *)

Lemma iter_advance_speed (p : Packet) (k : nat) :
  speed (Nat.iter k advance p) = speed p.
Proof.
  induction k as [|k IH]; [done|].
  change (Nat.iter (S k) advance p) with (advance (Nat.iter k advance p)).
  exact IH.
Qed.

Lemma iter_advance_progress (p : Packet) (k : nat) :
  (progress (Nat.iter k advance p)
   == progress p + inject_Z (Z.of_nat k) * speed p)%Q.
Proof.
  induction k as [|k IH].
  - cbn. ring.
  - change (Nat.iter (S k) advance p) with (advance (Nat.iter k advance p)).
    unfold advance at 1. cbn [progress]. rewrite iter_advance_speed.
    transitivity (progress p + inject_Z (Z.of_nat k) * speed p + speed p)%Q.
    { apply Qplus_comp; [exact IH|reflexivity]. }
    rewrite Nat2Z.inj_succ. unfold Z.succ. rewrite inject_Z_plus. ring.
Qed.

Lemma tick_survivor (playbackSpeed : Q) (draw : nat → Z) (e e' : Engine)
    (p : Packet) :
  tick false playbackSpeed draw e = Some e' → p ∈ packets e →
  hasArrived (advance p) = false → advance p ∈ packets e'.
Proof.
  intros Ht Hp Ha. revert Ht. unfold tick.
  destruct (deliverAll _ _) as [w|] eqn:Hd; [|done].
  apply deliverAll_extends in Hd as (new1 & Hd & _). cbn in Hd.
  pose proof (maintainAll_extends (currentNodes w) playbackSpeed draw 0
                (currentNodes w) (currentVotes w) (survivingPackets w))
    as (new2 & Hm & _).
  destruct (maintainAll _ _ _ _ _ _ _) as [[ns votes] pkts].
  intros [= <-]. cbn in *. rewrite Hm, Hd.
  apply elem_of_app. left. apply elem_of_app. left.
  apply list_elem_of_filter. split; [done|]. by apply list_elem_of_fmap_2.
Qed.

Lemma quarterPacket_advance (p : Packet) :
  quarterPacket p → quarterPacket (advance p).
Proof.
  intros (a & j & Ha & Hj & Hp & Hs). exists (a + 3 * j), j.
  split; [lia|]. split; [done|]. split; [|done].
  cbn [advance progress].
  transitivity ((a # 4) + ((3 * j) # 4))%Q.
  { by apply Qplus_comp. }
  unfold Qeq, Qplus. cbn. lia.
Qed.

Lemma quarterPacket_speed (p : Packet) : quarterPacket p → (0 < speed p)%Q.
Proof.
  intros (a & j & _ & Hj & _ & Hs).
  assert (H : (0 < (3 * j) # 4)%Q) by (unfold Qlt; cbn; lia).
  apply Qlt_le_trans with ((3 * j) # 4)%Q; [done|].
  apply Qle_lteq. right. by apply Qeq_sym.
Qed.

Lemma inject_nat_succ (k : nat) :
  (inject_Z (Z.of_nat (S k)) == inject_Z (Z.of_nat k) + 1)%Q.
Proof. rewrite Nat2Z.inj_succ. unfold Z.succ. by rewrite inject_Z_plus. Qed.

Lemma inject_nat_succ_mult (k : nat) (q : Q) :
  (inject_Z (Z.of_nat (S k)) * q == inject_Z (Z.of_nat k) * q + q)%Q.
Proof. rewrite inject_nat_succ. ring. Qed.

Lemma hasArrived_false (p : Packet) :
  hasArrived p = false ↔ (progress p < 100)%Q.
Proof.
  unfold hasArrived. destruct (Qle_bool 100 (progress p)) eqn:Hb.
  - apply Qle_bool_iff in Hb. split; [done|]. intros H. lra.
  - split; [|done]. intros _. apply Qnot_le_lt. intros H.
    apply Qle_bool_iff in H. congruence.
Qed.

Lemma tickRun_in_flight (k : nat) (e e' : Engine) (p : Packet) :
  tickRun k e e' → p ∈ packets e → quarterPacket p →
  (progress p + inject_Z (Z.of_nat k) * speed p < 100)%Q →
  Nat.iter k advance p ∈ packets e'.
Proof.
  intros Hrun. revert p.
  induction Hrun as [e|k ps draw e e1 e2 Ht Hrun IH]; intros p Hin Hq Hlt;
    [done|].
  pose proof (quarterPacket_speed p Hq) as Hpos.
  pose proof (inject_nat_succ_mult k (speed p)) as Hstep.
  assert (Hk : (0 <= inject_Z (Z.of_nat k))%Q).
  { change 0%Q with (inject_Z 0). rewrite <- Zle_Qle. lia. }
  assert (Hmul : (0 <= inject_Z (Z.of_nat k) * speed p)%Q).
  { apply Qmult_le_0_compat; [done|]. by apply Qlt_le_weak. }
  rewrite Nat.iter_succ_r. apply IH.
  - apply (tick_survivor ps draw e e1); [done|done|].
    apply hasArrived_false. cbn [advance progress]. lra.
  - by apply quarterPacket_advance.
  - cbn [advance progress speed]. lra.
Qed.

(** X6.  A packet of the application (progress a multiple of 0.25, speed
    1.5 times a slider value) that is in flight stays in flight through
    [k] ticks for as long as [progress + k * speed < 100]; it keeps its
    speed and has gained [k * speed], and the tick after those leaves it
    in flight exactly when [progress + (k + 1) * speed < 100]: otherwise
    that tick takes it out for delivery. *)
Theorem packet_travel (k : nat) (e e' : Engine) (p : Packet) :
  tickRun k e e' → p ∈ packets e → quarterPacket p →
  (progress p + inject_Z (Z.of_nat k) * speed p < 100)%Q →
  Nat.iter k advance p ∈ packets e'
  ∧ speed (Nat.iter k advance p) = speed p
  ∧ (progress (Nat.iter k advance p)
     == progress p + inject_Z (Z.of_nat k) * speed p)%Q
  ∧ ∀ playbackSpeed draw e'',
      tick false playbackSpeed draw e' = Some e'' →
      advance (Nat.iter k advance p) ∈ packets e'' ↔
      (progress p + inject_Z (Z.of_nat (S k)) * speed p < 100)%Q.
Proof.
  intros Hrun Hin Hq Hlt.
  pose proof (iter_advance_progress p k) as Hprog.
  pose proof (iter_advance_speed p k) as Hspeed.
  pose proof (tickRun_in_flight k e e' p Hrun Hin Hq Hlt) as Hfly.
  split; [done|]. split; [done|]. split; [done|].
  intros ps draw e'' Ht.
  pose proof (inject_nat_succ_mult k (speed p)) as Hstep.
  assert (Harr : hasArrived (advance (Nat.iter k advance p)) = false ↔
                 (progress p + inject_Z (Z.of_nat (S k)) * speed p < 100)%Q).
  { rewrite hasArrived_false. cbn [advance progress]. rewrite Hspeed.
    split; intros H; lra. }
  split.
  - intros Hin'. apply Harr.
    apply (tick_packets (λ q, hasArrived q = false)) in Ht; [|done|done].
    rewrite Forall_forall in Ht. by apply Ht.
  - intros Hlt'. apply (tick_survivor ps draw e' e''); [done|done|].
    by apply Harr.
Qed.

Lemma packet_travel_witness :
  Nat.iter 1 advance commitReply ∈ packets commitAfter
  ∧ speed (Nat.iter 1 advance commitReply) = speed commitReply.
Proof.
  destruct (packet_travel 1 commitBefore commitAfter commitReply)
    as (H1 & H2 & _).
  - apply (tickRun_step 0 1 (λ _, 300) commitBefore commitAfter commitAfter).
    + vm_compute. reflexivity.
    + apply tickRun_done.
  - apply (list_elem_of_lookup_2 _ 3%nat). vm_compute. reflexivity.
  - exists 294, 2. split; [lia|]. split; [lia|].
    split; vm_compute; reflexivity.
  - vm_compute. reflexivity.
  - split; [exact H1|exact H2].
Defined.

(** ** Starting an election *)

Lemma maintain_election (cur : list RaftNode) (playbackSpeed : Q)
    (timeout : Z) (n : RaftNode) (votes : gmap Z (gset Z))
    (pkts : list Packet) :
  state n ≠ CRASHED → state n ≠ LEADER → electionTimeout n ≤ 1 →
  ∃ u,
    maintain cur playbackSpeed timeout n votes pkts
    = (u, <[id n := ∅]> votes,
       pkts
       ++ ((λ m : RaftNode,
              mkPacket (id n) (id m)
                (RequestVote (currentTerm n + 1) (id n) (llen (log n) - 1)
                   (lastLogTermOf (log n)))
                0 (PACKET_SPEED * playbackSpeed)%Q)
           <$> filter (λ m : RaftNode, id m ≠ id n ∧ state m ≠ CRASHED) cur))
    ∧ state u = CANDIDATE ∧ currentTerm u = currentTerm n + 1
    ∧ votedFor u = Some (id n) ∧ electionTimeout u = timeout
    ∧ currentTimeoutDuration u = timeout ∧ log u = log n
    ∧ commitIndex u = commitIndex n.
Proof.
  intros Hcr Hl Het. unfold maintain.
  rewrite bool_decide_eq_false_2, bool_decide_eq_true_2 by done.
  cbn [electionTimeout set_electionTimeout].
  destruct (Z.leb_spec (electionTimeout n - 1) 0); [|lia].
  cbn [state set_electionTimeout set_currentTimeoutDuration set_votedFor
       set_currentTerm set_state].
  rewrite bool_decide_eq_false_2 by done.
  eexists. split; [reflexivity|]. done.
Qed.

Lemma maintain_votes_empty (cur : list RaftNode) (ps : Q) (timeout : Z)
    (n : RaftNode) (votes : gmap Z (gset Z)) (pkts : list Packet) (key : Z) :
  votes !! key = Some ∅ →
  (maintain cur ps timeout n votes pkts).1.2 !! key = Some ∅.
Proof.
  intros Hv. unfold maintain.
  repeat first
    [ case_bool_decide
    | match goal with |- context [if ?b then _ else _] => destruct b end ];
    cbn; try done;
    (destruct (decide (id n = key)) as [->|Hne];
       [by rewrite lookup_insert_eq|by rewrite lookup_insert_ne]).
Qed.

Lemma maintainAll_votes_empty (cur : list RaftNode) (ps : Q) (draw : nat → Z)
    (k : nat) (todo : list RaftNode) (votes : gmap Z (gset Z))
    (pkts : list Packet) (key : Z) :
  votes !! key = Some ∅ →
  (maintainAll cur ps draw k todo votes pkts).1.2 !! key = Some ∅.
Proof.
  revert k votes pkts. induction todo as [|n todo IH]; intros k votes pkts Hv;
    cbn [maintainAll]; [done|].
  pose proof (maintain_votes_empty cur ps (draw k) n votes pkts key Hv) as H1.
  destruct (maintain _ _ _ _ _ _) as [[u votes1] pkts1].
  specialize (IH (S k) votes1 pkts1 H1).
  by destruct (maintainAll _ _ _ _ _ _ _) as [[us votes2] pkts2].
Qed.

(** What step 3 does for the node at position [i] is found in the result
    of the whole [map]: the node itself, the packets it sent, and an
    emptied set of voters. *)
Lemma maintainAll_at (cur : list RaftNode) (ps : Q) (draw : nat → Z)
    (k : nat) (todo : list RaftNode) (votes : gmap Z (gset Z))
    (pkts : list Packet) (i : nat) (n : RaftNode) :
  todo !! i = Some n →
  ∃ votes' pkts',
    let one := maintain cur ps (draw (k + i)%nat) n votes' pkts' in
    let all := maintainAll cur ps draw k todo votes pkts in
    all.1.1 !! i = Some one.1.1
    ∧ (∃ post, all.2 = one.2 ++ post)
    ∧ (∀ key, one.1.2 !! key = Some ∅ → all.1.2 !! key = Some ∅).
Proof.
  revert k votes pkts i.
  induction todo as [|m todo IH]; intros k votes pkts i Hi; [done|].
  cbn [maintainAll].
  destruct (maintain cur ps (draw k) m votes pkts) as [[u votes1] pkts1]
    eqn:Hm.
  destruct i as [|i]; cbn in Hi.
  - injection Hi as ->. exists votes, pkts.
    pose proof (maintainAll_extends cur ps draw (S k) todo votes1 pkts1)
      as (new & Hnew & _).
    pose proof (maintainAll_votes_empty cur ps draw (S k) todo votes1 pkts1)
      as Hvotes.
    destruct (maintainAll _ _ _ _ _ _ _) as [[us votes2] pkts2].
    cbn in *. rewrite Nat.add_0_r, Hm. cbn.
    split; [done|]. split; [|done]. by exists new.
  - destruct (IH (S k) votes1 pkts1 i Hi) as (votes' & pkts' & H).
    exists votes', pkts'.
    destruct (maintainAll _ _ _ _ _ _ _) as [[us votes2] pkts2]. cbn in *.
    by replace (k + S i)%nat with (S k + i)%nat by lia.
Qed.

Lemma deliverAll_laterTerm (w w' : Work) (todo : list Packet) :
  deliverAll w todo = Some w' →
  Forall2 laterTerm (currentNodes w) (currentNodes w').
Proof.
  apply (deliverAll_rel laterTerm laterTerm_refl laterTerm_trans).
  - intros. apply processRequestVote_laterTerm.
  - intros. apply processVoteResponse_laterTerm.
  - intros. apply becomeLeader_laterTerm.
  - intros ????????? _ H. by eapply processAppendEntries_laterTerm.
  - intros. apply processAppendResponse_laterTerm.
Qed.

Lemma deliverAll_sameLiveness (w w' : Work) (todo : list Packet) :
  deliverAll w todo = Some w' →
  Forall2 sameLiveness (currentNodes w) (currentNodes w').
Proof.
  assert (Hrefl : ∀ m, sameLiveness m m) by done.
  assert (Htrans : ∀ a b c, sameLiveness a b → sameLiveness b c →
                            sameLiveness a c).
  { unfold sameLiveness. intros a b c Hab Hbc. by rewrite Hbc. }
  assert (Hlive : ∀ m m' : RaftNode,
            state m ≠ CRASHED → state m' ≠ CRASHED → sameLiveness m m').
  { unfold sameLiveness. intros m m' H1 H2. split; intros; done. }
  apply (deliverAll_rel sameLiveness Hrefl Htrans).
  - intros m t c li lt Hm. apply Hlive; [done|].
    by apply processRequestVote_state.
  - intros m t g Hm. apply Hlive; [done|].
    unfold processVoteResponse. by destruct (_ <? _).
  - intros cur m Hm. apply Hlive; [by rewrite Hm|].
    destruct (becomeLeader_fields cur m) as (_ & _ & _ & _ & _ & Hs & _).
    by rewrite Hs.
  - intros m t l pi pt es lc m' r Hm Ha. apply Hlive; [done|].
    revert Ha. unfold processAppendEntries. cbv zeta.
    repeat match goal with
           | |- context [if ?b then _ else _] => destruct b
           | |- context [match logOk ?a ?b ?c with _ => _ end] =>
               destruct (logOk a b c) as [[|]|]
           end; try done; by intros [= <- _].
  - intros m s t b mi Hm. apply Hlive; [done|].
    unfold processAppendResponse. cbv zeta.
    repeat match goal with
           | |- context [if ?b then _ else _] => destruct b
           | H : bool_decide _ && _ = true |- _ =>
               apply andb_prop in H as [?%bool_decide_eq_true _]
           end; cbn; done.
Qed.

Lemma broadcast_targets (g : Z → Packet) (k : Z) (l l' : list RaftNode) :
  Forall2 laterTerm l l' → Forall2 sameLiveness l l' →
  (λ m : RaftNode, g (id m))
    <$> filter (λ m : RaftNode, id m ≠ k ∧ state m ≠ CRASHED) l'
  = (λ m : RaftNode, g (id m))
    <$> filter (λ m : RaftNode, id m ≠ k ∧ state m ≠ CRASHED) l.
Proof.
  intros H1. induction H1 as [|a b l l' [Hid _] _ IH]; intros H2; [done|].
  apply Forall2_cons in H2 as [Hs H2]. specialize (IH H2).
  unfold sameLiveness in Hs. rewrite !filter_cons.
  destruct (decide (id b ≠ k ∧ state b ≠ CRASHED)) as [Hb|Hb],
           (decide (id a ≠ k ∧ state a ≠ CRASHED)) as [Ha|Ha];
    rewrite Hid in Hb.
  - cbn. by rewrite IH, Hid.
  - exfalso. tauto.
  - exfalso. tauto.
  - done.
Qed.

(** X22.  A tick in which the election timer of a live node other than the
    leader runs out, and which delivers no packet to that node, starts an
    election: afterwards the node is candidate of the next term with its
    vote given to itself, the same log and a freshly drawn timeout, its
    set of voters is empty, and the packets in flight hold, as one block
    in node order, a RequestVote at progress 0 to every other node that
    is not crashed and to no other node, carrying the new term, the
    node's id, the index of the last entry of its log (its length minus
    one) and the term of that entry ([-1] for an empty log). *)
Theorem election_broadcast (playbackSpeed : Q) (draw : nat → Z)
    (e e' : Engine) (i : nat) (n : RaftNode) :
  tick false playbackSpeed draw e = Some e' →
  nodes e !! i = Some n →
  state n ≠ CRASHED → state n ≠ LEADER → electionTimeout n ≤ 1 →
  (∀ p, p ∈ packets e → hasArrived (advance p) = true → to p ≠ id n) →
  (∃ u, nodes e' !! i = Some u
        ∧ id u = id n ∧ state u = CANDIDATE
        ∧ currentTerm u = currentTerm n + 1 ∧ votedFor u = Some (id n)
        ∧ electionTimeout u = draw i ∧ currentTimeoutDuration u = draw i
        ∧ log u = log n ∧ commitIndex u = commitIndex n)
  ∧ votesReceived e' !! id n = Some ∅
  ∧ ∃ before after,
      packets e'
      = before
        ++ ((λ m : RaftNode,
               mkPacket (id n) (id m)
                 (RequestVote (currentTerm n + 1) (id n)
                    (Z.of_nat (length (log n)) - 1)
                    (from_option term (-1) (last (log n))))
                 0 (PACKET_SPEED * playbackSpeed)%Q)
            <$> filter (λ m : RaftNode, id m ≠ id n ∧ state m ≠ CRASHED)
                  (nodes e))
        ++ after.
Proof.
  intros Ht Hi Hcr Hl Het Hquiet. revert Ht. unfold tick.
  destruct (deliverAll _ _) as [w|] eqn:Hd; [|done].
  pose proof (deliverAll_laterTerm _ _ _ Hd) as Hterm.
  pose proof (deliverAll_sameLiveness _ _ _ Hd) as Hlive.
  apply deliverAll_untouched with (i := i) (n := n) in Hd; [|
    |done].
  2:{ apply Forall_forall. intros q [Hq Hin]%list_elem_of_filter.
      apply list_elem_of_fmap in Hin as (p & -> & Hp).
      change (to (advance p)) with (to p). by apply (Hquiet p). }
  cbn [currentNodes] in Hterm, Hlive.
  destruct (maintainAll_at (currentNodes w) playbackSpeed draw 0
              (currentNodes w) (currentVotes w) (survivingPackets w) i n Hd)
    as (votes' & pkts' & Hat).
  cbn [Nat.add] in Hat. cbv zeta in Hat.
  destruct (maintain_election (currentNodes w) playbackSpeed (draw i) n
              votes' pkts' Hcr Hl Het)
    as (u & Hm & Hs & Hct & Hv & Het' & Hdur & Hlog & Hci).
  rewrite Hm in Hat. cbn [fst snd] in Hat.
  destruct (maintainAll _ _ _ _ _ _ _) as [[ns votes] pkts].
  cbn [fst snd] in Hat. destruct Hat as (Hu & (post & Hpk) & Hvotes).
  intros [= <-]. cbn [nodes packets votesReceived].
  split; [|split].
  - exists u. repeat split; try done.
    pose proof (maintain_laterTerm (currentNodes w) playbackSpeed (draw i) n
                  votes' pkts') as [Hid _].
    by rewrite Hm in Hid.
  - apply Hvotes. by rewrite lookup_insert_eq.
  - exists pkts', post. rewrite Hpk, <- app_assoc. f_equal. f_equal.
    rewrite lastLogTermOf_last. unfold llen.
    exact (broadcast_targets
             (λ t, mkPacket (id n) t
                     (RequestVote (currentTerm n + 1) (id n)
                        (Z.of_nat (length (log n)) - 1)
                        (from_option term (-1) (last (log n))))
                     0 (PACKET_SPEED * playbackSpeed)%Q)
             (id n) (nodes e) (currentNodes w) Hterm Hlive).
Qed.

Lemma election_broadcast_witness :
  ∃ before after,
    packets electionAfter
    = before
      ++ ((λ t, mkPacket 2 t (RequestVote 4 2 1 2) 0 (PACKET_SPEED * 1)%Q)
          <$> [1; 3; 4])
      ++ after.
Proof.
  destruct (election_broadcast 1 (λ _, 300) electionBefore electionAfter
              2%nat electionNode) as (_ & _ & before & after & Hp).
  - vm_compute. reflexivity.
  - vm_compute. reflexivity.
  - discriminate.
  - discriminate.
  - vm_compute. discriminate.
  - intros p Hp Ha. exfalso.
    apply list_elem_of_lookup_1 in Hp as [k Hk].
    do 9 (destruct k as [|k];
          [injection Hk as <-; vm_compute in Ha; discriminate|]).
    done.
  - exists before, after. exact Hp.
Defined.

(** ** Commit index updates *)

Lemma processAppendEntries_commitIndex_witness :
  ∃ u r, processAppendEntries sampleFollower 3 0 0 1 sampleEntries 5
         = Some (u, r)
    ∧ commitIndex sampleFollower ≤ commitIndex u.
Proof.
  destruct (processAppendEntries sampleFollower 3 0 0 1 sampleEntries 5)
    as [[u r]|] eqn:Hres; [|vm_compute in Hres; discriminate].
  exists u, r. split; [done|].
  apply (processAppendEntries_commitIndex sampleFollower u 3 0 0 1
           sampleEntries 5 r Hres).
  vm_compute in Hres. injection Hres as <- _. vm_compute. discriminate.
Defined.
